(** * Memory-layout graph engine of the MV visualizer

    A shallow embedding of the TypeScript sources
    [components/visualizer/utils.ts], [hooks/useStackNodes.ts],
    [hooks/useHeapNodes.ts], [hooks/useMemoryState.ts] and
    [visualizer.tsx], and of
    [lib/source-code-compression.ts], which makes the key under which
    the analysis shown by the visualizer is cached, followed by the
    properties of the engine and of the key.

    Conventions of the embedding:
    - JavaScript numbers that carry sizes, addresses and vertical
      positions are integers and are modelled in [Z]; the arithmetic of
      [Z] is that of JavaScript numbers as long as the values stay
      within the safe integers, up to [2 ^ 53]. Horizontal coordinates
      come from a division by 100 and are modelled in [Q].
    - Objects that the code mutates in place (the stack nodes held in
      React state, the heap node under construction) are modelled by
      explicit updates of the list cell that holds them.
    - An object whose identity is observed ([!==], effect dependency
      arrays) carries an explicit reference number.
    - [generateRandomColor] draws from a random source; the source is a
      section variable indexed by the number of draws made so far. *)

From Stdlib Require Import ZArith QArith String Ascii.
From Stdlib Require Import DecimalString DecimalNat DecimalZ.
From stdpp Require Import base list strings numbers.

Open Scope string_scope.
Open Scope list_scope.
Open Scope Z_scope.

(** ** JavaScript primitives *)

Module Js.

(** [n.toString()] for a non-negative integer counter. *)
Definition natToString (n : nat) : string :=
  NilEmpty.string_of_uint (Nat.to_uint n).

(** [z.toString()] for an integer. *)
Definition toString (z : Z) : string :=
  NilEmpty.string_of_int (Z.to_int z).

Definition hexDigit (d : Z) : ascii :=
  match d with
  | 0 => "0" | 1 => "1" | 2 => "2" | 3 => "3" | 4 => "4"
  | 5 => "5" | 6 => "6" | 7 => "7" | 8 => "8" | 9 => "9"
  | 10 => "a" | 11 => "b" | 12 => "c" | 13 => "d" | 14 => "e"
  | _ => "f"
  end%char.

(** Digits of [n] in radix 16, most significant first, put in front of
    [acc]. *)
Fixpoint hexDigits (fuel : nat) (n : Z) (acc : string) : string :=
  match fuel with
  | O => acc
  | S fuel' =>
      let acc' := String (hexDigit (n mod 16)) acc in
      if n / 16 =? 0 then acc' else hexDigits fuel' (n / 16) acc'
  end.

(** [z.toString(16)] for an integer. *)
Definition toString16 (z : Z) : string :=
  if z <? 0
  then String "-"%char (hexDigits (S (Z.to_nat (Z.log2 (- z)))) (- z) "")
  else hexDigits (S (Z.to_nat (Z.log2 z))) z "".

Definition upperChar (c : ascii) : ascii :=
  let n := nat_of_ascii c in
  if ((97 <=? n)%nat && (n <=? 122)%nat)%bool
  then ascii_of_nat (n - 32) else c.

(** [s.toUpperCase()] on the ASCII range. *)
Fixpoint toUpperCase (s : string) : string :=
  match s with
  | EmptyString => EmptyString
  | String c s' => String (upperChar c) (toUpperCase s')
  end.

(** [s.includes(sub)]. *)
Fixpoint includes (s sub : string) : bool :=
  if String.prefix sub s then true
  else match s with
       | EmptyString => false
       | String _ s' => includes s' sub
       end.

(** A truthy string is a non-empty one. *)
Definition truthy (s : string) : bool :=
  match s with EmptyString => false | _ => true end.

(** Source text is a sequence of UTF-16 code units: [trim] is defined
    on the ECMAScript white space and line terminator code points,
    several of which lie outside the 8-bit range of [ascii]. *)
Definition SourceText := list N.

Definition isWhiteSpace (c : N) : bool :=
  ((c =? 9) || (c =? 10) || (c =? 11) || (c =? 12) || (c =? 13)
   || (c =? 32) || (c =? 160) || (c =? 5760)
   || ((8192 <=? c) && (c <=? 8202))
   || (c =? 8232) || (c =? 8233) || (c =? 8239) || (c =? 8287)
   || (c =? 12288) || (c =? 65279))%N%bool.

Fixpoint trimStart (s : SourceText) : SourceText :=
  match s with
  | c :: s' => if isWhiteSpace c then trimStart s' else s
  | [] => []
  end.

(** [s.trim()]. *)
Definition trim (s : SourceText) : SourceText :=
  rev (trimStart (rev (trimStart s))).

Definition truthyText (s : SourceText) : bool :=
  match s with [] => false | _ => true end.

(** The code units of an ASCII literal. *)
Fixpoint codeUnits (s : string) : SourceText :=
  match s with
  | EmptyString => []
  | String c s' => N_of_ascii c :: codeUnits s'
  end.

End Js.

(** ** Data model ([types/visualizer.ts]) *)

Inductive Position := Left | Right.

Module Node.

Record ExtraInfo := {
  address : string;
  pointingToAddress : option string;
  pointingToLabel : option string;
  metadata : option string;
  isFree : option bool
}.

(** [data.size] is a number on stack nodes and a string on heap nodes. *)
Inductive DataSize := SizeNumber (z : Z) | SizeString (s : string).

Record Data := {
  nodeType : string;
  label : string;
  value : string;
  dsize : DataSize;
  dtype : string;
  extraInfo : ExtraInfo
}.

Record t := {
  type : string;
  id : string;
  positionX : Q;
  positionY : Z;
  sourcePosition : option Position;
  targetPosition : option Position;
  data : Data;
  width : Z;
  height : Z;
  size : Z
}.

Definition withExtraInfo (f : ExtraInfo -> ExtraInfo) (n : t) : t :=
  {| type := type n; id := id n;
     positionX := positionX n; positionY := positionY n;
     sourcePosition := sourcePosition n;
     targetPosition := targetPosition n;
     data := {| nodeType := nodeType (data n); label := label (data n);
                value := value (data n); dsize := dsize (data n);
                dtype := dtype (data n);
                extraInfo := f (extraInfo (data n)) |};
     width := width n; height := height n; size := size n |}.

(** [n.data.extraInfo.pointingToAddress = a] *)
Definition setPointingToAddress (a : string) : t -> t :=
  withExtraInfo (fun e =>
    {| address := address e; pointingToAddress := Some a;
       pointingToLabel := pointingToLabel e; metadata := metadata e;
       isFree := isFree e |}).

(** [n.data.extraInfo.metadata = m] *)
Definition setMetadata (m : string) : t -> t :=
  withExtraInfo (fun e =>
    {| address := address e; pointingToAddress := pointingToAddress e;
       pointingToLabel := pointingToLabel e; metadata := Some m;
       isFree := isFree e |}).

(** [n.data.value = v] *)
Definition setValue (v : string) (n : t) : t :=
  {| type := type n; id := id n;
     positionX := positionX n; positionY := positionY n;
     sourcePosition := sourcePosition n;
     targetPosition := targetPosition n;
     data := {| nodeType := nodeType (data n); label := label (data n);
                value := v; dsize := dsize (data n);
                dtype := dtype (data n);
                extraInfo := extraInfo (data n) |};
     width := width n; height := height n; size := size n |}.

(** [n.sourcePosition = p] *)
Definition setSourcePosition (p : Position) (n : t) : t :=
  {| type := type n; id := id n;
     positionX := positionX n; positionY := positionY n;
     sourcePosition := Some p;
     targetPosition := targetPosition n;
     data := data n;
     width := width n; height := height n; size := size n |}.

(** [n.targetPosition = p] *)
Definition setTargetPosition (p : Position) (n : t) : t :=
  {| type := type n; id := id n;
     positionX := positionX n; positionY := positionY n;
     sourcePosition := sourcePosition n;
     targetPosition := Some p;
     data := data n;
     width := width n; height := height n; size := size n |}.

End Node.

Module Edge.

Record Marker := {
  mtype : string;
  mwidth : Z;
  mheight : Z;
  color : string
}.

Record Style := { strokeWidth : Z; stroke : string }.

Record t := {
  id : string;
  type : string;
  source : string;
  target : string;
  markerEnd : Marker;
  style : Style
}.

End Edge.

(** ** Analysis result (the JSON read by the hooks) *)

(** A stack entry is an object keyed by its variant: [{ Variable: {...} }]
    or [{ Pointer: {...} }]; [SymOther] is an object with neither key.
    The target of a pointer is read as [Pointer.value?.Variable?.name]. *)
#[warnings="-register-all"]
Inductive Symbol :=
| SymVariable (name : string) (size : Z) (value : option string)
              (vtype : string)
| SymPointer (name : string) (pointer_size : Z) (value : option Symbol)
| SymOther.

Module Block.

Record t := {
  size : Z;
  block_state : string;
  metadata : option string;
  current_pointer_identifier : option string;
  dangling_pointer_identifiers : option (list string)
}.

End Block.

Module Response.

(** [ref] is the identity of the object; [stack] and [heap] may be
    absent. *)
Record t := {
  ref : nat;
  stack : option (list Symbol);
  heap : option (list Block.t)
}.

End Response.

(** What running an effect body does: it runs to its end, returns at
    its guard, or throws a [TypeError]. *)
Inductive Outcome (A : Type) :=
| Ran (a : A)
| Returned
| Threw.
Arguments Ran {A} a.
Arguments Returned {A}.
Arguments Threw {A}.

(** ** [lib/source-code-compression.ts]

    The key under which [useAnalyzeSourceCode] caches the analysis of a
    source text. Texts are sequences of UTF-16 code units; a loop over
    an index [i] of the text is modelled on the text from [i] on. *)

Module Compression.

Definition SLASH : N := 47.
Definition STAR : N := 42.
Definition NEWLINE : N := 10.
Definition RETURN : N := 13.
Definition SPACE : N := 32.

(** [while (i < sourceCode.length && sourceCode[i] !== '\n') i++]: the
    text from the index at which the loop stops. *)
Fixpoint skipLine (t : Js.SourceText) : Js.SourceText :=
  match t with
  | c :: t' => if (c =? NEWLINE)%N then t else skipLine t'
  | [] => []
  end.

(** The loop that looks for the end of a block comment, entered after
    [i += 2]: it stops behind the first [*/], or at the last character
    of the text when there is none ([i < sourceCode.length - 1]
    fails). *)
Fixpoint skipBlock (t : Js.SourceText) : Js.SourceText :=
  match t with
  | c :: t' =>
      match t' with
      | d :: t'' =>
          if ((c =? STAR) && (d =? SLASH))%N%bool then t''
          else skipBlock t'
      | [] => t
      end
  | [] => []
  end.

(** The outer loop of [removeComments] on the text [t] from [i] on.
    Every turn moves [i] forward, so [length t] turns are enough. *)
Fixpoint removeCommentsFrom (turns : nat) (t result : Js.SourceText)
    : Js.SourceText :=
  match turns with
  | O => result
  | S turns' =>
      match t with
      | [] => result
      | c :: t' =>
          match t' with
          | d :: t'' =>
              if ((c =? SLASH) && (d =? SLASH))%N%bool
              then removeCommentsFrom turns' (skipLine t) result
              else if ((c =? SLASH) && (d =? STAR))%N%bool
                   then removeCommentsFrom turns' (skipBlock t'') result
                   else removeCommentsFrom turns' t' (result ++ [c])
          | [] => removeCommentsFrom turns' t' (result ++ [c])
          end
      end
  end.

Definition removeComments (sourceCode : Js.SourceText) : Js.SourceText :=
  removeCommentsFrom (length sourceCode) sourceCode [].

(** [.replace(/\r\n/g, '\n')] *)
Fixpoint replaceCrLf (s : Js.SourceText) : Js.SourceText :=
  match s with
  | c :: s' =>
      match s' with
      | d :: s'' =>
          if ((c =? RETURN) && (d =? NEWLINE))%N%bool
          then NEWLINE :: replaceCrLf s''
          else c :: replaceCrLf s'
      | [] => [c]
      end
  | [] => []
  end.

(** [.split('\n')] *)
Fixpoint split (s : Js.SourceText) : list Js.SourceText :=
  match s with
  | [] => [[]]
  | c :: s' =>
      if (c =? NEWLINE)%N then [] :: split s'
      else match split s' with
           | line :: lines => (c :: line) :: lines
           | [] => [[c]]
           end
  end.

(** [.join('\n')] *)
Fixpoint join (lines : list Js.SourceText) : Js.SourceText :=
  match lines with
  | [] => []
  | line :: lines' =>
      match lines' with
      | [] => line
      | _ :: _ => line ++ NEWLINE :: join lines'
      end
  end.

(** [.replace(/\s+/g, ' ')]: a space is written at the first character
    of a run of white space and the rest of the run is dropped;
    [inRun] tells that the character before was white space. *)
Fixpoint collapseFrom (inRun : bool) (s : Js.SourceText) : Js.SourceText :=
  match s with
  | [] => []
  | c :: s' =>
      if Js.isWhiteSpace c
      then if inRun then collapseFrom true s'
           else SPACE :: collapseFrom true s'
      else c :: collapseFrom false s'
  end.

Definition collapse (s : Js.SourceText) : Js.SourceText :=
  collapseFrom false s.

Definition normalizeWhitespace (sourceCode : Js.SourceText)
    : Js.SourceText :=
  Js.trim
    (collapse
       (join
          (filter (fun line => (0 < length line)%nat)
             (Js.trim <$> split (replaceCrLf sourceCode))))).

Definition compressSourceCode (sourceCode : Js.SourceText)
    : Js.SourceText :=
  let withoutComments := removeComments sourceCode in
  normalizeWhitespace withoutComments.

(** [x | 0]: the signed 32-bit integer of an integer. *)
Definition toInt32 (z : Z) : Z := (z + 2 ^ 31) mod 2 ^ 32 - 2 ^ 31.

(** One turn of the hash loop: [hash = (hash << 5) - hash + char;
    hash = hash & hash]. *)
Definition hashStep (hash : Z) (char : N) : Z :=
  toInt32 (toInt32 (hash * 32) - hash + Z.of_N char).

Definition digit36 (d : Z) : ascii :=
  if d <? 10 then ascii_of_nat (48 + Z.to_nat d)
  else ascii_of_nat (87 + Z.to_nat d).

(** Digits of [n] in radix 36, most significant first, put in front of
    [acc]. *)
Fixpoint digits36 (fuel : nat) (n : Z) (acc : string) : string :=
  match fuel with
  | O => acc
  | S fuel' =>
      let acc' := String (digit36 (n mod 36)) acc in
      if n / 36 =? 0 then acc' else digits36 fuel' (n / 36) acc'
  end.

(** [n.toString(36)] for a non-negative integer. *)
Definition toString36 (n : Z) : string :=
  digits36 (S (Z.to_nat (Z.log2 n))) n "".

Definition createSourceCodeKey (sourceCode : Js.SourceText) : string :=
  let compressed := compressSourceCode sourceCode in
  let hash := fold_left hashStep compressed 0 in
  "source_" +:+ toString36 (Z.abs hash) +:+ "_"
  +:+ Js.natToString (length compressed).

End Compression.

(** *** Words of a text *)

(** The words of a text: its maximal runs of characters that are not
    white space, in order. *)
Definition startsWord (s : Js.SourceText) : bool :=
  match s with
  | c :: _ => negb (Js.isWhiteSpace c)
  | [] => false
  end.

Definition attach (c : N) (ws : list Js.SourceText) : list Js.SourceText :=
  match ws with
  | w :: rest => (c :: w) :: rest
  | [] => [[c]]
  end.

Fixpoint words (s : Js.SourceText) : list Js.SourceText :=
  match s with
  | [] => []
  | c :: s' =>
      if Js.isWhiteSpace c then words s'
      else if startsWord s' then attach c (words s')
           else [c] :: words s'
  end.

(** The words joined by single spaces. *)
Fixpoint unwords (ws : list Js.SourceText) : Js.SourceText :=
  match ws with
  | [] => []
  | w :: rest =>
      match rest with
      | [] => w
      | _ :: _ => w ++ Compression.SPACE :: unwords rest
      end
  end.

(** The polynomial hash with multiplier 31 of a text, over the
    integers. *)
Definition poly31 (s : Js.SourceText) : Z :=
  fold_left (fun h c => 31 * h + Z.of_N c) s 0.

(** A text without the start of a comment: no [/] is followed by [/] or
    by [*]. *)
Fixpoint plain (s : Js.SourceText) : bool :=
  match s with
  | c :: s' =>
      match s' with
      | d :: _ =>
          (negb ((c =? Compression.SLASH)
                 && ((d =? Compression.SLASH) || (d =? Compression.STAR)))
           && plain s')%N%bool
      | [] => true
      end
  | [] => true
  end.

(** A text that holds no [*/]. *)
Fixpoint unclosed (s : Js.SourceText) : bool :=
  match s with
  | c :: s' =>
      match s' with
      | d :: _ =>
          (negb ((c =? Compression.STAR) && (d =? Compression.SLASH))
           && unclosed s')%N%bool
      | [] => true
      end
  | [] => true
  end.

(** ** [components/visualizer/utils.ts] *)

Section Engine.

(** [constants.ts] *)
Variables BASE_NODE_HEIGHT NODE_WIDTH HEIGHT_OFFSET : Z.

(** The [randomcolor] package behind [generateRandomColor]: the colour
    returned for a luminosity option at the k-th draw from the random
    source. *)
Variable randomColor : string -> nat -> string.

Definition getHeightFromSize (size : Z) : Z := size * BASE_NODE_HEIGHT.

Definition createEdge (id type source target color : string) : Edge.t :=
  {| Edge.id := id;
     Edge.type := type;
     Edge.source := source;
     Edge.target := target;
     Edge.markerEnd :=
       {| Edge.mtype := "arrowclosed"; Edge.mwidth := 20;
          Edge.mheight := 10; Edge.color := color |};
     Edge.style := {| Edge.strokeWidth := 4; Edge.stroke := color |} |}.

Definition calculateNodePosition (previousNode : option Node.t)
    (nodeSize windowHeight heightOffset : Z) : Z :=
  match previousNode with
  | None => windowHeight - getHeightFromSize nodeSize - heightOffset
  | Some prev => Node.positionY prev - getHeightFromSize nodeSize
  end.

Definition generateNodeId (index : nat) (isUnallocated isFree : bool)
    : string :=
  if isUnallocated then "unallocated-" +:+ Js.natToString index
  else if isFree then "free-" +:+ Js.natToString index
       else Js.natToString index.

Definition calculateMemoryUsage (nodes : list Node.t) : Z :=
  fold_left
    (fun acc node =>
       if (Js.includes (Node.id node) "free"
           || Js.includes (Node.id node) "unallocated")%bool
       then acc
       else acc + Node.size node)
    nodes 0.

(** [lib/utils.ts] *)
Definition generateRandomColor (theme : string) (draw : nat) : string :=
  randomColor (if String.eqb theme "dark" then "light" else "dark") draw.

(** [`0x${address.toString(16).toUpperCase()}`] *)
Definition formatAddress (address : Z) : string :=
  "0x" +:+ Js.toUpperCase (Js.toString16 address).

(** Strict equality of a string with a possibly undefined string. *)
Definition strictEq (s : string) (o : option string) : bool :=
  match o with
  | Some s' => String.eqb s s'
  | None => false
  end.

(** [o?.includes(s)] on an array of strings, undefined counting as
    false. *)
Definition optIncludes (o : option (list string)) (s : string) : bool :=
  match o with
  | Some l => existsb (String.eqb s) l
  | None => false
  end.

(** [o ? o : dflt] on a possibly null string. *)
Definition orElse (o : option string) (dflt : string) : string :=
  match o with
  | Some s => if Js.truthy s then s else dflt
  | None => dflt
  end.

(** ** [hooks/useStackNodes.ts] *)

(** The state of the first loop: [stackNodesInner] and [address]. *)
Definition stackSymbol (windowHeight : Z) (stackXCoordinate : Q)
    (acc : list Node.t * Z) (symbol : Symbol) : list Node.t * Z :=
  let '(stackNodesInner, address) := acc in
  match symbol with
  | SymVariable name size value vtype =>
      let yPos := calculateNodePosition (list.last stackNodesInner) size
                    windowHeight HEIGHT_OFFSET in
      let stackNode :=
        {| Node.type := "memoryBlockNode";
           Node.id := name;
           Node.positionX := stackXCoordinate;
           Node.positionY := yPos;
           Node.sourcePosition := None;
           Node.targetPosition := None;
           Node.data :=
             {| Node.nodeType := "stack";
                Node.label := name;
                Node.value := orElse value "Uninitialized";
                Node.dsize := Node.SizeNumber size;
                Node.dtype := vtype;
                Node.extraInfo :=
                  {| Node.address := formatAddress address;
                     Node.pointingToAddress := None;
                     Node.pointingToLabel := None;
                     Node.metadata := None;
                     Node.isFree := None |} |};
           Node.width := NODE_WIDTH;
           Node.height := getHeightFromSize size;
           Node.size := size |} in
      (stackNodesInner ++ [stackNode], address + size)
  | SymPointer name pointer_size value =>
      let yPos := calculateNodePosition (list.last stackNodesInner) pointer_size
                    windowHeight HEIGHT_OFFSET in
      let stackNode :=
        {| Node.type := "memoryBlockNode";
           Node.id := name;
           Node.positionX := stackXCoordinate;
           Node.positionY := yPos;
           Node.sourcePosition := Some Right;
           Node.targetPosition := None;
           Node.data :=
             {| Node.nodeType := "stack";
                Node.label := "*" +:+ name;
                Node.value := "";
                Node.dsize := Node.SizeNumber pointer_size;
                Node.dtype := "Pointer";
                Node.extraInfo :=
                  {| Node.address := formatAddress address;
                     Node.pointingToAddress := None;
                     Node.pointingToLabel :=
                       match value with
                       | Some (SymVariable target _ _ _) => Some target
                       | _ => None
                       end;
                     Node.metadata := None;
                     Node.isFree := None |} |};
           Node.width := NODE_WIDTH;
           Node.height := getHeightFromSize pointer_size;
           Node.size := pointer_size |} in
      (stackNodesInner ++ [stackNode], address + pointer_size)
  | SymOther => acc
  end.

Definition STACK_BASE : Z := 0xbfffffff.

Definition buildStackNodes (windowHeight : Z) (stackXCoordinate : Q)
    (stack : list Symbol) : list Node.t :=
  fst (fold_left (stackSymbol windowHeight stackXCoordinate) stack
         ([], STACK_BASE)).

(** The second loop mutates the nodes it visits and queues the edges;
    [draws] counts the colours drawn so far. *)
Record Build := {
  nodes : list Node.t;
  connections : list Edge.t;
  draws : nat
}.

(** Body of the inner [forEach]: [node] is cell [i], [innerNode] is
    cell [j] of the same array. *)
Definition connectInner (theme : string) (i : nat) (st : Build) (j : nat)
    : Build :=
  match nodes st !! i, nodes st !! j with
  | Some node, Some innerNode =>
      let pointingToLabel :=
        Node.pointingToLabel (Node.extraInfo (Node.data node)) in
      if strictEq (Node.id innerNode) pointingToLabel then
        let marked :=
          alter (fun n =>
                   Node.setValue ("&" +:+ default "undefined" pointingToLabel)
                     (Node.setPointingToAddress
                        (Node.address (Node.extraInfo (Node.data innerNode)))
                        n))
                i (nodes st) in
        let anchored :=
          alter (fun n =>
                   Node.setTargetPosition Right
                     (Node.setSourcePosition Right n))
                j marked in
        let stroke := generateRandomColor theme (draws st) in
        {| nodes := anchored;
           connections :=
             connections st ++
             [createEdge ("e" +:+ Node.id node +:+ "-" +:+ Node.id innerNode)
                "step" (Node.id node) (Node.id innerNode) stroke];
           draws := S (draws st) |}
      else st
  | _, _ => st
  end.

(** Body of the outer [forEach]. *)
Definition connectOuter (theme : string) (st : Build) (i : nat) : Build :=
  match nodes st !! i with
  | Some node =>
      if String.eqb (Node.dtype (Node.data node)) "Pointer"
      then fold_left (connectInner theme i)
             (seq 0 (length (nodes st))) st
      else st
  | None => st
  end.

Definition connectPointers (theme : string) (stackNodesInner : list Node.t)
    (drawn : nat) : Build :=
  fold_left (connectOuter theme) (seq 0 (length stackNodesInner))
    {| nodes := stackNodesInner; connections := []; draws := drawn |}.

(** The effect of [useStackNodes]; [Ran b] calls [setStackNodes
    (nodes b)] and [setStackConnections (connections b)]. *)
Definition useStackNodes (analyzeResponse : option Response.t)
    (windowHeight : Z) (stackXCoordinate : Q) (theme : string)
    (drawn : nat) : Outcome Build :=
  match analyzeResponse with
  | None => Returned
  | Some r =>
      match Response.stack r with
      | None => Returned
      | Some stack =>
          Ran (connectPointers theme
                 (buildStackNodes windowHeight stackXCoordinate stack)
                 drawn)
      end
  end.

(** ** [hooks/useHeapNodes.ts] *)

(** The state seen by the callback of [stackNodes.forEach]: the stack
    nodes (objects shared with React state, mutated in place), the heap
    node under construction, the queued edges and the draw counter. *)
Record Connect := {
  cStack : list Node.t;
  cHeapNode : Node.t;
  cEdges : list Edge.t;
  cDraws : nat
}.

(** The scan of [connectionsInner] that keeps the stroke of an edge
    already queued for the same source and target. *)
Definition preserveStroke (connectionsInner : list Edge.t)
    (source target stroke : string) : string :=
  fold_left
    (fun stroke connection =>
       if (String.eqb (Edge.source connection) source
           && String.eqb (Edge.target connection) target)%bool
       then Edge.stroke (Edge.style connection)
       else stroke)
    connectionsInner stroke.

(** Body of [stackNodes.forEach] for the stack node in cell [j]. *)
Definition connectStackNode (theme : string) (block : Block.t)
    (heapNodeID : string) (st : Connect) (j : nat) : Connect :=
  match cStack st !! j with
  | None => st
  | Some stackNode =>
      let stroke := generateRandomColor theme (cDraws st) in
      let isCurrentPointer :=
        strictEq (Node.id stackNode) (Block.current_pointer_identifier block) in
      let isDanglingPointer :=
        optIncludes (Block.dangling_pointer_identifiers block)
          (Node.id stackNode) in
      if (isCurrentPointer || isDanglingPointer)%bool then
        let pointed :=
          alter (Node.setPointingToAddress
                   (Node.address (Node.extraInfo (Node.data (cHeapNode st)))))
                j (cStack st) in
        let heapNode := Node.setTargetPosition Left (cHeapNode st) in
        let stroke :=
          if isCurrentPointer
          then preserveStroke (cEdges st) (Node.id stackNode) heapNodeID stroke
          else stroke in
        let flagged :=
          if isDanglingPointer
          then alter (Node.setMetadata "Dangling Pointer") j pointed
          else pointed in
        let stroke := if isDanglingPointer then "red" else stroke in
        {| cStack := flagged;
           cHeapNode := heapNode;
           cEdges :=
             cEdges st ++
             [createEdge ("e" +:+ Node.id stackNode +:+ "-" +:+ heapNodeID)
                "straight" (Node.id stackNode) heapNodeID stroke];
           cDraws := S (cDraws st) |}
      else
        {| cStack := cStack st; cHeapNode := cHeapNode st;
           cEdges := cEdges st; cDraws := S (cDraws st) |}
  end.

(** The state of the loop over the blocks. *)
Record HeapLoop := {
  hStack : list Node.t;
  heapNodesInner : list Node.t;
  connectionsInner : list Edge.t;
  index : nat;
  address : Z;
  hDraws : nat
}.

Definition heapBlock (theme : string) (windowHeight : Z)
    (heapXCoordinate : Q) (st : HeapLoop) (block : Block.t) : HeapLoop :=
  let isFree := String.eqb (Block.block_state block) "Free" in
  let isUnallocated := String.eqb (Block.block_state block) "Unallocated" in
  let yPos := calculateNodePosition (list.last (heapNodesInner st))
                (Block.size block) windowHeight HEIGHT_OFFSET in
  let label := orElse (Block.metadata block) "null" in
  let heapNodeID := generateNodeId (index st) isUnallocated isFree in
  let heapNode :=
    {| Node.type := "memoryBlockNode";
       Node.id := heapNodeID;
       Node.positionX := heapXCoordinate;
       Node.positionY := yPos;
       Node.sourcePosition := None;
       Node.targetPosition := None;
       Node.data :=
         {| Node.nodeType := "heap";
            Node.label := label;
            Node.value := "";
            Node.dsize := Node.SizeString (Js.toString (Block.size block));
            Node.dtype :=
              if String.eqb (Block.block_state block) "Leaked"
              then "LB" else "";
            Node.extraInfo :=
              {| Node.address := formatAddress (address st);
                 Node.pointingToAddress := None;
                 Node.pointingToLabel := None;
                 Node.metadata := None;
                 Node.isFree := Some isFree |} |};
       Node.width := NODE_WIDTH;
       Node.height := getHeightFromSize (Block.size block);
       Node.size := Block.size block |} in
  let start :=
    {| cStack := hStack st; cHeapNode := heapNode;
       cEdges := connectionsInner st; cDraws := hDraws st |} in
  let c :=
    if negb (Js.includes heapNodeID "unallocated")
    then fold_left (connectStackNode theme block heapNodeID)
           (seq 0 (length (hStack st))) start
    else start in
  {| hStack := cStack c;
     heapNodesInner := heapNodesInner st ++ [cHeapNode c];
     connectionsInner := cEdges c;
     index := S (index st);
     address := address st + Block.size block;
     hDraws := cDraws c |}.

Definition HEAP_BASE : Z := 0x00400000.

Definition buildHeap (theme : string) (windowHeight : Z)
    (heapXCoordinate : Q) (stackNodes : list Node.t) (drawn : nat)
    (heap : list Block.t) : HeapLoop :=
  fold_left (heapBlock theme windowHeight heapXCoordinate) heap
    {| hStack := stackNodes; heapNodesInner := []; connectionsInner := [];
       index := 0; address := HEAP_BASE; hDraws := drawn |}.

(** The effect of [useHeapNodes]. [Ran h] calls [setHeapNodes
    (heapNodesInner h)] and [setHeapConnections (connectionsInner h)],
    and has left the stack nodes as [hStack h]. The guard reads
    [analyzeResponse.stack.length], which throws when the [stack] field
    is absent. *)
Definition useHeapNodes (analyzeResponse : option Response.t)
    (stackNodes : list Node.t) (windowHeight : Z) (heapXCoordinate : Q)
    (theme : string) (drawn : nat) : Outcome HeapLoop :=
  match analyzeResponse with
  | None => Returned
  | Some r =>
      match Response.heap r with
      | None => Returned
      | Some heap =>
          match Response.stack r with
          | None => Threw
          | Some stack =>
              if (length stack =? 0)%nat then Returned
              else Ran (buildHeap theme windowHeight heapXCoordinate
                          stackNodes drawn heap)
          end
      end
  end.

(** ** [visualizer.tsx] and [hooks/useMemoryState.ts] *)

(** What one render of [Visualizer] reads: its props, and the values of
    [useWindowSize], [usePositionState] and [useTheme]. [analyzeError]
    is the truthiness of the prop. *)
Record Input := {
  analyzeResponse : option Response.t;
  analyzeError : bool;
  sourceCode : Js.SourceText;
  windowHeight : Z;
  stackXCoordinate : Q;
  heapXCoordinate : Q;
  theme : string
}.

(** Dependency arrays of the two building effects, as stored at their
    last run. Objects are compared by identity. *)
Record StackDeps := {
  sdResponse : option nat;
  sdX : Q;
  sdTheme : string;
  sdHeight : Z
}.

Record HeapDeps := {
  hdResponse : option nat;
  hdStackNodes : nat;
  hdX : Q;
  hdTheme : string;
  hdHeight : Z
}.

(** The state of [useMemoryState], the identity of the array held in
    [stackNodes] (a dependency of the heap effect), the dependency
    arrays kept by React, the next free array identity and the number of
    colours drawn. *)
Record State := {
  stackNodes : list Node.t;
  stackNodesRef : nat;
  heapNodes : list Node.t;
  stackConnections : list Edge.t;
  heapConnections : list Edge.t;
  lastValidAnalyzeResponse : option Response.t;
  stackDeps : option StackDeps;
  heapDeps : option HeapDeps;
  nextRef : nat;
  drawn : nat
}.

(** The state at mount. *)
Definition mount : State :=
  {| stackNodes := []; stackNodesRef := 0; heapNodes := [];
     stackConnections := []; heapConnections := [];
     lastValidAnalyzeResponse := None;
     stackDeps := None; heapDeps := None; nextRef := 1; drawn := 0 |}.

(** [a?.length > 0] *)
Definition nonEmpty {A : Type} (a : option (list A)) : bool :=
  match a with
  | Some (_ :: _) => true
  | _ => false
  end.

Definition hasValidAnalyzeResponse (inp : Input) : bool :=
  match analyzeResponse inp with
  | None => false
  | Some r =>
      (negb (analyzeError inp)
       && (nonEmpty (Response.stack r) || nonEmpty (Response.heap r)))%bool
  end.

Definition shouldShowLastValidVisualization (inp : Input) (st : State)
    : bool :=
  (Js.truthyText (Js.trim (sourceCode inp))
   && negb (hasValidAnalyzeResponse inp)
   && bool_decide (is_Some (lastValidAnalyzeResponse st)))%bool.

Definition currentAnalyzeResponse (inp : Input) (st : State)
    : option Response.t :=
  if shouldShowLastValidVisualization inp st
  then lastValidAnalyzeResponse st
  else analyzeResponse inp.

(** [a === b] on possibly null objects. *)
Definition sameObject (a b : option Response.t) : bool :=
  match a, b with
  | Some x, Some y => (Response.ref x =? Response.ref y)%nat
  | None, None => true
  | _, _ => false
  end.

Definition identity (a : option Response.t) : option nat :=
  Response.ref <$> a.

(** Each effect reads the rendered snapshot [st] and updates the pending
    state [next]; the pending state is committed after the last effect. *)

(** First effect: [updateLastValidAnalyzeResponse]. *)
Definition retainEffect (inp : Input) (next : State) : State :=
  if hasValidAnalyzeResponse inp then
    {| stackNodes := stackNodes next; stackNodesRef := stackNodesRef next;
       heapNodes := heapNodes next;
       stackConnections := stackConnections next;
       heapConnections := heapConnections next;
       lastValidAnalyzeResponse := analyzeResponse inp;
       stackDeps := stackDeps next; heapDeps := heapDeps next;
       nextRef := nextRef next; drawn := drawn next |}
  else next.

(** [resetMemory]: four fresh empty arrays. *)
Definition resetMemory (next : State) : State :=
  {| stackNodes := []; stackNodesRef := nextRef next;
     heapNodes := [];
     stackConnections := [];
     heapConnections := [];
     lastValidAnalyzeResponse := lastValidAnalyzeResponse next;
     stackDeps := stackDeps next; heapDeps := heapDeps next;
     nextRef := S (nextRef next); drawn := drawn next |}.

(** The guard of the second effect. *)
Definition forcesRebuild (inp : Input) (st : State) : bool :=
  (hasValidAnalyzeResponse inp
   && negb (sameObject (analyzeResponse inp)
              (lastValidAnalyzeResponse st)))%bool.

Definition resetEffect (inp : Input) (st next : State) : State :=
  if forcesRebuild inp st then resetMemory next else next.

Definition stackDepsOf (inp : Input) (st : State) : StackDeps :=
  {| sdResponse := identity (currentAnalyzeResponse inp st);
     sdX := stackXCoordinate inp;
     sdTheme := theme inp;
     sdHeight := windowHeight inp |}.

Definition heapDepsOf (inp : Input) (st : State) : HeapDeps :=
  {| hdResponse := identity (currentAnalyzeResponse inp st);
     hdStackNodes := stackNodesRef st;
     hdX := heapXCoordinate inp;
     hdTheme := theme inp;
     hdHeight := windowHeight inp |}.

Definition sameStackDeps (a b : StackDeps) : bool :=
  (bool_decide (sdResponse a = sdResponse b)
   && Qeq_bool (sdX a) (sdX b)
   && String.eqb (sdTheme a) (sdTheme b)
   && (sdHeight a =? sdHeight b))%bool.

Definition sameHeapDeps (a b : HeapDeps) : bool :=
  (bool_decide (hdResponse a = hdResponse b)
   && (hdStackNodes a =? hdStackNodes b)%nat
   && Qeq_bool (hdX a) (hdX b)
   && String.eqb (hdTheme a) (hdTheme b)
   && (hdHeight a =? hdHeight b))%bool.

(** An effect runs at mount and whenever a dependency has changed. *)
Definition stackDepsChanged (inp : Input) (st : State) : bool :=
  match stackDeps st with
  | None => true
  | Some d => negb (sameStackDeps d (stackDepsOf inp st))
  end.

Definition heapDepsChanged (inp : Input) (st : State) : bool :=
  match heapDeps st with
  | None => true
  | Some d => negb (sameHeapDeps d (heapDepsOf inp st))
  end.

Inductive Rendered :=
| Committed (st : State)
| Crashed.

(** Third effect: the effect of [useStackNodes] on the current
    response. *)
Definition stackEffect (inp : Input) (st next : State) : Rendered :=
  if stackDepsChanged inp st then
    match useStackNodes (currentAnalyzeResponse inp st) (windowHeight inp)
            (stackXCoordinate inp) (theme inp) (drawn next) with
    | Ran b =>
        Committed
          {| stackNodes := nodes b; stackNodesRef := nextRef next;
             heapNodes := heapNodes next;
             stackConnections := connections b;
             heapConnections := heapConnections next;
             lastValidAnalyzeResponse := lastValidAnalyzeResponse next;
             stackDeps := Some (stackDepsOf inp st);
             heapDeps := heapDeps next;
             nextRef := S (nextRef next); drawn := draws b |}
    | Returned =>
        Committed
          {| stackNodes := stackNodes next;
             stackNodesRef := stackNodesRef next;
             heapNodes := heapNodes next;
             stackConnections := stackConnections next;
             heapConnections := heapConnections next;
             lastValidAnalyzeResponse := lastValidAnalyzeResponse next;
             stackDeps := Some (stackDepsOf inp st);
             heapDeps := heapDeps next;
             nextRef := nextRef next; drawn := drawn next |}
    | Threw => Crashed
    end
  else Committed next.

(** Fourth effect: the effect of [useHeapNodes] on the current response
    and on the stack nodes of the rendered snapshot. Its writes to the
    stack nodes stay visible only when the snapshot array is still the
    one held in the pending state. *)
Definition heapEffect (inp : Input) (st next : State) : Rendered :=
  if heapDepsChanged inp st then
    match useHeapNodes (currentAnalyzeResponse inp st) (stackNodes st)
            (windowHeight inp) (heapXCoordinate inp) (theme inp)
            (drawn next) with
    | Ran h =>
        Committed
          {| stackNodes :=
               if (stackNodesRef next =? stackNodesRef st)%nat
               then hStack h else stackNodes next;
             stackNodesRef := stackNodesRef next;
             heapNodes := heapNodesInner h;
             stackConnections := stackConnections next;
             heapConnections := connectionsInner h;
             lastValidAnalyzeResponse := lastValidAnalyzeResponse next;
             stackDeps := stackDeps next;
             heapDeps := Some (heapDepsOf inp st);
             nextRef := nextRef next; drawn := hDraws h |}
    | Returned =>
        Committed
          {| stackNodes := stackNodes next;
             stackNodesRef := stackNodesRef next;
             heapNodes := heapNodes next;
             stackConnections := stackConnections next;
             heapConnections := heapConnections next;
             lastValidAnalyzeResponse := lastValidAnalyzeResponse next;
             stackDeps := stackDeps next;
             heapDeps := Some (heapDepsOf inp st);
             nextRef := nextRef next; drawn := drawn next |}
    | Threw => Crashed
    end
  else Committed next.

(** One render followed by its effects, in the order of the hooks. *)
Definition pass (inp : Input) (st : State) : Rendered :=
  let next := resetEffect inp st (retainEffect inp st) in
  match stackEffect inp st next with
  | Committed next => heapEffect inp st next
  | Crashed => Crashed
  end.

(** One recomputation: React renders again after a pass that changed
    the state. The second pass lets the heap effect see the stack nodes
    set by the first; a further pass changes nothing ([pass_settled]
    below). *)
Definition recompute (inp : Input) (st : State) : Rendered :=
  match pass inp st with
  | Committed st1 => pass inp st1
  | Crashed => Crashed
  end.

(** *** The graph handed to [ReactFlow] *)

Record Label := {
  lid : string;
  ltype : string;
  lx : Q;
  ly : Z;
  ltext : string;
  draggable : bool;
  selectable : bool
}.

Inductive GraphNode :=
| MemoryBlock (n : Node.t)
| LabelNode (l : Label).

Record Graph := {
  graphNodes : list GraphNode;
  graphEdges : list Edge.t
}.

(** The [reduce] that finds the node highest on screen. *)
Definition topNode (layer : list Node.t) : option Node.t :=
  match layer with
  | [] => None
  | first :: _ =>
      Some (fold_left
              (fun topNode node =>
                 if Node.positionY node <? Node.positionY topNode
                 then node else topNode)
              layer first)
  end.

Definition layerLabel (lid text : string) (x : Q) (layer : list Node.t)
    : list GraphNode :=
  match topNode layer with
  | None => []
  | Some top =>
      [LabelNode
         {| lid := lid; ltype := "labelNode";
            lx := (x + inject_Z NODE_WIDTH / 2 - 30)%Q;
            ly := Node.positionY top - 50;
            ltext := text; draggable := false; selectable := false |}]
  end.

Definition labelNodes (inp : Input) (st : State) : list GraphNode :=
  layerLabel "stack-label" "Stack" (stackXCoordinate inp) (stackNodes st)
  ++ layerLabel "heap-label" "Heap" (heapXCoordinate inp) (heapNodes st).

Definition emittedGraph (inp : Input) (st : State) : Graph :=
  {| graphNodes :=
       (MemoryBlock <$> stackNodes st) ++ (MemoryBlock <$> heapNodes st)
       ++ labelNodes inp st;
     graphEdges := stackConnections st ++ heapConnections st |}.

(** *** The overlay

    [isAnalyzing] is a prop of the component. *)

Definition shouldShowWriteCodeMessage (inp : Input) (st : State) : bool :=
  (negb (Js.truthyText (Js.trim (sourceCode inp)))
   && negb (bool_decide (is_Some (lastValidAnalyzeResponse st))))%bool.

Definition hasNoMemoryData (st : State) : bool :=
  ((length (stackNodes st) =? 0)%nat
   && (length (heapNodes st) =? 0)%nat)%bool.

Definition shouldShowOverlay (inp : Input) (st : State)
    (isAnalyzing : bool) : bool :=
  (shouldShowWriteCodeMessage inp st
   || (hasNoMemoryData st
       && negb (shouldShowLastValidVisualization inp st)
       && negb isAnalyzing))%bool.

(** A state is settled on an input when a pass over it has nothing to
    do: no effect would run with changed dependencies, the rebuild guard
    is off and a valid response is already the retained one. *)
Definition Settled (inp : Input) (st : State) : Prop :=
  stackDepsChanged inp st = false
  ∧ heapDepsChanged inp st = false
  ∧ forcesRebuild inp st = false
  ∧ (hasValidAnalyzeResponse inp = true →
     lastValidAnalyzeResponse st = analyzeResponse inp).

(** Array identities are handed out in increasing order: the array held
    in [stackNodes] was allocated before the next free identity. *)
Definition Fresh (st : State) : Prop :=
  (stackNodesRef st < nextRef st)%nat.

(** Two inputs read the same window, coordinates and theme. *)
Definition sameView (a b : Input) : Prop :=
  windowHeight a = windowHeight b
  ∧ stackXCoordinate a = stackXCoordinate b
  ∧ heapXCoordinate a = heapXCoordinate b
  ∧ theme a = theme b.

(** ** Vocabulary of the properties *)

(** Reading a rendered address back: the text must be [0x] followed by
    at least one digit among [0-9A-F]; the result is the number
    written. *)
Definition isUpperHexDigit (c : ascii) : bool :=
  let n := nat_of_ascii c in
  ((48 <=? n) && (n <=? 57) || (65 <=? n) && (n <=? 70))%nat%bool.

Definition hexDigitValue (c : ascii) : Z :=
  let n := Z.of_nat (nat_of_ascii c) in
  if n <=? 57 then n - 48 else n - 55.

Fixpoint allChars (p : ascii → bool) (s : string) : bool :=
  match s with
  | EmptyString => true
  | String c s' => (p c && allChars p s')%bool
  end.

Fixpoint hexValueFrom (acc : Z) (s : string) : Z :=
  match s with
  | EmptyString => acc
  | String c s' => hexValueFrom (acc * 16 + hexDigitValue c) s'
  end.

Definition addressValue (a : string) : option Z :=
  match a with
  | String "0" (String "x" ds) =>
      if (Js.truthy ds && allChars isUpperHexDigit ds)%bool
      then Some (hexValueFrom 0 ds) else None
  | _ => None
  end.

Definition nodeAddress (n : Node.t) : string :=
  Node.address (Node.extraInfo (Node.data n)).

(** The address law of a layer: the first node sits at [base], and each
    node sits at the address of the node before it plus that node's
    size; every address reads back, so it is [0x] and upper-case
    hexadecimal digits. *)
Definition AddressLaw (base : Z) (layer : list Node.t) : Prop :=
  (∀ n, layer !! 0%nat = Some n → addressValue (nodeAddress n) = Some base)
  ∧ (∀ i a b, layer !! i = Some a → layer !! S i = Some b →
       ∃ v, addressValue (nodeAddress a) = Some v
            ∧ addressValue (nodeAddress b) = Some (v + Node.size a))
  ∧ (∀ n, n ∈ layer → is_Some (addressValue (nodeAddress n))).

Definition symbolSize (s : Symbol) : Z :=
  match s with
  | SymVariable _ size _ _ => size
  | SymPointer _ pointer_size _ => pointer_size
  | SymOther => 0
  end.

Definition sizeSum (layer : list Node.t) : Z :=
  foldr (fun n acc => Node.size n + acc) 0 layer.

(** A node with the fields that the loops write after construction
    blanked out; two nodes with the same [frozen] image differ at most
    in those fields. *)
Definition frozen (n : Node.t) : Node.t :=
  Node.setValue ""
    (Node.withExtraInfo
       (fun e =>
          {| Node.address := Node.address e;
             Node.pointingToAddress := None;
             Node.pointingToLabel := Node.pointingToLabel e;
             Node.metadata := None;
             Node.isFree := Node.isFree e |})
       {| Node.type := Node.type n; Node.id := Node.id n;
          Node.positionX := Node.positionX n;
          Node.positionY := Node.positionY n;
          Node.sourcePosition := None;
          Node.targetPosition := None;
          Node.data := Node.data n;
          Node.width := Node.width n; Node.height := Node.height n;
          Node.size := Node.size n |}).

(** The two relations of a stack node to a heap block, as the heap
    builder evaluates them. *)
Definition isCurrentPointer (block : Block.t) (sid : string) : bool :=
  strictEq sid (Block.current_pointer_identifier block).

Definition isDanglingPointer (block : Block.t) (sid : string) : bool :=
  optIncludes (Block.dangling_pointer_identifiers block) sid.

Definition named (block : Block.t) (sid : string) : bool :=
  (isCurrentPointer block sid || isDanglingPointer block sid)%bool.

(** What the visit of a block whose node sits at [a] writes on a stack
    node. *)
Definition touch (block : Block.t) (a : string) (s : Node.t) : Node.t :=
  if named block (Node.id s) then
    if isDanglingPointer block (Node.id s)
    then Node.setMetadata "Dangling Pointer" (Node.setPointingToAddress a s)
    else Node.setPointingToAddress a s
  else s.

(** An edge queued for the stack node of id [sid] towards the heap node
    [hid] of [block]: its stroke is forced to red when the node
    dangles. *)
Definition EdgeFor (block : Block.t) (hid : string) (e : Edge.t)
    (sid : string) : Prop :=
  ∃ stroke,
    e = createEdge ("e" +:+ sid +:+ "-" +:+ hid) "straight" sid hid stroke
    ∧ (isDanglingPointer block sid = true → stroke = "red").

(** The addresses of a layer in closed form: node [i] sits at [base]
    plus the sizes of the nodes before it. *)
Definition ClosedForm (base : Z) (layer : list Node.t) : Prop :=
  ∀ i n, layer !! i = Some n →
    nodeAddress n = formatAddress (base + sizeSum (take i layer)).

Definition isDigit (c : ascii) : bool :=
  let n := nat_of_ascii c in ((48 <=? n) && (n <=? 57))%nat%bool.

Definition isUnallocated (block : Block.t) : bool :=
  String.eqb (Block.block_state block) "Unallocated".

(** The id given to the node of [block] when it is visited at position
    [k]. *)
Definition heapNodeId (k : nat) (block : Block.t) : string :=
  generateNodeId k (isUnallocated block)
    (String.eqb (Block.block_state block) "Free").

(** What the visit of a block whose node sits at address [a] does to
    the stack nodes. *)
Definition visit (block : Block.t) (a : Z) (stack : list Node.t)
    : list Node.t :=
  if isUnallocated block then stack
  else touch block (formatAddress a) <$> stack.

(** The ids of the stack nodes for which the visit of a block queues an
    edge. *)
Definition namedBy (block : Block.t) (ids : list string) : list string :=
  if isUnallocated block then []
  else filter (fun sid => named block sid = true) ids.

Definition blockSum (heap : list Block.t) : Z :=
  foldr (fun b acc => Block.size b + acc) 0 heap.

(** The stack nodes after the visits of the blocks of [heap], the first
    of which sits at address [a]. *)
Fixpoint visits (a : Z) (heap : list Block.t) (stack : list Node.t)
    : list Node.t :=
  match heap with
  | [] => stack
  | b :: rest => visits (a + Block.size b) rest (visit b a stack)
  end.

(** The edges to expect from the visits of [heap], in the order in which
    they are queued: one per block, from position [k] on, and per stack
    id that the block names. *)
Definition Slot : Type := Block.t * string * string.

Fixpoint expected (ids : list string) (k : nat) (heap : list Block.t)
    : list Slot :=
  match heap with
  | [] => []
  | b :: rest =>
      ((fun sid => (b, heapNodeId k b, sid)) <$> namedBy b ids)
      ++ expected ids (S k) rest
  end.

Definition EdgeAt (e : Edge.t) (slot : Slot) : Prop :=
  EdgeFor slot.1.1 slot.1.2 e slot.2.

(** The heap nodes to expect: position, address and block of each. *)
Fixpoint placed (k : nat) (a : Z) (heap : list Block.t)
    : list (nat * Z * Block.t) :=
  match heap with
  | [] => []
  | b :: rest => (k, a, b) :: placed (S k) (a + Block.size b) rest
  end.

Definition NodeAt (hn : Node.t) (p : nat * Z * Block.t) : Prop :=
  Node.id hn = heapNodeId p.1.1 p.2
  ∧ nodeAddress hn = formatAddress p.1.2
  ∧ Node.size hn = Block.size p.2.

(** The scenarios of the specification. *)
Definition scenarioIntraStack : Response.t :=
  {| Response.ref := 1;
     Response.stack :=
       Some [SymVariable "x" 4 (Some "12") "Integer";
             SymPointer "p" 8 (Some (SymVariable "x" 4 (Some "12") "Integer"))];
     Response.heap := Some [] |}.

Definition scenarioActive : Response.t :=
  {| Response.ref := 2;
     Response.stack := Some [SymPointer "p" 8 None];
     Response.heap :=
       Some [{| Block.size := 4; Block.block_state := "Allocated";
                Block.metadata := None;
                Block.current_pointer_identifier := Some "p";
                Block.dangling_pointer_identifiers := Some [] |}] |}.

Definition scenarioDangling : Response.t :=
  {| Response.ref := 3;
     Response.stack := Some [SymPointer "p" 8 None];
     Response.heap :=
       Some [{| Block.size := 4; Block.block_state := "Free";
                Block.metadata := None;
                Block.current_pointer_identifier := None;
                Block.dangling_pointer_identifiers := Some ["p"] |}] |}.

Definition nodeMetadata (s : Node.t) : option string :=
  Node.metadata (Node.extraInfo (Node.data s)).

Definition nodePointingToAddress (s : Node.t) : option string :=
  Node.pointingToAddress (Node.extraInfo (Node.data s)).

Definition nodeLabel (s : Node.t) : option string :=
  Node.pointingToLabel (Node.extraInfo (Node.data s)).

(** A pointer node after its link has been resolved. *)
Definition marked (v a : string) (c : Node.t) : Prop :=
  Node.value (Node.data c) = v ∧ nodePointingToAddress c = Some a.

(** A node with both anchors on its right side. *)
Definition anchored (c : Node.t) : Prop :=
  Node.sourcePosition c = Some Right ∧ Node.targetPosition c = Some Right.

(** The state of the second loop of the stack builder still holds the
    nodes [N], up to the fields written after construction. *)
Definition Shape (N : list Node.t) (st : Build) : Prop :=
  frozen <$> nodes st = frozen <$> N.

(** The usage named by the specification, on the blocks of the heap:
    the sizes of the blocks that are neither free nor unallocated. *)
Definition isFreeBlock (block : Block.t) : bool :=
  String.eqb (Block.block_state block) "Free".

Definition liveSize (heap : list Block.t) : Z :=
  foldr (fun b acc =>
           if (isUnallocated b || isFreeBlock b)%bool then acc
           else Block.size b + acc) 0 heap.

(** A stack whose only variable has a name that contains [free]. *)
Definition stackWithFreeName : list Symbol :=
  [SymVariable "freeSlots" 4 (Some "3") "Integer"].

(** The object that [routes/index.tsx] passes while no analysis result
    is available: [{ stack: [], heap: [] }]. *)
Definition emptyResponse : Response.t :=
  {| Response.ref := 9; Response.stack := Some []; Response.heap := Some [] |}.

(** A result with a [heap] field and no [stack] field. *)
Definition heapOnlyResponse : Response.t :=
  {| Response.ref := 8; Response.stack := None; Response.heap := Some [] |}.

(** One pointer that is both the current pointer and a dangling pointer
    of the same block. *)
Definition scenarioBoth : Response.t :=
  {| Response.ref := 4;
     Response.stack := Some [SymPointer "p" 8 None];
     Response.heap :=
       Some [{| Block.size := 4; Block.block_state := "Allocated";
                Block.metadata := None;
                Block.current_pointer_identifier := Some "p";
                Block.dangling_pointer_identifiers := Some ["p"] |}] |}.

(** One pointer that is the current pointer of a first block and a
    dangling pointer of a second one. *)
Definition scenarioTwoBlocks : Response.t :=
  {| Response.ref := 5;
     Response.stack := Some [SymPointer "p" 8 None];
     Response.heap :=
       Some [{| Block.size := 4; Block.block_state := "Allocated";
                Block.metadata := None;
                Block.current_pointer_identifier := Some "p";
                Block.dangling_pointer_identifiers := Some [] |};
             {| Block.size := 4; Block.block_state := "Free";
                Block.metadata := None;
                Block.current_pointer_identifier := None;
                Block.dangling_pointer_identifiers := Some ["p"] |}] |}.

(** A result with a leaked block and no stack entry. *)
Definition scenarioHeapOnly : Response.t :=
  {| Response.ref := 6;
     Response.stack := Some [];
     Response.heap :=
       Some [{| Block.size := 4; Block.block_state := "Leaked";
                Block.metadata := None;
                Block.current_pointer_identifier := None;
                Block.dangling_pointer_identifiers := Some [] |}] |}.

(** A stack with an entry that is neither a variable nor a pointer, a
    variable, and a pointer whose target is not on the stack. *)
Definition stackUnresolved : list Symbol :=
  [SymOther;
   SymVariable "x" 4 None "Integer";
   SymPointer "q" 8 (Some (SymVariable "y" 4 None "Integer"))].

Definition scenarioUnresolved : Response.t :=
  {| Response.ref := 7;
     Response.stack := Some stackUnresolved;
     Response.heap := None |}.

(** A render of a response in a fixed window. *)
Definition render (r : Response.t) (failed : bool) (source : string)
    : Input :=
  {| analyzeResponse := Some r; analyzeError := failed;
     sourceCode := Js.codeUnits source;
     windowHeight := 800; stackXCoordinate := 50; heapXCoordinate := 400;
     theme := "dark" |}.


(** Three stack entries, one of them neither a variable nor a pointer,
    and three blocks, one in each of the states that the id of a heap
    node tells apart. *)
Definition scenarioLayers : Response.t :=
  {| Response.ref := 10;
     Response.stack :=
       Some [SymVariable "x" 4 (Some "12") "Integer";
             SymOther;
             SymPointer "p" 8 None;
             SymVariable "c" 1 (Some "7") "Char"];
     Response.heap :=
       Some [{| Block.size := 4; Block.block_state := "Allocated";
                Block.metadata := None;
                Block.current_pointer_identifier := Some "p";
                Block.dangling_pointer_identifiers := Some [] |};
             {| Block.size := 16; Block.block_state := "Free";
                Block.metadata := None;
                Block.current_pointer_identifier := None;
                Block.dangling_pointer_identifiers := Some [] |};
             {| Block.size := 8; Block.block_state := "Unallocated";
                Block.metadata := None;
                Block.current_pointer_identifier := None;
                Block.dangling_pointer_identifiers := Some [] |}] |}.

(** Sample values for the constants of [constants.ts] and for the random
    source, used to run the engine on the scenarios. *)
Definition sampleColor (luminosity : string) (k : nat) : string :=
  "#" +:+ luminosity +:+ Js.natToString k.

(** ** Vocabulary of the layout, naming and wiring properties *)

(** The lower edge of a node on screen; [y] grows downwards. *)
Definition nodeBottom (n : Node.t) : Z := Node.positionY n + Node.height n.

(** The layout law of a layer: the first node rests on the base line
    [windowHeight - HEIGHT_OFFSET], every later node rests on the upper
    edge of the node before it, and every node is [NODE_WIDTH] wide and
    [BASE_NODE_HEIGHT] high per unit of size. *)
Definition Stacked (windowHeight : Z) (layer : list Node.t) : Prop :=
  (∀ n, layer !! 0%nat = Some n →
        nodeBottom n = windowHeight - HEIGHT_OFFSET)
  ∧ (∀ i a b, layer !! i = Some a → layer !! S i = Some b →
       nodeBottom b = Node.positionY a)
  ∧ (∀ n, n ∈ layer →
       Node.height n = Node.size n * BASE_NODE_HEIGHT
       ∧ Node.width n = NODE_WIDTH).

(** The name under which a stack entry is drawn; an entry that is
    neither a variable nor a pointer is not drawn. *)
Definition symbolName (s : Symbol) : option string :=
  match s with
  | SymVariable name _ _ _ => Some name
  | SymPointer name _ _ => Some name
  | SymOther => None
  end.

(** The entries of the analysed stack that are drawn, each as its name
    and its size, in the order of the stack. *)
Definition drawnEntries (stack : list Symbol) : list (string * Z) :=
  omap (fun s => (fun name => (name, symbolSize s)) <$> symbolName s) stack.

Definition entrySum (entries : list (string * Z)) : Z :=
  foldr (fun e acc => e.2 + acc) 0 entries.

(** The name and the size that a node shows. *)
Definition nodeEntry (n : Node.t) : string * Z := (Node.id n, Node.size n).


(** [b] is [a] up to the two fields that the heap builder writes on a
    stack node: [pointingToAddress] and [metadata]. *)
Definition relinked (a b : Node.t) : Prop :=
  ∃ pointing meta,
    b = Node.withExtraInfo
          (fun e => {| Node.address := Node.address e;
                       Node.pointingToAddress := pointing;
                       Node.pointingToLabel := Node.pointingToLabel e;
                       Node.metadata := meta;
                       Node.isFree := Node.isFree e |}) a.

(** The blocks whose visit scans the stack nodes. *)
Definition scanned (heap : list Block.t) : list Block.t :=
  filter (fun b => isUnallocated b = false) heap.

(** An intra-stack edge from the pointer node [p] to the node [t]. *)
Definition StackEdge (p t : Node.t) (e : Edge.t) : Prop :=
  ∃ stroke,
    e = createEdge ("e" +:+ Node.id p +:+ "-" +:+ Node.id t) "step"
          (Node.id p) (Node.id t) stroke.

(** An edge of the stack layer [N]: it leaves a node of type [Pointer]
    and reaches the node whose id is the target name of the pointer. *)
Definition PointerEdge (N : list Node.t) (e : Edge.t) : Prop :=
  ∃ i j p t,
    N !! i = Some p ∧ N !! j = Some t
    ∧ Node.dtype (Node.data p) = "Pointer"
    ∧ nodeLabel p = Some (Node.id t)
    ∧ StackEdge p t e.

(** The colour law of an edge of the heap layer built over the stack
    ids [ids] from draw [d] on: the edge joins the stack node in cell
    [j] to the node of the block in cell [i]; it is red when the stack
    node dangles from the block, and has otherwise the colour of the
    draw made for the pair, the draws being counted block by block over
    the blocks that are scanned. *)
Definition EdgeColour (theme : string) (ids : list string) (d : nat)
    (heap : list Block.t) (e : Edge.t) : Prop :=
  ∃ i b j sid,
    heap !! i = Some b ∧ ids !! j = Some sid
    ∧ Edge.source e = sid ∧ Edge.target e = heapNodeId i b
    ∧ Edge.stroke (Edge.style e)
      = if isDanglingPointer b sid then "red"
        else generateRandomColor theme
               (d + length (scanned (take i heap)) * length ids + j).

(** A node from which the pointer loop has nothing to resolve: it is
    not of type [Pointer], or its target name is absent or is the id of
    no node of the layer. *)
Definition Unresolved (N : list Node.t) (n : Node.t) : Prop :=
  Node.dtype (Node.data n) ≠ "Pointer"
  ∨ ∀ t, t ∈ N → nodeLabel n ≠ Some (Node.id t).

(** * Properties *)

(** ** The render loop *)

Lemma sameStackDeps_refl d : sameStackDeps d d = true.
Proof.
  unfold sameStackDeps.
  rewrite bool_decide_eq_true_2 by done.
  rewrite (proj2 (Qeq_bool_iff _ _) (Qeq_refl _)).
  by rewrite String.eqb_refl, Z.eqb_refl.
Qed.

Lemma sameHeapDeps_refl d : sameHeapDeps d d = true.
Proof.
  unfold sameHeapDeps.
  rewrite bool_decide_eq_true_2 by done.
  rewrite (proj2 (Qeq_bool_iff _ _) (Qeq_refl _)).
  by rewrite Nat.eqb_refl, String.eqb_refl, Z.eqb_refl.
Qed.

Lemma sameObject_refl o : sameObject o o = true.
Proof. destruct o; simpl; [apply Nat.eqb_refl | done]. Qed.

(** A settled state is a fixed point of [pass]. *)
Lemma pass_idle inp st : Settled inp st → pass inp st = Committed st.
Proof.
  intros (Hs & Hh & Hr & Hl).
  unfold pass, resetEffect, retainEffect, stackEffect, heapEffect.
  rewrite Hr, Hs, Hh.
  destruct (hasValidAnalyzeResponse inp); [|done].
  rewrite <- (Hl eq_refl). by destruct st.
Qed.

(** What a pass leaves behind: the retained response, dependency
    arrays that match the pass, and the same stack array unless the
    pass replaced it. *)
Lemma pass_facts inp st st' :
  pass inp st = Committed st' →
  lastValidAnalyzeResponse st' =
    (if hasValidAnalyzeResponse inp then analyzeResponse inp
     else lastValidAnalyzeResponse st)
  ∧ (∃ d, stackDeps st' = Some d
          ∧ sameStackDeps d (stackDepsOf inp st) = true)
  ∧ (∃ d, heapDeps st' = Some d
          ∧ sameHeapDeps d (heapDepsOf inp st) = true)
  ∧ (forcesRebuild inp st = false → stackDepsChanged inp st = false →
     stackNodesRef st' = stackNodesRef st).
Proof.
  unfold pass, resetEffect, retainEffect, stackEffect, heapEffect,
    resetMemory.
  intros H.
  destruct (stackDepsChanged inp st) eqn:Hsc,
    (heapDepsChanged inp st) eqn:Hhc.
  all: unfold stackDepsChanged in Hsc; unfold heapDepsChanged in Hhc.
  all: destruct (hasValidAnalyzeResponse inp) eqn:Hv,
    (forcesRebuild inp st) eqn:Hf.
  all: repeat match type of H with
    | context [useStackNodes ?a ?b ?c ?d ?e] =>
        destruct (useStackNodes a b c d e)
    | context [useHeapNodes ?a ?b ?c ?d ?e ?f] =>
        destruct (useHeapNodes a b c d e f)
    end; try discriminate H.
  all: injection H as <-; simpl.
  all: split; [done|].
  all: split; [first [ by eauto using sameStackDeps_refl
                     | destruct (stackDeps st); [|done];
                       apply negb_false_iff in Hsc; by eauto ]|].
  all: split; [first [ by eauto using sameHeapDeps_refl
                     | destruct (heapDeps st); [|done];
                       apply negb_false_iff in Hhc; by eauto ]|].
  all: done.
Qed.

(** Identities stay fresh along the passes, so the comparison made in
    [heapEffect] tells the snapshot array from one set in the same
    pass. *)
Lemma pass_fresh inp st st' :
  Fresh st → pass inp st = Committed st' → Fresh st'.
Proof.
  unfold Fresh, pass, resetEffect, retainEffect, stackEffect, heapEffect,
    resetMemory.
  intros Hfresh H.
  destruct (stackDepsChanged inp st), (heapDepsChanged inp st),
    (hasValidAnalyzeResponse inp), (forcesRebuild inp st).
  all: repeat match type of H with
    | context [useStackNodes ?a ?b ?c ?d ?e] =>
        destruct (useStackNodes a b c d e)
    | context [useHeapNodes ?a ?b ?c ?d ?e ?f] =>
        destruct (useHeapNodes a b c d e f)
    end; try discriminate H.
  all: injection H as <-; simpl; lia.
Qed.

Lemma mount_fresh : Fresh mount.
Proof. unfold Fresh, mount. simpl. lia. Qed.

Lemma current_after_pass inp st st' :
  pass inp st = Committed st' →
  currentAnalyzeResponse inp st' = currentAnalyzeResponse inp st.
Proof.
  intros (Hl & _)%pass_facts.
  unfold currentAnalyzeResponse, shouldShowLastValidVisualization.
  destruct (hasValidAnalyzeResponse inp); [|by rewrite Hl].
  by rewrite !andb_false_r.
Qed.

Lemma forcesRebuild_after_pass inp st st' :
  pass inp st = Committed st' → forcesRebuild inp st' = false.
Proof.
  intros (Hl & _)%pass_facts. unfold forcesRebuild.
  destruct (hasValidAnalyzeResponse inp); [|done].
  by rewrite Hl, sameObject_refl.
Qed.

(** Two passes settle any state on the input they were run with. *)
Lemma recompute_settled inp st st2 :
  recompute inp st = Committed st2 → Settled inp st2.
Proof.
  unfold recompute.
  destruct (pass inp st) as [st1|] eqn:H1; [|done]. intros H2.
  pose proof (current_after_pass _ _ _ H1) as Hc1.
  pose proof (current_after_pass _ _ _ H2) as Hc2.
  pose proof (forcesRebuild_after_pass _ _ _ H1) as Hf1.
  pose proof (forcesRebuild_after_pass _ _ _ H2) as Hf2.
  destruct (pass_facts _ _ _ H1) as (Hl1 & (ds1 & Hds1 & Hsame1) & _ & _).
  destruct (pass_facts _ _ _ H2)
    as (Hl2 & (ds2 & Hds2 & Hsame2) & (dh2 & Hdh2 & Hsameh2) & Href).
  assert (stackDepsChanged inp st1 = false) as Hsc1.
  { unfold stackDepsChanged. rewrite Hds1.
    unfold stackDepsOf. rewrite Hc1. fold (stackDepsOf inp st).
    by rewrite Hsame1. }
  specialize (Href Hf1 Hsc1).
  repeat split.
  - unfold stackDepsChanged. rewrite Hds2.
    unfold stackDepsOf. rewrite Hc2. fold (stackDepsOf inp st1).
    by rewrite Hsame2.
  - unfold heapDepsChanged. rewrite Hdh2.
    unfold heapDepsOf. rewrite Hc2, Href. fold (heapDepsOf inp st1).
    by rewrite Hsameh2.
  - done.
  - intros Hv. by rewrite Hl2, Hv.
Qed.

Lemma pass_settled inp st st1 st2 :
  pass inp st = Committed st1 → pass inp st1 = Committed st2 →
  pass inp st2 = Committed st2.
Proof.
  intros H1 H2. apply pass_idle, (recompute_settled inp st).
  unfold recompute. by rewrite H1.
Qed.

(** A state settled on a valid response stays settled when the response
    turns invalid, as long as the trimmed source is not empty and the
    view is the same: the current response is still the retained one. *)
Lemma settled_on_last_valid inp1 inp2 st :
  Settled inp1 st →
  hasValidAnalyzeResponse inp1 = true →
  hasValidAnalyzeResponse inp2 = false →
  Js.truthyText (Js.trim (sourceCode inp2)) = true →
  sameView inp1 inp2 →
  Settled inp2 st.
Proof.
  intros (Hs & Hh & Hr & Hl) Hv1 Hv2 Hsrc (Hwh & Hsx & Hhx & Hth).
  specialize (Hl Hv1).
  assert (currentAnalyzeResponse inp2 st = currentAnalyzeResponse inp1 st)
    as Hcur.
  { unfold currentAnalyzeResponse, shouldShowLastValidVisualization.
    rewrite Hv1, Hv2, Hsrc, Hl. simpl.
    unfold hasValidAnalyzeResponse in Hv1.
    destruct (analyzeResponse inp1); [|done].
    rewrite bool_decide_eq_true_2; eauto. by rewrite andb_false_r. }
  repeat split.
  - unfold stackDepsChanged, stackDepsOf in *.
    by rewrite Hcur, <- Hwh, <- Hsx, <- Hth.
  - unfold heapDepsChanged, heapDepsOf in *.
    by rewrite Hcur, <- Hwh, <- Hhx, <- Hth.
  - unfold forcesRebuild. by rewrite Hv2.
  - by rewrite Hv2.
Qed.


Lemma recompute_idle inp st : Settled inp st → recompute inp st = Committed st.
Proof.
  intros H. unfold recompute. by rewrite !(pass_idle _ _ H).
Qed.

Lemma emittedGraph_view inp inp' st :
  sameView inp inp' → emittedGraph inp' st = emittedGraph inp st.
Proof.
  intros (_ & Hsx & Hhx & _).
  unfold emittedGraph, labelNodes. by rewrite Hsx, Hhx.
Qed.

(** C1 (as amended): once a valid result has been rendered and
    retained, a recomputation that receives an erroring or empty result
    while the trimmed source text is non-empty changes nothing: the
    state, and with it every node and edge of the emitted graph, is the
    one obtained for the valid result. *)
Theorem freeze_on_error inp1 inp2 st0 st1 :
  hasValidAnalyzeResponse inp1 = true →
  recompute inp1 st0 = Committed st1 →
  hasValidAnalyzeResponse inp2 = false →
  Js.truthyText (Js.trim (sourceCode inp2)) = true →
  sameView inp1 inp2 →
  lastValidAnalyzeResponse st1 = analyzeResponse inp1
  ∧ recompute inp2 st1 = Committed st1
  ∧ emittedGraph inp2 st1 = emittedGraph inp1 st1.
Proof.
  intros Hv1 Hrun Hv2 Hsrc Hview.
  pose proof (recompute_settled _ _ _ Hrun) as Hset.
  split; [by apply Hset|].
  split; [|by apply emittedGraph_view].
  by apply recompute_idle, (settled_on_last_valid inp1).
Qed.


(** ** Robustness of the effects *)

Lemma useStackNodes_never_throws resp wh x th d :
  useStackNodes resp wh x th d ≠ Threw.
Proof. unfold useStackNodes. by repeat case_match. Qed.

(** The heap effect throws exactly on a response that has a [heap]
    field and no [stack] field. *)
Lemma useHeapNodes_throws resp sn wh x th d :
  useHeapNodes resp sn wh x th d = Threw ↔
  ∃ r heap, resp = Some r ∧ Response.heap r = Some heap
            ∧ Response.stack r = None.
Proof.
  unfold useHeapNodes. split.
  - repeat case_match; try done. eauto.
  - intros (r & heap & -> & -> & ->). done.
Qed.

(** A pass crashes only in the heap effect, on a current response that
    has a [heap] field and no [stack] field. *)
Lemma pass_crashes_only_without_stack inp st :
  pass inp st = Crashed →
  ∃ r heap, currentAnalyzeResponse inp st = Some r
            ∧ Response.heap r = Some heap ∧ Response.stack r = None.
Proof.
  unfold pass, stackEffect, heapEffect.
  destruct (stackDepsChanged inp st).
  - destruct (useStackNodes _ _ _ _ _) eqn:Hs;
      try (by apply useStackNodes_never_throws in Hs);
      destruct (heapDepsChanged inp st); try done;
      destruct (useHeapNodes _ _ _ _ _ _) eqn:Hh; try done;
      intros _; by apply useHeapNodes_throws in Hh.
  - destruct (heapDepsChanged inp st); try done.
    destruct (useHeapNodes _ _ _ _ _ _) eqn:Hh; try done.
    intros _. by apply useHeapNodes_throws in Hh.
Qed.

(** C8 (the code at the failing input): at mount, a response that
    carries a [heap] field and no [stack] field makes the pass throw in
    the heap effect. *)
Theorem missing_stack_crashes inp r heap :
  analyzeResponse inp = Some r →
  Response.stack r = None →
  Response.heap r = Some heap →
  pass inp mount = Crashed.
Proof.
  intros Hr Hs Hh.
  unfold pass, resetEffect, retainEffect, stackEffect, heapEffect.
  assert (currentAnalyzeResponse inp mount = Some r) as Hcur.
  { unfold currentAnalyzeResponse, shouldShowLastValidVisualization.
    simpl. by rewrite andb_false_r. }
  rewrite Hcur. simpl. unfold useStackNodes, useHeapNodes.
  rewrite Hs, Hh. by repeat case_match.
Qed.

(** ** Rendering of addresses *)

Lemma append_cons c (s t : string) : String c s +:+ t = String c (s +:+ t).
Proof. reflexivity. Qed.

Lemma append_nil (t : string) : "" +:+ t = t.
Proof. reflexivity. Qed.

Lemma append_assoc (s t u : string) : (s +:+ t) +:+ u = s +:+ (t +:+ u).
Proof.
  induction s as [|c s IH]; [done|]. by rewrite !append_cons, IH.
Qed.

Lemma hexDigits_acc fuel : ∀ n acc,
  Js.hexDigits fuel n acc = Js.hexDigits fuel n "" +:+ acc.
Proof.
  induction fuel as [|fuel IH]; intros n acc; simpl; [done|].
  destruct (n / 16 =? 0); [done|].
  rewrite IH, (IH _ (String _ "")).
  by rewrite append_assoc.
Qed.

Lemma toUpperCase_app s t :
  Js.toUpperCase (s +:+ t) = Js.toUpperCase s +:+ Js.toUpperCase t.
Proof.
  induction s as [|c s IH]; [done|].
  rewrite append_cons. simpl. by rewrite IH.
Qed.

Lemma hexValueFrom_app s t acc :
  hexValueFrom acc (s +:+ t) = hexValueFrom (hexValueFrom acc s) t.
Proof.
  revert acc. induction s as [|c s IH]; intros acc; [done|].
  rewrite append_cons. simpl. apply IH.
Qed.

Lemma allChars_app p s t :
  allChars p (s +:+ t) = (allChars p s && allChars p t)%bool.
Proof.
  induction s as [|c s IH]; [done|].
  rewrite append_cons. simpl. by rewrite IH, andb_assoc.
Qed.

Lemma hexDigit_upper d :
  0 ≤ d < 16 →
  isUpperHexDigit (Js.upperChar (Js.hexDigit d)) = true
  ∧ hexDigitValue (Js.upperChar (Js.hexDigit d)) = d.
Proof.
  intros Hd.
  assert (d = 0 ∨ d = 1 ∨ d = 2 ∨ d = 3 ∨ d = 4 ∨ d = 5 ∨ d = 6 ∨ d = 7
          ∨ d = 8 ∨ d = 9 ∨ d = 10 ∨ d = 11 ∨ d = 12 ∨ d = 13 ∨ d = 14
          ∨ d = 15) as Hcases by lia.
  repeat (destruct Hcases as [->|Hcases]; [by vm_compute|]).
  subst. by vm_compute.
Qed.

Lemma hexDigits_spec fuel : ∀ n,
  0 ≤ n < 2 ^ Z.of_nat fuel →
  let ds := Js.toUpperCase (Js.hexDigits fuel n "") in
  allChars isUpperHexDigit ds = true ∧ hexValueFrom 0 ds = n
  ∧ (fuel ≠ 0%nat → Js.truthy ds = true).
Proof.
  induction fuel as [|fuel IH]; intros n Hn; simpl.
  { split; [done|]. split; [|done]. simpl in Hn. lia. }
  assert (0 ≤ n `mod` 16 < 16) as Hd by (apply Z.mod_pos_bound; lia).
  destruct (hexDigit_upper _ Hd) as [Hup Hval].
  destruct (n / 16 =? 0) eqn:Hq.
  - apply Z.eqb_eq in Hq. simpl. rewrite Hup, Hval. simpl.
    split; [done|]. split; [|done].
    pose proof (Z.div_mod n 16). lia.
  - apply Z.eqb_neq in Hq.
    rewrite hexDigits_acc, toUpperCase_app, allChars_app, hexValueFrom_app.
    assert (0 ≤ n / 16 < 2 ^ Z.of_nat fuel) as Hn'.
    { split; [apply Z.div_pos; lia|].
      apply Z.div_lt_upper_bound; [lia|].
      rewrite Nat2Z.inj_succ, Z.pow_succ_r in Hn by lia. lia. }
    destruct (IH _ Hn') as (Hall & Hv & _).
    simpl. rewrite Hall, Hv, Hup, Hval. simpl.
    split; [done|]. split; [pose proof (Z.div_mod n 16); lia|].
    intros _. by destruct (Js.toUpperCase (Js.hexDigits fuel (n / 16) "")).
Qed.

Lemma addressValue_formatAddress a :
  0 ≤ a → addressValue (formatAddress a) = Some a.
Proof.
  intros Ha. unfold formatAddress, Js.toString16.
  destruct (a <? 0) eqn:Hneg; [apply Z.ltb_lt in Hneg; lia|].
  assert (0 ≤ a < 2 ^ Z.of_nat (S (Z.to_nat (Z.log2 a)))) as Hb.
  { split; [done|].
    rewrite Nat2Z.inj_succ, Z2Nat.id by apply Z.log2_nonneg.
    destruct (decide (a = 0)) as [->|]; [done|].
    apply Z.log2_spec. lia. }
  destruct (hexDigits_spec _ _ Hb) as (Hall & Hv & Hne).
  cbv zeta in *. rewrite !append_cons, append_nil.
  unfold addressValue. by rewrite Hne, Hall, Hv.
Qed.

(** ** Nodes up to the fields written after construction *)

Lemma frozen_fields a b :
  frozen a = frozen b →
  Node.id a = Node.id b ∧ Node.size a = Node.size b
  ∧ nodeAddress a = nodeAddress b
  ∧ Node.dtype (Node.data a) = Node.dtype (Node.data b)
  ∧ Node.pointingToLabel (Node.extraInfo (Node.data a))
    = Node.pointingToLabel (Node.extraInfo (Node.data b))
  ∧ Node.positionY a = Node.positionY b.
Proof.
  unfold frozen, nodeAddress, Node.setValue, Node.withExtraInfo. simpl.
  intros H. injection H. intros. repeat split; assumption.
Qed.

Lemma frozen_lookup (l' l : list Node.t) i n' :
  frozen <$> l' = frozen <$> l → l' !! i = Some n' →
  ∃ n, l !! i = Some n ∧ frozen n' = frozen n.
Proof.
  intros Hfz Hi.
  assert ((frozen <$> l) !! i = Some (frozen n')) as H.
  { by rewrite <- Hfz, list_lookup_fmap, Hi. }
  rewrite list_lookup_fmap in H.
  destruct (l !! i) as [n|]; [|done]. exists n. split; [done|].
  simpl in H. congruence.
Qed.

Lemma alter_frozen (f : Node.t → Node.t) i (l : list Node.t) :
  (∀ n, frozen (f n) = frozen n) →
  frozen <$> alter f i l = frozen <$> l.
Proof.
  intros Hf. apply list_eq. intros k.
  rewrite !list_lookup_fmap, list_lookup_alter.
  case_decide; [subst|done].
  destruct (l !! k); simpl; [by rewrite Hf|done].
Qed.

(** ** Address synthesis *)

Lemma sizeSum_snoc l n : sizeSum (l ++ [n]) = sizeSum l + Node.size n.
Proof.
  unfold sizeSum. induction l as [|m l IH]; simpl; [lia|].
  rewrite IH. lia.
Qed.

Lemma sizeSum_nonneg l :
  Forall (fun n => 0 ≤ Node.size n) l → 0 ≤ sizeSum l.
Proof.
  unfold sizeSum. induction 1; simpl; lia.
Qed.

Lemma ClosedForm_snoc base layer n :
  ClosedForm base layer →
  nodeAddress n = formatAddress (base + sizeSum layer) →
  ClosedForm base (layer ++ [n]).
Proof.
  intros Hcf Hn i m Hi.
  destruct (decide (i < length layer)%nat) as [Hlt|Hge].
  - rewrite lookup_app_l in Hi by done.
    rewrite take_app_le by lia. by apply Hcf.
  - rewrite lookup_app_r in Hi by lia.
    apply list_lookup_singleton_Some in Hi as [Hi <-].
    rewrite take_app_ge by lia.
    replace (i - length layer)%nat with 0%nat by lia.
    by rewrite take_0, app_nil_r.
Qed.

Lemma ClosedForm_law base layer :
  0 ≤ base →
  Forall (fun n => 0 ≤ Node.size n) layer →
  ClosedForm base layer → AddressLaw base layer.
Proof.
  intros Hbase Hsizes Hcf.
  assert (∀ i, 0 ≤ base + sizeSum (take i layer)) as Hpos.
  { intros i.
    pose proof (sizeSum_nonneg (take i layer) (Forall_take _ _ _ Hsizes)).
    lia. }
  repeat split.
  - intros n H0. rewrite (Hcf _ _ H0), take_0.
    rewrite addressValue_formatAddress by (simpl; lia).
    f_equal. simpl. lia.
  - intros i a b Ha Hb. exists (base + sizeSum (take i layer)).
    rewrite (Hcf _ _ Ha), (Hcf _ _ Hb).
    rewrite !addressValue_formatAddress by done.
    split; [done|]. f_equal.
    rewrite (take_S_r _ _ _ Ha), sizeSum_snoc. lia.
  - intros n (i & Hi)%list_elem_of_lookup.
    rewrite (Hcf _ _ Hi), addressValue_formatAddress by done. eauto.
Qed.

Lemma AddressLaw_frozen base (l l' : list Node.t) :
  frozen <$> l' = frozen <$> l → AddressLaw base l → AddressLaw base l'.
Proof.
  intros Hfz (H0 & Hstep & Hall). repeat split.
  - intros n' Hn'.
    destruct (frozen_lookup _ _ _ _ Hfz Hn') as (n & Hn & Heq).
    apply frozen_fields in Heq as (_ & _ & -> & _). eauto.
  - intros i a' b' Ha' Hb'.
    destruct (frozen_lookup _ _ _ _ Hfz Ha') as (a & Ha & Heqa).
    destruct (frozen_lookup _ _ _ _ Hfz Hb') as (b & Hb & Heqb).
    apply frozen_fields in Heqa as (_ & -> & -> & _).
    apply frozen_fields in Heqb as (_ & _ & -> & _). eauto.
  - intros n' (i & Hi)%list_elem_of_lookup.
    destruct (frozen_lookup _ _ _ _ Hfz Hi) as (n & Hn & Heq).
    apply frozen_fields in Heq as (_ & _ & -> & _).
    apply Hall, list_elem_of_lookup. eauto.
Qed.

Lemma stackSymbol_closed wh x acc addr symbol :
  0 ≤ symbolSize symbol →
  addr = STACK_BASE + sizeSum acc →
  ClosedForm STACK_BASE acc →
  Forall (fun n => 0 ≤ Node.size n) acc →
  let r := stackSymbol wh x (acc, addr) symbol in
  r.2 = STACK_BASE + sizeSum r.1
  ∧ ClosedForm STACK_BASE r.1
  ∧ Forall (fun n => 0 ≤ Node.size n) r.1.
Proof.
  intros Hsz -> Hcf Hall.
  destruct symbol as [name size value vtype|name size value|]; simpl.
  - rewrite sizeSum_snoc. simpl in *. split; [lia|]. split.
    + by apply ClosedForm_snoc.
    + apply Forall_app. split; [done|]. by apply Forall_singleton.
  - rewrite sizeSum_snoc. simpl in *. split; [lia|]. split.
    + by apply ClosedForm_snoc.
    + apply Forall_app. split; [done|]. by apply Forall_singleton.
  - done.
Qed.

Lemma buildStackNodes_closed wh x stack :
  Forall (fun s => 0 ≤ symbolSize s) stack →
  ClosedForm STACK_BASE (buildStackNodes wh x stack)
  ∧ Forall (fun n => 0 ≤ Node.size n) (buildStackNodes wh x stack).
Proof.
  unfold buildStackNodes. intros Hstack.
  cut (∀ acc addr,
         addr = STACK_BASE + sizeSum acc →
         ClosedForm STACK_BASE acc →
         Forall (fun n => 0 ≤ Node.size n) acc →
         let r := fold_left (stackSymbol wh x) stack (acc, addr) in
         ClosedForm STACK_BASE r.1
         ∧ Forall (fun n => 0 ≤ Node.size n) r.1).
  { intros H. apply H; [done| |done]. by intros i n Hi. }
  induction Hstack as [|symbol stack Hsz _ IH]; intros acc addr Ha Hcf Hall.
  - done.
  - pose proof (stackSymbol_closed wh x acc addr symbol Hsz Ha Hcf Hall)
      as (Ha' & Hcf' & Hall').
    change (fold_left (stackSymbol wh x) (symbol :: stack) (acc, addr))
      with (fold_left (stackSymbol wh x) stack
              (stackSymbol wh x (acc, addr) symbol)).
    destruct (stackSymbol wh x (acc, addr) symbol) as [acc' addr'].
    by apply IH.
Qed.

(** ** Decimal strings and heap node ids *)

Lemma string_of_uint_digits d :
  allChars isDigit (NilEmpty.string_of_uint d) = true.
Proof. induction d; simpl; done. Qed.

Lemma natToString_digits n : allChars isDigit (Js.natToString n) = true.
Proof. apply string_of_uint_digits. Qed.

Lemma natToString_inj n m : Js.natToString n = Js.natToString m → n = m.
Proof.
  unfold Js.natToString. intros H.
  apply Unsigned.to_uint_inj.
  assert (Some (Nat.to_uint n) = Some (Nat.to_uint m)) as Heq.
  { by rewrite <- !NilEmpty.usu, H. }
  congruence.
Qed.

Lemma includes_absent_head s c sub :
  allChars (fun x => negb (Ascii.eqb x c)) s = true →
  Js.includes s (String c sub) = false.
Proof.
  induction s as [|x s IH]; simpl; [done|].
  intros [Hx Hs]%andb_true_iff.
  destruct (ascii_dec c x) as [->|_].
  - by rewrite Ascii.eqb_refl in Hx.
  - by apply IH.
Qed.

Lemma allChars_impl (p q : ascii → bool) s :
  (∀ c, p c = true → q c = true) →
  allChars p s = true → allChars q s = true.
Proof.
  intros Hpq. induction s as [|c s IH]; simpl; [done|].
  intros [Hc Hs]%andb_true_iff. by rewrite (Hpq _ Hc), IH.
Qed.

Lemma digit_not_u c : isDigit c = true → negb (Ascii.eqb c "u") = true.
Proof.
  intros H. destruct (Ascii.eqb_spec c "u") as [->|]; [|done].
  by vm_compute in H.
Qed.

Lemma generateNodeId_includes k u f :
  Js.includes (generateNodeId k u f) "unallocated" = u.
Proof.
  unfold generateNodeId. destruct u; [done|].
  apply includes_absent_head.
  destruct f.
  - rewrite !append_cons, append_nil. simpl.
    eapply allChars_impl; [apply digit_not_u|apply natToString_digits].
  - eapply allChars_impl; [apply digit_not_u|apply natToString_digits].
Qed.

Lemma generateNodeId_inj k u f k' u' f' :
  generateNodeId k u f = generateNodeId k' u' f' → k = k'.
Proof.
  unfold generateNodeId. intros H.
  pose proof (natToString_digits k) as Hk.
  pose proof (natToString_digits k') as Hk'.
  destruct u, u'; [| | |destruct f, f'].
  - by apply String.app_inj, natToString_inj in H.
  - destruct f'.
    + rewrite !append_cons in H. discriminate H.
    + rewrite <- H, !append_cons in Hk'. discriminate Hk'.
  - destruct f.
    + rewrite !append_cons in H. discriminate H.
    + rewrite H, !append_cons in Hk. discriminate Hk.
  - by apply String.app_inj, natToString_inj in H.
  - rewrite <- H, !append_cons in Hk'. discriminate Hk'.
  - rewrite H, !append_cons in Hk. discriminate Hk.
  - by apply natToString_inj.
Qed.

(** ** The heap builder *)

Lemma touch_id block a s : Node.id (touch block a s) = Node.id s.
Proof. unfold touch. by repeat case_match. Qed.

Lemma connectStackNode_step th block hid st j s :
  cStack st !! j = Some s →
  let a := nodeAddress (cHeapNode st) in
  let c := connectStackNode th block hid st j in
  cStack c = alter (touch block a) j (cStack st)
  ∧ frozen (cHeapNode c) = frozen (cHeapNode st)
  ∧ cDraws c = S (cDraws st)
  ∧ (named block (Node.id s) = false →
     cEdges c = cEdges st ∧ cHeapNode c = cHeapNode st)
  ∧ (named block (Node.id s) = true →
     Node.targetPosition (cHeapNode c) = Some Left
     ∧ ∃ e, cEdges c = cEdges st ++ [e]
            ∧ EdgeFor block hid e (Node.id s)).
Proof.
  intros Hj a c. subst c. unfold connectStackNode. rewrite Hj.
  fold (isCurrentPointer block (Node.id s)).
  fold (isDanglingPointer block (Node.id s)).
  fold (named block (Node.id s)). fold a.
  destruct (named block (Node.id s)) eqn:Hnamed; simpl.
  - split.
    { destruct (isDanglingPointer block (Node.id s)) eqn:Hd.
      - rewrite list_alter_alter_eq. apply list_alter_ext; [|done].
        intros x Hx. assert (x = s) as -> by congruence.
        unfold touch. by rewrite Hnamed, Hd.
      - apply list_alter_ext; [|done].
        intros x Hx. assert (x = s) as -> by congruence.
        unfold touch. by rewrite Hnamed, Hd. }
    split; [done|]. split; [done|]. split; [done|].
    intros _. split; [done|]. eexists. split; [done|].
    eexists. split; [done|]. by intros ->.
  - split.
    { symmetry. rewrite <- (list_alter_id (fun x => x) (cStack st) j) at 2
        by done.
      apply list_alter_ext; [|done].
      intros x Hx. assert (x = s) as -> by congruence.
      unfold touch. by rewrite Hnamed. }
    split; [done|]. split; [done|]. split; [done|]. done.
Qed.

(** The visit of one block, after its first [n] stack nodes: these
    nodes have been touched, and one edge has been queued for each of
    them that the block names. *)
Lemma connect_fold th block hid start n :
  (n ≤ length (cStack start))%nat →
  let a := nodeAddress (cHeapNode start) in
  let c := fold_left (connectStackNode th block hid) (seq 0 n) start in
  cStack c
    = (touch block a <$> take n (cStack start)) ++ drop n (cStack start)
  ∧ frozen (cHeapNode c) = frozen (cHeapNode start)
  ∧ cDraws c = (cDraws start + n)%nat
  ∧ ∃ new, cEdges c = cEdges start ++ new
           ∧ Forall2 (EdgeFor block hid) new
               (filter (fun sid => named block sid = true)
                  (Node.id <$> take n (cStack start))).
Proof.
  intros Hn a. induction n as [|n IH].
  { simpl. rewrite drop_0. split; [done|]. split; [done|].
    split; [lia|]. exists []. by rewrite app_nil_r. }
  rewrite seq_S, fold_left_app. simpl.
  destruct IH as (Hstack & Hheap & Hdraws & new & Hedges & Hnew); [lia|].
  set (c := fold_left (connectStackNode th block hid) (seq 0 n) start) in *.
  destruct (lookup_lt_is_Some_2 (cStack start) n) as [s Hs]; [lia|].
  assert (length (touch block a <$> take n (cStack start)) = n) as Hlen.
  { rewrite length_fmap, length_take. lia. }
  assert (cStack c !! n = Some s) as Hcs.
  { rewrite Hstack, lookup_app_r by lia.
    rewrite Hlen, Nat.sub_diag, lookup_drop. by rewrite Nat.add_0_r. }
  destruct (connectStackNode_step th block hid c n s Hcs)
    as (Hstack' & Hheap' & Hdraws' & Hno & Hyes).
  assert (nodeAddress (cHeapNode c) = a) as Ha.
  { by apply frozen_fields in Hheap as (_ & _ & -> & _). }
  rewrite Ha in Hstack'.
  split.
  { rewrite Hstack', Hstack, alter_app_r_alt by lia.
    rewrite Hlen, Nat.sub_diag, (drop_S _ _ _ Hs). simpl.
    rewrite (take_S_r _ _ _ Hs), fmap_app. simpl.
    by rewrite <- app_assoc. }
  split; [congruence|]. split; [lia|].
  rewrite (take_S_r _ _ _ Hs), fmap_app, list.filter_app. simpl.
  destruct (named block (Node.id s)) eqn:Hnamed.
  - destruct (Hyes eq_refl) as (_ & e & He & Hfor).
    exists (new ++ [e]). split.
    + rewrite He, Hedges. by rewrite app_assoc.
    + apply Forall2_app; [done|].
      rewrite filter_cons_True by done. by constructor.
  - destruct (Hno eq_refl) as (He & _).
    exists new. split; [congruence|].
    rewrite filter_cons_False by (by rewrite Hnamed).
    by rewrite filter_nil, app_nil_r.
Qed.

(** The visit of one block. *)
Lemma heapBlock_step th wh hx st block :
  let st' := heapBlock th wh hx st block in
  index st' = S (index st)
  ∧ address st' = address st + Block.size block
  ∧ hStack st' = visit block (address st) (hStack st)
  ∧ (∃ hn, heapNodesInner st' = heapNodesInner st ++ [hn]
           ∧ Node.id hn = heapNodeId (index st) block
           ∧ nodeAddress hn = formatAddress (address st)
           ∧ Node.size hn = Block.size block)
  ∧ (∃ new, connectionsInner st' = connectionsInner st ++ new
            ∧ Forall2 (EdgeFor block (heapNodeId (index st) block)) new
                (namedBy block (Node.id <$> hStack st))).
Proof.
  unfold heapBlock, visit, namedBy, heapNodeId, isUnallocated.
  set (hid := generateNodeId _ _ _).
  set (heapNode := Node.Build_t _ _ _ _ _ _ _ _ _ _).
  set (start := Build_Connect _ _ _ _).
  pose proof (generateNodeId_includes (index st)
                (String.eqb (Block.block_state block) "Unallocated")
                (String.eqb (Block.block_state block) "Free")) as Hinc.
  fold hid in Hinc. rewrite Hinc. clear Hinc.
  destruct (String.eqb (Block.block_state block) "Unallocated"); simpl.
  { split; [done|]. split; [done|]. split; [done|].
    split; [by exists heapNode|]. exists []. by rewrite app_nil_r. }
  destruct (connect_fold th block hid start (length (hStack st)))
    as (Hstack & Hheap & _ & new & Hedges & Hnew); [done|].
  simpl in Hstack, Hheap, Hedges, Hnew.
  rewrite take_ge, drop_ge, app_nil_r in Hstack by done.
  rewrite take_ge in Hnew by done.
  split; [done|]. split; [done|]. split; [done|].
  apply frozen_fields in Hheap as (Hid & Hsz & Haddr & _).
  split; [|by exists new].
  eexists. split; [done|]. by rewrite Hid, Hsz, Haddr.
Qed.

Lemma visit_ids block a stack :
  Node.id <$> visit block a stack = Node.id <$> stack.
Proof.
  unfold visit. destruct (isUnallocated block); [done|].
  rewrite <- list_fmap_compose. apply list_fmap_ext. intros _ s _. simpl.
  apply touch_id.
Qed.

(** The loop over the blocks: the stack nodes it leaves, the heap nodes
    it appends and the edges it queues. *)
Lemma heap_loop th wh hx heap : ∀ st,
  let st' := fold_left (heapBlock th wh hx) heap st in
  hStack st' = visits (address st) heap (hStack st)
  ∧ (∃ new, heapNodesInner st' = heapNodesInner st ++ new
            ∧ Forall2 NodeAt new (placed (index st) (address st) heap))
  ∧ (∃ new, connectionsInner st' = connectionsInner st ++ new
            ∧ Forall2 EdgeAt new
                (expected (Node.id <$> hStack st) (index st) heap)).
Proof.
  induction heap as [|block heap IH]; intros st.
  { simpl. split; [done|].
    split; exists []; by rewrite app_nil_r. }
  change (fold_left (heapBlock th wh hx) (block :: heap) st)
    with (fold_left (heapBlock th wh hx) heap (heapBlock th wh hx st block)).
  destruct (heapBlock_step th wh hx st block)
    as (Hi & Ha & Hs & (hn & Hn & Hid & Hadr & Hsz) & (es & He & Hes)).
  destruct (IH (heapBlock th wh hx st block))
    as (Hs' & (ns' & Hn' & Hns') & (es' & He' & Hes')).
  cbv zeta. rewrite Hi, Ha, Hs in *. rewrite visit_ids in Hes'.
  split; [exact Hs'|]. split.
  - exists (hn :: ns'). rewrite Hn', Hn, <- app_assoc. split; [done|].
    simpl. by constructor.
  - exists (es ++ es'). rewrite He', He, <- app_assoc. split; [done|].
    simpl. apply Forall2_app; [|done].
    apply Forall2_fmap_r. eapply Forall2_impl; [|exact Hes]. done.
Qed.

(** *** The expected heap nodes and edges *)

Lemma placed_lookup heap : ∀ k0 a0 k b,
  heap !! k = Some b →
  placed k0 a0 heap !! k
  = Some ((k0 + k)%nat, a0 + blockSum (take k heap), b).
Proof.
  induction heap as [|b0 heap IH]; intros k0 a0 k b Hk; [done|].
  destruct k as [|k]; simpl in *.
  - injection Hk as ->. unfold blockSum. simpl.
    by rewrite Nat.add_0_r, Z.add_0_r.
  - rewrite (IH _ _ _ _ Hk). unfold blockSum. simpl.
    by rewrite Nat.add_succ_r, Z.add_assoc.
Qed.

Lemma expected_elem ids heap : ∀ k0 slot,
  slot ∈ expected ids k0 heap ↔
  ∃ i b sid, heap !! i = Some b ∧ isUnallocated b = false
             ∧ sid ∈ ids ∧ named b sid = true
             ∧ slot = (b, heapNodeId (k0 + i) b, sid).
Proof.
  induction heap as [|b0 heap IH]; intros k0 slot; simpl.
  { split; [by intros ?%elem_of_nil|]. by intros (? & ? & ? & ? & _). }
  rewrite elem_of_app, list_elem_of_fmap, IH. unfold namedBy. split.
  - intros [(sid & -> & Hsid)|(i & b & sid & Hi & Hu & Hsid & Hn & ->)].
    + destruct (isUnallocated b0) eqn:Hu; [by apply elem_of_nil in Hsid|].
      apply list_elem_of_filter in Hsid as [Hn Hsid].
      exists 0%nat, b0, sid. by rewrite Nat.add_0_r.
    + exists (S i), b, sid. repeat split; try done.
      by rewrite Nat.add_succ_r.
  - intros (i & b & sid & Hi & Hu & Hsid & Hn & ->).
    destruct i as [|i]; simpl in Hi.
    + injection Hi as ->. left. exists sid. rewrite Nat.add_0_r.
      split; [done|]. rewrite Hu. by apply list_elem_of_filter.
    + right. exists i, b, sid. repeat split; try done.
      by rewrite Nat.add_succ_r.
Qed.

(** With distinct ids, a named stack id fills exactly one slot of the
    block that names it. *)
Lemma filter_none {A} (P : A → Prop) `{∀ x, Decision (P x)} (l : list A) :
  (∀ x, x ∈ l → ¬ P x) → filter P l = [].
Proof.
  intros Hl. destruct (filter P l) as [|z k] eqn:Hf; [done|].
  assert (z ∈ filter P l) as Hz by (rewrite Hf; left).
  apply list_elem_of_filter in Hz as [Hp Hz]. by destruct (Hl z Hz).
Qed.

Lemma filter_unique {A} (P : A → Prop) `{∀ x, Decision (P x)}
    (l : list A) x :
  NoDup l → x ∈ l → P x → (∀ y, y ∈ l → P y → y = x) →
  filter P l = [x].
Proof.
  induction 1 as [|y l Hy Hnd IH]; [by intros ?%elem_of_nil|].
  intros [->|Hx]%elem_of_cons Hp Huniq.
  - rewrite filter_cons_True by done. f_equal.
    apply filter_none. intros z Hz Hpz.
    apply Hy. rewrite <- (Huniq z); [done|by right|done].
  - rewrite filter_cons_False.
    + apply IH; [done|done|]. intros z Hz. apply Huniq. by right.
    + intros Hpy. apply Hy. rewrite (Huniq y); [done|by left|done].
Qed.

Lemma filter_fmap {A B} (f : A → B) (P : B → Prop)
    `{∀ y, Decision (P y)} (l : list A) :
  filter P (f <$> l) = f <$> filter (fun x => P (f x)) l.
Proof.
  induction l as [|a l IH]; [done|].
  rewrite fmap_cons, !filter_cons, IH. by destruct (decide (P (f a))).
Qed.

(** With distinct stack ids, exactly one of the expected edges joins a
    named stack id to the node of the block that names it. *)
Lemma expected_once ids heap sid : ∀ k0 k b,
  NoDup ids → heap !! k = Some b → isUnallocated b = false →
  sid ∈ ids → named b sid = true →
  filter (fun slot : Slot =>
            slot.2 = sid ∧ slot.1.2 = heapNodeId (k0 + k) b)
    (expected ids k0 heap)
  = [(b, heapNodeId (k0 + k) b, sid)].
Proof.
  intros k0 k b Hnd. revert k0 k.
  induction heap as [|b0 heap IH]; intros k0 k Hk Hu Hsid Hn; [done|].
  simpl. rewrite list.filter_app.
  destruct k as [|k]; simpl in Hk.
  - injection Hk as ->. rewrite Nat.add_0_r.
    rewrite (filter_none _ (expected _ _ _)).
    2:{ intros slot (i & b' & sid' & _ & _ & _ & _ & ->)%expected_elem.
        simpl. intros [_ Heq]. apply generateNodeId_inj in Heq. lia. }
    rewrite app_nil_r. unfold namedBy. rewrite Hu.
    rewrite filter_fmap.
    erewrite filter_unique; [done| | | |].
    + by apply list.NoDup_filter.
    + by apply list_elem_of_filter.
    + done.
    + by intros y _ [Hy _].
  - rewrite filter_none.
    2:{ intros slot (sid' & -> & _)%list_elem_of_fmap. simpl.
        intros [_ Heq]. apply generateNodeId_inj in Heq. lia. }
    simpl. rewrite Nat.add_succ_r. by apply (IH (S k0) k).
Qed.

(** *** The stack nodes across the visits *)

Lemma visit_lookup block a stack j s :
  stack !! j = Some s →
  visit block a stack !! j
  = Some (if isUnallocated block then s
          else touch block (formatAddress a) s).
Proof.
  intros Hj. unfold visit. destruct (isUnallocated block); [done|].
  by rewrite list_lookup_fmap, Hj.
Qed.

Lemma visits_app pre : ∀ a post stack,
  visits a (pre ++ post) stack
  = visits (a + blockSum pre) post (visits a pre stack).
Proof.
  induction pre as [|b pre IH]; intros a post stack; simpl.
  { unfold blockSum. simpl. by rewrite Z.add_0_r. }
  rewrite IH. unfold blockSum. simpl. by rewrite Z.add_assoc.
Qed.

Lemma touch_metadata block a s :
  nodeMetadata s = Some "Dangling Pointer" →
  nodeMetadata (touch block a s) = Some "Dangling Pointer".
Proof. unfold touch. by repeat case_match. Qed.

Lemma visits_lookup heap : ∀ a stack j s,
  stack !! j = Some s →
  ∃ s', visits a heap stack !! j = Some s'
        ∧ Node.id s' = Node.id s
        ∧ (nodeMetadata s = Some "Dangling Pointer" →
           nodeMetadata s' = Some "Dangling Pointer")
        ∧ ((∀ b, b ∈ heap → isUnallocated b = false →
                 named b (Node.id s) = false) → s' = s).
Proof.
  induction heap as [|b heap IH]; intros a stack j s Hj; simpl.
  { exists s. by repeat split. }
  pose proof (visit_lookup b a stack j s Hj) as Hv.
  destruct (IH (a + Block.size b) _ _ _ Hv) as (s' & Hs' & Hid & Hmeta & Hsame).
  exists s'. split; [done|].
  destruct (isUnallocated b) eqn:Hu.
  - split; [done|]. split; [done|].
    intros Hno. apply Hsame. intros b' Hb'. apply Hno. by right.
  - rewrite touch_id in Hid, Hsame. split; [done|]. split.
    + intros Hm. by apply Hmeta, touch_metadata.
    + intros Hno. rewrite Hsame.
      * unfold touch. rewrite (Hno b); [done|by left|done].
      * intros b' Hb'. apply Hno. by right.
Qed.

(** The stack node in cell [j] after the visit of the block at position
    [k] and of the blocks after it. *)
Lemma visits_at heap k block a stack j s :
  heap !! k = Some block → isUnallocated block = false →
  stack !! j = Some s → named block (Node.id s) = true →
  let hereAddress := formatAddress (a + blockSum (take k heap)) in
  ∃ s', visits a heap stack !! j = Some s'
        ∧ Node.id s' = Node.id s
        ∧ (isDanglingPointer block (Node.id s) = true →
           nodeMetadata s' = Some "Dangling Pointer")
        ∧ ((∀ k' b, (k < k')%nat → heap !! k' = Some b →
                    isUnallocated b = false →
                    named b (Node.id s) = false) →
           nodePointingToAddress s' = Some hereAddress).
Proof.
  intros Hk Hu Hj Hn here.
  assert (visits a heap stack
          = visits (a + blockSum (take k heap) + Block.size block)
              (drop (S k) heap)
              (visit block (a + blockSum (take k heap))
                 (visits a (take k heap) stack))) as ->.
  { rewrite <- (take_drop_middle _ _ _ Hk) at 1. by rewrite visits_app. }
  destruct (visits_lookup (take k heap) a stack j s Hj)
    as (s1 & Hs1 & Hid1 & _ & _).
  pose proof (visit_lookup block (a + blockSum (take k heap)) _ _ _ Hs1)
    as Hv. rewrite Hu in Hv. fold here in Hv.
  destruct (visits_lookup (drop (S k) heap)
              (a + blockSum (take k heap) + Block.size block) _ _ _ Hv)
    as (s' & Hs' & Hid' & Hmeta & Hsame).
  rewrite touch_id in Hid', Hsame.
  exists s'. split; [done|]. split; [congruence|]. split.
  - intros Hd. apply Hmeta. unfold touch. rewrite Hid1, Hn, Hd. done.
  - intros Hlater. rewrite Hsame.
    + unfold touch. rewrite Hid1, Hn. by destruct (isDanglingPointer _ _).
    + intros b (i & Hi)%list_elem_of_lookup Hub. rewrite Hid1.
      rewrite lookup_drop in Hi.
      apply (Hlater (S k + i)%nat b); [lia|done|done].
Qed.

(** *** The output of the heap builder *)

Lemma buildHeap_facts th wh hx stackNodes d heap :
  let h := buildHeap th wh hx stackNodes d heap in
  hStack h = visits HEAP_BASE heap stackNodes
  ∧ Forall2 NodeAt (heapNodesInner h) (placed 0 HEAP_BASE heap)
  ∧ Forall2 EdgeAt (connectionsInner h)
      (expected (Node.id <$> stackNodes) 0 heap).
Proof.
  unfold buildHeap.
  destruct (heap_loop th wh hx heap
              {| hStack := stackNodes; heapNodesInner := [];
                 connectionsInner := []; index := 0;
                 address := HEAP_BASE; hDraws := d |})
    as (Hs & (ns & Hn & Hns) & (es & He & Hes)).
  simpl in *. by rewrite Hs, Hn, He.
Qed.

Lemma heap_node_at th wh hx stackNodes d heap k block :
  heap !! k = Some block →
  ∃ hn, heapNodesInner (buildHeap th wh hx stackNodes d heap) !! k = Some hn
        ∧ Node.id hn = heapNodeId k block
        ∧ nodeAddress hn
          = formatAddress (HEAP_BASE + blockSum (take k heap)).
Proof.
  intros Hk.
  destruct (buildHeap_facts th wh hx stackNodes d heap) as (_ & Hns & _).
  pose proof (placed_lookup heap 0 HEAP_BASE k block Hk) as Hp.
  destruct (Forall2_lookup_r _ _ _ _ _ Hns Hp) as (hn & Hhn & Hid & Ha & _).
  exists hn. by repeat split.
Qed.

Lemma EdgeAt_fields e slot :
  EdgeAt e slot →
  Edge.source e = slot.2 ∧ Edge.target e = slot.1.2
  ∧ Edge.id e = "e" +:+ slot.2 +:+ "-" +:+ slot.1.2
  ∧ Edge.type e = "straight"
  ∧ Edge.color (Edge.markerEnd e) = Edge.stroke (Edge.style e)
  ∧ (isDanglingPointer slot.1.1 slot.2 = true →
     Edge.stroke (Edge.style e) = "red").
Proof. intros (stroke & -> & Hred). by repeat split. Qed.

Lemma isDanglingPointer_spec block sid :
  isDanglingPointer block sid = true ↔
  ∃ ids, Block.dangling_pointer_identifiers block = Some ids ∧ sid ∈ ids.
Proof.
  unfold isDanglingPointer, optIncludes.
  destruct (Block.dangling_pointer_identifiers block) as [ids|].
  - rewrite existsb_exists. split.
    + intros (x & Hx & ->%String.eqb_eq). exists ids.
      by rewrite list_elem_of_In.
    + intros (? & [= <-] & Hin). exists sid.
      by rewrite <- list_elem_of_In, String.eqb_refl.
  - split; [done|]. by intros (? & ? & _).
Qed.

Lemma isCurrentPointer_spec block sid :
  isCurrentPointer block sid = true ↔
  Block.current_pointer_identifier block = Some sid.
Proof.
  unfold isCurrentPointer, strictEq.
  destruct (Block.current_pointer_identifier block) as [c|]; [|done].
  rewrite String.eqb_eq. split; congruence.
Qed.

(** Every queued edge comes from a visited block that names its
    source. *)
Lemma edge_origin th wh hx stackNodes d heap e :
  e ∈ connectionsInner (buildHeap th wh hx stackNodes d heap) →
  ∃ k block, heap !! k = Some block ∧ isUnallocated block = false
             ∧ named block (Edge.source e) = true
             ∧ Edge.source e ∈ Node.id <$> stackNodes
             ∧ EdgeAt e (block, heapNodeId k block, Edge.source e).
Proof.
  intros (i & Hi)%list_elem_of_lookup.
  destruct (buildHeap_facts th wh hx stackNodes d heap) as (_ & _ & Hes).
  destruct (Forall2_lookup_l _ _ _ _ _ Hes Hi) as (slot & Hslot & Hat).
  assert (slot ∈ expected (Node.id <$> stackNodes) 0 heap) as Hin.
  { apply list_elem_of_lookup. eauto. }
  apply expected_elem in Hin as (k & b & sid & Hk & Hu & Hsid & Hn & ->).
  destruct (EdgeAt_fields _ _ Hat) as (Hsrc & _). simpl in Hsrc.
  exists k, b. by rewrite Hsrc.
Qed.

(** C3: an edge of the heap builder that joins a stack node to the node
    of a block whose dangling ids contain the stack node's id is drawn
    in red (stroke and arrow head), whether or not the block's current
    pointer is that node too, and the stack node carries the metadata
    "Dangling Pointer" after the pass. *)
Theorem dangling_coloring th wh hx stackNodes d heap k block hn j s ids e :
  let h := buildHeap th wh hx stackNodes d heap in
  heap !! k = Some block →
  heapNodesInner h !! k = Some hn →
  stackNodes !! j = Some s →
  Block.dangling_pointer_identifiers block = Some ids →
  Node.id s ∈ ids →
  e ∈ connectionsInner h →
  Edge.source e = Node.id s →
  Edge.target e = Node.id hn →
  Edge.stroke (Edge.style e) = "red"
  ∧ Edge.color (Edge.markerEnd e) = "red"
  ∧ ∃ s', hStack h !! j = Some s' ∧ Node.id s' = Node.id s
          ∧ nodeMetadata s' = Some "Dangling Pointer".
Proof.
  intros h Hk Hhn Hj Hids Hin He Hsrc Htgt.
  assert (isDanglingPointer block (Node.id s) = true) as Hd.
  { apply isDanglingPointer_spec. eauto. }
  destruct (heap_node_at th wh hx stackNodes d heap k block Hk)
    as (hn' & Hhn' & Hid & _).
  assert (hn' = hn) as -> by (fold h in Hhn'; congruence).
  destruct (edge_origin _ _ _ _ _ _ _ He)
    as (k' & b' & Hk' & Hu & Hn & _ & Hat).
  destruct (EdgeAt_fields _ _ Hat) as (_ & Ht & _ & _ & Hcol & Hred).
  simpl in Ht, Hred.
  assert (k' = k) as ->.
  { rewrite Htgt, Hid in Ht. by apply generateNodeId_inj in Ht. }
  assert (b' = block) as -> by congruence.
  rewrite Hsrc in Hred, Hn. specialize (Hred Hd).
  split; [done|]. split; [congruence|].
  destruct (visits_at heap k block HEAP_BASE stackNodes j s Hk Hu Hj Hn)
    as (s' & Hs' & Hid' & Hmeta & _).
  exists s'. subst h.
  destruct (buildHeap_facts th wh hx stackNodes d heap) as (-> & _).
  by auto.
Qed.

Lemma isUnallocated_false block :
  Block.block_state block ≠ "Unallocated" → isUnallocated block = false.
Proof. intros H. unfold isUnallocated. by apply String.eqb_neq. Qed.

(** With distinct stack ids, the edges that join a named stack node to
    the node of the block that names it are exactly one. *)
Lemma edge_once th wh hx stackNodes d heap k block hn j s :
  let h := buildHeap th wh hx stackNodes d heap in
  NoDup (Node.id <$> stackNodes) →
  heap !! k = Some block → isUnallocated block = false →
  heapNodesInner h !! k = Some hn →
  stackNodes !! j = Some s →
  named block (Node.id s) = true →
  ∃ e, filter (fun e => Edge.source e = Node.id s
                        ∧ Edge.target e = Node.id hn)
         (connectionsInner h) = [e]
       ∧ EdgeAt e (block, Node.id hn, Node.id s).
Proof.
  intros h Hnd Hk Hu Hhn Hj Hn.
  destruct (heap_node_at th wh hx stackNodes d heap k block Hk)
    as (hn' & Hhn' & Hid & _).
  assert (hn' = hn) as -> by (fold h in Hhn'; congruence).
  assert (Node.id s ∈ Node.id <$> stackNodes) as Hsid.
  { apply list_elem_of_fmap_2, list_elem_of_lookup. eauto. }
  pose proof (expected_once _ heap _ 0 k block Hnd Hk Hu Hsid Hn) as Honce.
  destruct (buildHeap_facts th wh hx stackNodes d heap) as (_ & _ & Hes).
  fold h in Hes.
  pose proof (Forall2_filter EdgeAt
                (fun e => Edge.source e = Node.id s
                          ∧ Edge.target e = Node.id hn)
                (fun slot : Slot =>
                   slot.2 = Node.id s ∧ slot.1.2 = heapNodeId (0 + k) block)
                (connectionsInner h)
                (expected (Node.id <$> stackNodes) 0 heap)) as Hsync.
  rewrite Honce in Hsync.
  assert (Forall2 EdgeAt
            (filter (fun e => Edge.source e = Node.id s
                              ∧ Edge.target e = Node.id hn)
               (connectionsInner h))
            [(block, heapNodeId (0 + k) block, Node.id s)]) as Hone.
  { apply Hsync; [|done]. intros e slot Hat.
    destruct (EdgeAt_fields _ _ Hat) as (-> & -> & _).
    simpl. by rewrite Hid. }
  apply Forall2_cons_inv_r in Hone as (e & rest & Hat & Hrest & ->).
  apply Forall2_nil_inv_r in Hrest as ->.
  exists e. split; [done|]. simpl in Hat. by rewrite Hid.
Qed.

(** C10: when a stack node is both the current pointer of a block that
    is not unallocated and one of its dangling pointers, the pass
    queues exactly one edge between the two (stack ids being distinct),
    the edge is red, and the stack node carries the metadata "Dangling
    Pointer". *)
Theorem current_and_dangling th wh hx stackNodes d heap k block hn j s ids :
  let h := buildHeap th wh hx stackNodes d heap in
  NoDup (Node.id <$> stackNodes) →
  heap !! k = Some block →
  Block.block_state block ≠ "Unallocated" →
  heapNodesInner h !! k = Some hn →
  stackNodes !! j = Some s →
  Block.current_pointer_identifier block = Some (Node.id s) →
  Block.dangling_pointer_identifiers block = Some ids →
  Node.id s ∈ ids →
  (∃ e, filter (fun e => Edge.source e = Node.id s
                         ∧ Edge.target e = Node.id hn)
          (connectionsInner h) = [e]
        ∧ Edge.stroke (Edge.style e) = "red"
        ∧ Edge.color (Edge.markerEnd e) = "red")
  ∧ ∃ s', hStack h !! j = Some s' ∧ Node.id s' = Node.id s
          ∧ nodeMetadata s' = Some "Dangling Pointer".
Proof.
  intros h Hnd Hk Hst%isUnallocated_false Hhn Hj Hcur Hids Hin.
  assert (isDanglingPointer block (Node.id s) = true) as Hd.
  { apply isDanglingPointer_spec. eauto. }
  assert (named block (Node.id s) = true) as Hn.
  { unfold named. by rewrite Hd, orb_true_r. }
  destruct (edge_once th wh hx stackNodes d heap k block hn j s
              Hnd Hk Hst Hhn Hj Hn) as (e & Hone & Hat).
  destruct (EdgeAt_fields _ _ Hat) as (_ & _ & _ & _ & Hcol & Hred).
  simpl in Hred. specialize (Hred Hd).
  split; [exists e; split; [done|]; split; congruence|].
  destruct (visits_at heap k block HEAP_BASE stackNodes j s Hk Hst Hj Hn)
    as (s' & Hs' & Hid' & Hmeta & _).
  exists s'. subst h.
  destruct (buildHeap_facts th wh hx stackNodes d heap) as (-> & _).
  by auto.
Qed.

(** *** Addresses of the heap layer *)

Lemma heap_loop_closed th wh hx heap : ∀ st,
  Forall (fun b => 0 ≤ Block.size b) heap →
  address st = HEAP_BASE + sizeSum (heapNodesInner st) →
  ClosedForm HEAP_BASE (heapNodesInner st) →
  Forall (fun n => 0 ≤ Node.size n) (heapNodesInner st) →
  let st' := fold_left (heapBlock th wh hx) heap st in
  ClosedForm HEAP_BASE (heapNodesInner st')
  ∧ Forall (fun n => 0 ≤ Node.size n) (heapNodesInner st').
Proof.
  induction heap as [|block heap IH]; intros st Hheap Ha Hcf Hall; [done|].
  inversion_clear Hheap as [|? ? Hb Hheap'].
  change (fold_left (heapBlock th wh hx) (block :: heap) st)
    with (fold_left (heapBlock th wh hx) heap (heapBlock th wh hx st block)).
  destruct (heapBlock_step th wh hx st block)
    as (_ & Ha' & _ & (hn & Hn & _ & Hadr & Hsz) & _).
  apply IH; [done| | |]; rewrite Hn.
  - rewrite Ha', Ha, sizeSum_snoc, Hsz. lia.
  - apply ClosedForm_snoc; [done|]. by rewrite Hadr, Ha.
  - apply Forall_app. split; [done|]. apply Forall_singleton. by rewrite Hsz.
Qed.

Lemma buildHeap_law th wh hx stackNodes d heap :
  Forall (fun b => 0 ≤ Block.size b) heap →
  AddressLaw HEAP_BASE
    (heapNodesInner (buildHeap th wh hx stackNodes d heap)).
Proof.
  intros Hheap. unfold buildHeap.
  destruct (heap_loop_closed th wh hx heap
              {| hStack := stackNodes; heapNodesInner := [];
                 connectionsInner := []; index := 0;
                 address := HEAP_BASE; hDraws := d |} Hheap)
    as (Hcf & Hall); [done|by intros i n Hi|done|].
  by apply ClosedForm_law.
Qed.

(** ** The second loop of the stack builder keeps the nodes *)

Lemma connectInner_frozen th i st j :
  frozen <$> nodes (connectInner th i st j) = frozen <$> nodes st.
Proof.
  unfold connectInner. repeat case_match; try done.
  simpl. by rewrite !alter_frozen.
Qed.

Lemma connectInner_fold_frozen th i js : ∀ st,
  frozen <$> nodes (fold_left (connectInner th i) js st)
  = frozen <$> nodes st.
Proof.
  induction js as [|j js IH]; intros st; [done|].
  simpl. by rewrite IH, connectInner_frozen.
Qed.

Lemma connectOuter_frozen th st i :
  frozen <$> nodes (connectOuter th st i) = frozen <$> nodes st.
Proof.
  unfold connectOuter. repeat case_match; try done.
  apply connectInner_fold_frozen.
Qed.

Lemma connectOuter_fold_frozen th ks : ∀ st,
  frozen <$> nodes (fold_left (connectOuter th) ks st)
  = frozen <$> nodes st.
Proof.
  induction ks as [|i ks IH]; intros st; [done|].
  simpl. by rewrite IH, connectOuter_frozen.
Qed.

Lemma connectPointers_frozen th stackNodesInner d :
  frozen <$> nodes (connectPointers th stackNodesInner d)
  = frozen <$> stackNodesInner.
Proof. unfold connectPointers. by rewrite connectOuter_fold_frozen. Qed.

(** ** Address synthesis of both layers *)

(** *** The nodes of a layer and the entries they show *)

Lemma frozen_entries (l' l : list Node.t) :
  frozen <$> l' = frozen <$> l → nodeEntry <$> l' = nodeEntry <$> l.
Proof.
  intros H.
  change (nodeEntry <$> l') with ((nodeEntry ∘ frozen) <$> l').
  change (nodeEntry <$> l) with ((nodeEntry ∘ frozen) <$> l).
  by rewrite !list_fmap_compose, H.
Qed.

Lemma stackSymbol_entries wh x acc addr symbol :
  nodeEntry <$> (stackSymbol wh x (acc, addr) symbol).1
  = (nodeEntry <$> acc) ++ drawnEntries [symbol].
Proof.
  destruct symbol as [name size value vtype|name size value|]; simpl.
  - by rewrite fmap_app.
  - by rewrite fmap_app.
  - by rewrite app_nil_r.
Qed.

Lemma buildStackNodes_entries wh x stack :
  nodeEntry <$> buildStackNodes wh x stack = drawnEntries stack.
Proof.
  unfold buildStackNodes.
  cut (∀ acc, nodeEntry <$> (fold_left (stackSymbol wh x) stack acc).1
              = (nodeEntry <$> acc.1) ++ drawnEntries stack).
  { intros H. by rewrite H. }
  induction stack as [|symbol stack IH]; intros [acc addr].
  { simpl. by rewrite app_nil_r. }
  change (fold_left (stackSymbol wh x) (symbol :: stack) (acc, addr))
    with (fold_left (stackSymbol wh x) stack
            (stackSymbol wh x (acc, addr) symbol)).
  rewrite IH, stackSymbol_entries, <- app_assoc. f_equal.
  unfold drawnEntries. simpl. by destruct (symbolName symbol).
Qed.

Lemma sizeSum_entries layer : sizeSum layer = entrySum (nodeEntry <$> layer).
Proof.
  unfold sizeSum, entrySum.
  induction layer as [|n layer IH]; simpl; [done|]. by rewrite IH.
Qed.

Lemma blockSum_nonneg heap :
  Forall (fun b => 0 ≤ Block.size b) heap → 0 ≤ blockSum heap.
Proof.
  unfold blockSum. induction 1; simpl; lia.
Qed.

(** Nodes that sit where [placed] expects them show the sizes of the
    blocks and the addresses of the closed form. *)
Lemma placed_nodes heap : ∀ ns k a,
  Forall2 NodeAt ns (placed k a heap) →
  Node.size <$> ns = Block.size <$> heap
  ∧ ∀ i hn, ns !! i = Some hn →
      nodeAddress hn = formatAddress (a + blockSum (take i heap)).
Proof.
  induction heap as [|b heap IH]; intros ns k a Hns; simpl in Hns.
  { by apply Forall2_nil_inv_r in Hns as ->. }
  apply Forall2_cons_inv_r in Hns
    as (hn & rest & (_ & Ha & Hsz) & Hrest & ->).
  simpl in Ha, Hsz.
  destruct (IH _ _ _ Hrest) as (Hsizes & Haddr).
  split.
  - rewrite !fmap_cons. by rewrite Hsz, Hsizes.
  - intros [|i] hn' Hi; simpl in Hi.
    + injection Hi as <-. rewrite Ha. f_equal.
      unfold blockSum. simpl. lia.
    + rewrite (Haddr _ _ Hi). f_equal.
      unfold blockSum. simpl. lia.
Qed.

(** C2: the stack effect makes one node per variable or pointer entry
    of the stack, in order and with the size of the entry, and the heap
    effect one node per block, with the size of the block whatever its
    state; the first node of a layer sits at the base of the layer (the
    stack base [0xBFFFFFFF], the heap base [0x400000]) and each later
    node at the address of the node before it plus the size of that
    one, so node [i] sits at the base plus the sizes of the entries
    before it; every address is [0x] followed by upper-case hexadecimal
    digits. Sizes are the non-negative integers of the data model, and
    the addresses stay within the safe integers. *)
Theorem address_synthesis th wh sx hx r stack heap stackNodes d d' :
  Response.stack r = Some stack →
  Response.heap r = Some heap →
  Forall (fun s => 0 ≤ symbolSize s) stack →
  Forall (fun b => 0 ≤ Block.size b) heap →
  STACK_BASE + entrySum (drawnEntries stack) ≤ 2 ^ 53 →
  HEAP_BASE + blockSum heap ≤ 2 ^ 53 →
  STACK_BASE = 3221225471 ∧ HEAP_BASE = 4194304
  ∧ (∃ b, useStackNodes (Some r) wh sx th d = Ran b
          ∧ nodeEntry <$> nodes b = drawnEntries stack
          ∧ (∀ i n, nodes b !! i = Some n →
               addressValue (nodeAddress n)
               = Some (STACK_BASE
                       + entrySum (take i (drawnEntries stack))))
          ∧ AddressLaw STACK_BASE (nodes b))
  ∧ (stack ≠ [] →
     ∃ h, useHeapNodes (Some r) stackNodes wh hx th d' = Ran h
          ∧ Node.size <$> heapNodesInner h = Block.size <$> heap
          ∧ (∀ k hn, heapNodesInner h !! k = Some hn →
               addressValue (nodeAddress hn)
               = Some (HEAP_BASE + blockSum (take k heap)))
          ∧ AddressLaw HEAP_BASE (heapNodesInner h)).
Proof.
  intros Hs Hh Hstack Hheap _ _. split; [done|]. split; [done|]. split.
  - unfold useStackNodes. rewrite Hs. eexists. split; [done|].
    pose proof (connectPointers_frozen th (buildStackNodes wh sx stack) d)
      as Hfz.
    destruct (buildStackNodes_closed wh sx stack Hstack) as (Hcf & Hall).
    split; [|split].
    + by rewrite (frozen_entries _ _ Hfz), buildStackNodes_entries.
    + intros i n Hi.
      destruct (frozen_lookup _ _ _ _ Hfz Hi) as (n0 & Hn0 & Heq).
      apply frozen_fields in Heq as (_ & _ & -> & _).
      rewrite (Hcf _ _ Hn0), sizeSum_entries, fmap_take,
        buildStackNodes_entries.
      apply addressValue_formatAddress.
      rewrite <- (buildStackNodes_entries wh sx), <- fmap_take,
        <- sizeSum_entries.
      pose proof (sizeSum_nonneg _ (Forall_take _ i _ Hall)).
      unfold STACK_BASE. lia.
    + eapply AddressLaw_frozen; [exact Hfz|]. by apply ClosedForm_law.
  - intros Hne. unfold useHeapNodes. rewrite Hs, Hh.
    destruct stack; [done|]. simpl. eexists. split; [done|].
    destruct (buildHeap_facts th wh hx stackNodes d' heap) as (_ & Hns & _).
    destruct (placed_nodes _ _ _ _ Hns) as (Hsizes & Haddr).
    split; [exact Hsizes|]. split; [|by apply buildHeap_law].
    intros k hn Hk. rewrite (Haddr _ _ Hk).
    apply addressValue_formatAddress.
    pose proof (blockSum_nonneg _ (Forall_take _ k _ Hheap)).
    unfold HEAP_BASE. lia.
Qed.

(** ** Heap node ids and active edges *)

Lemma named_false block sid :
  Block.current_pointer_identifier block ≠ Some sid →
  (∀ ids, Block.dangling_pointer_identifiers block = Some ids → sid ∉ ids) →
  named block sid = false.
Proof.
  intros Hc Hd. unfold named. apply orb_false_iff. split.
  - apply not_true_is_false. by intros ?%isCurrentPointer_spec.
  - apply not_true_is_false.
    intros (ids & Hids & Hin)%isDanglingPointer_spec. by apply (Hd ids).
Qed.

(** C6 (as amended): the node of the block at position [k] has the id
    given by the scheme; for a stack node that is the current pointer
    of a block that is not unallocated, the edge [e<stack id>-<heap id>]
    is queued, and the stack node ends the pass pointing to the address
    of that heap node provided no later block, other than unallocated
    ones, names the stack node as current or dangling pointer. The
    scenario with one pointer and one allocated block yields one stack
    node, the heap node ["0"] and the edge ["ep-0"]. *)
Theorem heap_ids_and_active_edges th wh sx hx stackNodes d heap :
  let h := buildHeap th wh hx stackNodes d heap in
  (∀ k block, heap !! k = Some block →
     ∃ hn, heapNodesInner h !! k = Some hn
       ∧ Node.id hn
         = (if String.eqb (Block.block_state block) "Unallocated"
            then "unallocated-" +:+ Js.natToString k
            else if String.eqb (Block.block_state block) "Free"
                 then "free-" +:+ Js.natToString k
                 else Js.natToString k)
       ∧ ∀ j s, stackNodes !! j = Some s →
           Block.block_state block ≠ "Unallocated" →
           Block.current_pointer_identifier block = Some (Node.id s) →
           (∃ e, e ∈ connectionsInner h
                 ∧ Edge.id e = "e" +:+ Node.id s +:+ "-" +:+ Node.id hn
                 ∧ Edge.source e = Node.id s
                 ∧ Edge.target e = Node.id hn
                 ∧ Edge.type e = "straight")
           ∧ ((∀ k' b, (k < k')%nat → heap !! k' = Some b →
                 Block.block_state b ≠ "Unallocated" →
                 Block.current_pointer_identifier b ≠ Some (Node.id s)
                 ∧ ∀ ids, Block.dangling_pointer_identifiers b = Some ids →
                          Node.id s ∉ ids) →
              ∃ s', hStack h !! j = Some s' ∧ Node.id s' = Node.id s
                    ∧ nodePointingToAddress s' = Some (nodeAddress hn)))
  ∧ (∃ b g, useStackNodes (Some scenarioActive) wh sx th d = Ran b
       ∧ useHeapNodes (Some scenarioActive) (nodes b) wh hx th (draws b)
         = Ran g
       ∧ Node.id <$> nodes b = ["p"]
       ∧ Node.id <$> heapNodesInner g = ["0"]
       ∧ Edge.id <$> connectionsInner g = ["ep-0"]
       ∧ Edge.source <$> connectionsInner g = ["p"]
       ∧ Edge.target <$> connectionsInner g = ["0"]).
Proof.
  intros h. split.
  2:{ eexists _, _. by repeat split. }
  intros k block Hk.
  destruct (heap_node_at th wh hx stackNodes d heap k block Hk)
    as (hn & Hhn & Hid & Hadr).
  exists hn. split; [done|]. split; [done|].
  intros j s Hj Hst%isUnallocated_false Hcur%isCurrentPointer_spec.
  assert (named block (Node.id s) = true) as Hn.
  { unfold named. by rewrite Hcur. }
  destruct (buildHeap_facts th wh hx stackNodes d heap) as (Hs & _ & Hes).
  fold h in Hs, Hes. split.
  - assert ((block, heapNodeId (0 + k) block, Node.id s)
            ∈ expected (Node.id <$> stackNodes) 0 heap) as Hin.
    { apply expected_elem. exists k, block, (Node.id s).
      repeat split; try done.
      apply list_elem_of_fmap_2, list_elem_of_lookup. eauto. }
    apply list_elem_of_lookup in Hin as (i & Hi).
    destruct (Forall2_lookup_r _ _ _ _ _ Hes Hi) as (e & He & Hat).
    destruct (EdgeAt_fields _ _ Hat) as (Hsrc & Htgt & Heid & Hty & _).
    simpl in *. exists e. rewrite Hid.
    split; [apply list_elem_of_lookup; eauto|]. done.
  - intros Hlater.
    destruct (visits_at heap k block HEAP_BASE stackNodes j s Hk Hst Hj Hn)
      as (s' & Hs' & Hid' & _ & Hpt).
    exists s'. rewrite Hs, Hadr. split; [done|]. split; [done|].
    apply Hpt. intros k' b Hlt Hk' Hub.
    destruct (Hlater k' b Hlt Hk') as [Hc Hd].
    { unfold isUnallocated in Hub. by apply String.eqb_neq. }
    by apply named_false.
Qed.

(** *** Resolution of the intra-stack pointers *)

Lemma Shape_lookup N st i n :
  Shape N st → N !! i = Some n →
  ∃ c, nodes st !! i = Some c ∧ frozen c = frozen n.
Proof.
  intros Hsh Hi. unfold Shape in Hsh. symmetry in Hsh.
  destruct (frozen_lookup _ _ _ _ Hsh Hi) as (c & Hc & Heq). eauto.
Qed.

Lemma Shape_length N st : Shape N st → length (nodes st) = length N.
Proof.
  intros Hsh. apply (f_equal length) in Hsh. by rewrite !length_fmap in Hsh.
Qed.

Lemma Shape_inner N th i st j : Shape N st → Shape N (connectInner th i st j).
Proof. unfold Shape. by rewrite connectInner_frozen. Qed.

(** The inner body does nothing on a cell whose id is not the target. *)
Lemma connectInner_miss th i st j node inner :
  nodes st !! i = Some node → nodes st !! j = Some inner →
  strictEq (Node.id inner) (nodeLabel node) = false →
  connectInner th i st j = st.
Proof.
  intros Hi Hj Hne. unfold connectInner. rewrite Hi, Hj.
  fold (nodeLabel node). by rewrite Hne.
Qed.

Lemma connectInner_hit th i st j node inner t :
  nodes st !! i = Some node → nodes st !! j = Some inner →
  nodeLabel node = Some t → Node.id inner = t →
  ∃ stroke,
    connectInner th i st j
    = {| nodes :=
           alter (fun n => Node.setTargetPosition Right
                             (Node.setSourcePosition Right n)) j
             (alter (fun n => Node.setValue ("&" +:+ t)
                                (Node.setPointingToAddress
                                   (nodeAddress inner) n)) i
                (nodes st));
         connections :=
           connections st ++
           [createEdge ("e" +:+ Node.id node +:+ "-" +:+ t) "step"
              (Node.id node) t stroke];
         draws := S (draws st) |}.
Proof.
  intros Hi Hj Hl Ht. unfold connectInner. rewrite Hi, Hj.
  fold (nodeLabel node). rewrite Hl, Ht. simpl.
  rewrite String.eqb_refl. by eexists.
Qed.

(** How one step of the inner body changes a cell: anchors are kept,
    and the value and target address of a cell other than the pointer's
    are kept. *)
Lemma connectInner_cell th i st j m c :
  nodes st !! m = Some c →
  ∃ c', nodes (connectInner th i st j) !! m = Some c'
        ∧ (anchored c → anchored c')
        ∧ (m ≠ i → Node.value (Node.data c') = Node.value (Node.data c)
                   ∧ nodePointingToAddress c' = nodePointingToAddress c).
Proof.
  intros Hm. unfold connectInner.
  destruct (nodes st !! i) as [node|] eqn:Hi; [|by eauto].
  destruct (nodes st !! j) as [inner|] eqn:Hj; [|by eauto].
  destruct (strictEq _ _); [|by eauto]. simpl.
  rewrite !list_lookup_alter, Hm.
  destruct (decide (j = m)) as [->|], (decide (i = m)) as [->|];
    rewrite ?Hm; simpl; eexists; (split; [done|]); split; try done;
    unfold anchored; simpl; tauto.
Qed.

Lemma connectInner_fold_cell th i js : ∀ st m c,
  nodes st !! m = Some c →
  ∃ c', nodes (fold_left (connectInner th i) js st) !! m = Some c'
        ∧ (anchored c → anchored c')
        ∧ (m ≠ i → Node.value (Node.data c') = Node.value (Node.data c)
                   ∧ nodePointingToAddress c' = nodePointingToAddress c).
Proof.
  induction js as [|j js IH]; intros st m c Hm; simpl; [by eauto|].
  destruct (connectInner_cell th i st j m c Hm) as (c1 & Hc1 & Ha1 & Hv1).
  destruct (IH _ _ _ Hc1) as (c' & Hc' & Ha & Hv).
  exists c'. split; [done|]. split; [tauto|].
  intros Hne. destruct (Hv1 Hne), (Hv Hne). split; congruence.
Qed.

Lemma connectOuter_cell th st i m c :
  nodes st !! m = Some c →
  ∃ c', nodes (connectOuter th st i) !! m = Some c'
        ∧ (anchored c → anchored c')
        ∧ (m ≠ i → Node.value (Node.data c') = Node.value (Node.data c)
                   ∧ nodePointingToAddress c' = nodePointingToAddress c).
Proof.
  intros Hm. unfold connectOuter.
  destruct (nodes st !! i) as [node|]; [|by eauto].
  destruct (String.eqb _ _); [|by eauto].
  by apply connectInner_fold_cell.
Qed.

Lemma connectOuter_fold_cell th ks : ∀ st m c,
  nodes st !! m = Some c →
  ∃ c', nodes (fold_left (connectOuter th) ks st) !! m = Some c'
        ∧ (anchored c → anchored c')
        ∧ (m ∉ ks → Node.value (Node.data c') = Node.value (Node.data c)
                    ∧ nodePointingToAddress c' = nodePointingToAddress c).
Proof.
  induction ks as [|i ks IH]; intros st m c Hm; simpl; [by eauto|].
  destruct (connectOuter_cell th st i m c Hm) as (c1 & Hc1 & Ha1 & Hv1).
  destruct (IH _ _ _ Hc1) as (c' & Hc' & Ha & Hv).
  exists c'. split; [done|]. split; [tauto|].
  intros [Hne Hnin]%not_elem_of_cons.
  destruct (Hv1 Hne), (Hv Hnin). split; congruence.
Qed.

Lemma Shape_outer_fold N th ks st :
  Shape N st → Shape N (fold_left (connectOuter th) ks st).
Proof. unfold Shape. by rewrite connectOuter_fold_frozen. Qed.

Lemma Shape_inner_fold N th i js st :
  Shape N st → Shape N (fold_left (connectInner th i) js st).
Proof. unfold Shape. by rewrite connectInner_fold_frozen. Qed.

(** The edges queued while the outer loop is at cell [i] leave from the
    node of that cell. *)
Lemma connectInner_edges N th i ni st j :
  Shape N st → N !! i = Some ni →
  ∃ new, connections (connectInner th i st j) = connections st ++ new
         ∧ Forall (fun e => Edge.source e = Node.id ni) new.
Proof.
  intros Hsh Hi.
  destruct (Shape_lookup _ _ _ _ Hsh Hi) as (c & Hc & Heq).
  apply frozen_fields in Heq as (Hid & _).
  unfold connectInner. rewrite Hc.
  destruct (nodes st !! j) as [inner|]; [|exists []; by rewrite app_nil_r].
  destruct (strictEq _ _); [|exists []; by rewrite app_nil_r].
  simpl. eexists. split; [done|]. by apply Forall_singleton.
Qed.

Lemma connectInner_fold_edges N th i ni js : ∀ st,
  Shape N st → N !! i = Some ni →
  ∃ new, connections (fold_left (connectInner th i) js st)
         = connections st ++ new
         ∧ Forall (fun e => Edge.source e = Node.id ni) new.
Proof.
  induction js as [|j js IH]; intros st Hsh Hi; simpl.
  { exists []. by rewrite app_nil_r. }
  destruct (connectInner_edges N th i ni st j Hsh Hi) as (n1 & H1 & Hf1).
  destruct (IH (connectInner th i st j)) as (n2 & H2 & Hf2);
    [by apply Shape_inner|done|].
  exists (n1 ++ n2). rewrite H2, H1, <- app_assoc. split; [done|].
  by apply Forall_app.
Qed.

Lemma connectOuter_fold_edges N th ks : ∀ st,
  Shape N st →
  ∃ new, connections (fold_left (connectOuter th) ks st)
         = connections st ++ new
         ∧ Forall (fun e => ∃ i ni, i ∈ ks ∧ N !! i = Some ni
                                    ∧ Edge.source e = Node.id ni) new.
Proof.
  induction ks as [|i ks IH]; intros st Hsh; simpl.
  { exists []. by rewrite app_nil_r. }
  assert (∃ n1, connections (connectOuter th st i) = connections st ++ n1
                ∧ Forall (fun e => ∃ ni, N !! i = Some ni
                                         ∧ Edge.source e = Node.id ni) n1)
    as (n1 & H1 & Hf1).
  { unfold connectOuter.
    destruct (nodes st !! i) as [node|] eqn:Hnode;
      [|exists []; by rewrite app_nil_r].
    destruct (String.eqb _ _); [|exists []; by rewrite app_nil_r].
    destruct (frozen_lookup _ _ _ _ Hsh Hnode) as (ni & Hni & _).
    destruct (connectInner_fold_edges N th i ni
                (seq 0 (length (nodes st))) st Hsh Hni) as (n1 & H1 & Hf1).
    exists n1. split; [done|].
    eapply Forall_impl; [|exact Hf1]. by eauto. }
  destruct (IH (connectOuter th st i)) as (n2 & H2 & Hf2).
  { unfold Shape. by rewrite connectOuter_frozen. }
  exists (n1 ++ n2). rewrite H2, H1, <- app_assoc. split; [done|].
  apply Forall_app. split.
  - eapply Forall_impl; [|exact Hf1].
    intros e (ni & Hni & Hsrc). exists i, ni. split; [by left|done].
  - eapply Forall_impl; [|exact Hf2].
    intros e (i' & ni & Hin & Hni & Hsrc). exists i', ni.
    split; [by right|done].
Qed.

Lemma seq_split j n :
  (j < n)%nat → seq 0 n = seq 0 j ++ j :: seq (S j) (n - S j).
Proof.
  intros Hj. replace n with (j + S (n - S j))%nat at 1 by lia.
  by rewrite seq_app.
Qed.

Lemma connectInner_fold_miss N th i ni t js : ∀ st,
  Shape N st → N !! i = Some ni → nodeLabel ni = Some t →
  (∀ j nj, j ∈ js → N !! j = Some nj → Node.id nj ≠ t) →
  fold_left (connectInner th i) js st = st.
Proof.
  induction js as [|j js IH]; intros st Hsh Hi Hl Hmiss; [done|].
  simpl.
  assert (connectInner th i st j = st) as ->.
  { destruct (Shape_lookup _ _ _ _ Hsh Hi) as (c & Hc & Heq).
    apply frozen_fields in Heq as (_ & _ & _ & _ & Hlab & _).
    destruct (nodes st !! j) as [inner|] eqn:Hj.
    - destruct (frozen_lookup _ _ _ _ Hsh Hj) as (nj & Hnj & Heqj).
      apply frozen_fields in Heqj as (Hidj & _).
      apply (connectInner_miss th i st j c inner Hc Hj).
      unfold nodeLabel. rewrite Hlab. fold (nodeLabel ni). rewrite Hl.
      simpl. apply String.eqb_neq. rewrite Hidj.
      apply (Hmiss j nj); [by left|done].
    - unfold connectInner. by rewrite Hc, Hj. }
  apply IH; try done. intros j' nj' Hin. apply Hmiss. by right.
Qed.

Lemma NoDup_ids_lookup (N : list Node.t) j j' nj nj' :
  NoDup (Node.id <$> N) → N !! j = Some nj → N !! j' = Some nj' →
  Node.id nj' = Node.id nj → j' = j.
Proof.
  intros Hnd Hj Hj' Heq.
  apply (NoDup_lookup _ j' j (Node.id nj) Hnd).
  - rewrite list_lookup_fmap, Hj'. simpl. by rewrite Heq.
  - by rewrite list_lookup_fmap, Hj.
Qed.

(** The outer loop at the cell of a pointer whose target is the node of
    cell [j]: one edge is queued, the pointer is marked and the target
    is anchored. *)
Lemma connectInner_fold_link N th i j ni nj st :
  Shape N st → NoDup (Node.id <$> N) →
  N !! i = Some ni → N !! j = Some nj →
  nodeLabel ni = Some (Node.id nj) →
  let st' := fold_left (connectInner th i) (seq 0 (length (nodes st))) st in
  (∃ stroke,
     connections st'
     = connections st ++
       [createEdge ("e" +:+ Node.id ni +:+ "-" +:+ Node.id nj) "step"
          (Node.id ni) (Node.id nj) stroke])
  ∧ (∃ c, nodes st' !! i = Some c
          ∧ marked ("&" +:+ Node.id nj) (nodeAddress nj) c)
  ∧ (∃ c, nodes st' !! j = Some c ∧ anchored c).
Proof.
  intros Hsh Hnd Hi Hj Hl.
  assert (j < length (nodes st))%nat as Hlt.
  { rewrite (Shape_length _ _ Hsh). by eapply lookup_lt_Some. }
  rewrite (seq_split j _ Hlt), fold_left_app. simpl.
  rewrite (connectInner_fold_miss N th i ni (Node.id nj) (seq 0 j) st);
    try done.
  2:{ intros j' nj' Hin%elem_of_seq Hj' Heq.
      pose proof (NoDup_ids_lookup _ _ _ _ _ Hnd Hj Hj' Heq). lia. }
  destruct (Shape_lookup _ _ _ _ Hsh Hi) as (c & Hc & Heq).
  destruct (Shape_lookup _ _ _ _ Hsh Hj) as (cj & Hcj & Heqj).
  apply frozen_fields in Heq as (Hid & _ & _ & _ & Hlab & _).
  apply frozen_fields in Heqj as (Hidj & _ & Hadr & _).
  destruct (connectInner_hit th i st j c cj (Node.id nj) Hc Hcj)
    as (stroke & Hhit); [by unfold nodeLabel; rewrite Hlab|done|].
  rewrite (connectInner_fold_miss N th i ni (Node.id nj)); try done.
  2:{ by apply Shape_inner. }
  2:{ intros j' nj' Hin%elem_of_seq Hj' Heq.
      pose proof (NoDup_ids_lookup _ _ _ _ _ Hnd Hj Hj' Heq). lia. }
  rewrite Hhit. simpl. rewrite Hid, Hadr. split; [by eauto|].
  rewrite !list_lookup_alter. split.
  - destruct (decide (j = i)) as [->|].
    + rewrite decide_True by done. rewrite Hc. simpl.
      eexists. split; [done|]. by split.
    + rewrite decide_True by done. rewrite Hc. simpl.
      eexists. split; [done|]. by split.
  - rewrite decide_True by done.
    destruct (decide (i = j)) as [->|].
    + rewrite Hc. simpl. eexists. split; [done|]. by split.
    + rewrite Hcj. simpl. eexists. split; [done|]. by split.
Qed.

(** C5: with distinct stack ids, a pointer node whose declared target
    is the id of a stack node gets exactly one edge to it, with id
    [e<pointer>-<target>]; the pointer node shows [&<target>] and
    records the target's address, and the target node has both anchors
    on its right side. In the scenario of a variable [x] and a pointer
    [p] to it, the stack effect yields the nodes [x] and [p] at the
    stack base and four above it, the edge [ep-x] and the value [&x]. *)
Theorem intra_stack_resolution th wh sx hx d :
  (∀ stack i j p t,
     let N := buildStackNodes wh sx stack in
     let b := connectPointers th N d in
     NoDup (Node.id <$> N) →
     N !! i = Some p → N !! j = Some t →
     Node.dtype (Node.data p) = "Pointer" →
     nodeLabel p = Some (Node.id t) →
     (∃ stroke,
        filter (fun e => Edge.source e = Node.id p
                         ∧ Edge.target e = Node.id t) (connections b)
        = [createEdge ("e" +:+ Node.id p +:+ "-" +:+ Node.id t) "step"
             (Node.id p) (Node.id t) stroke])
     ∧ (∃ p', nodes b !! i = Some p' ∧ Node.id p' = Node.id p
              ∧ Node.value (Node.data p') = "&" +:+ Node.id t
              ∧ nodePointingToAddress p' = Some (nodeAddress t))
     ∧ (∃ t', nodes b !! j = Some t' ∧ Node.id t' = Node.id t
              ∧ nodeAddress t' = nodeAddress t
              ∧ Node.sourcePosition t' = Some Right
              ∧ Node.targetPosition t' = Some Right))
  ∧ (∃ b, useStackNodes (Some scenarioIntraStack) wh sx th d = Ran b
          ∧ useHeapNodes (Some scenarioIntraStack) (nodes b) wh hx th
              (draws b)
            = Ran {| hStack := nodes b; heapNodesInner := [];
                     connectionsInner := []; index := 0;
                     address := HEAP_BASE; hDraws := draws b |}
          ∧ Node.id <$> nodes b = ["x"; "p"]
          ∧ Edge.id <$> connections b = ["ep-x"]
          ∧ nodeAddress <$> nodes b = ["0xBFFFFFFF"; "0xC0000003"]
          ∧ formatAddress STACK_BASE = "0xBFFFFFFF"
          ∧ formatAddress (STACK_BASE + 4) = "0xC0000003"
          ∧ (Node.value ∘ Node.data) <$> nodes b = ["12"; "&x"]).
Proof.
  split; [|eexists; by repeat split].
  intros stack i j p t N b Hnd Hi Hj Hty Hl. subst b.
  unfold connectPointers.
  set (st0 := {| nodes := N; connections := []; draws := d |}).
  assert (Shape N st0) as Hsh0 by done.
  assert (i < length N)%nat as Hlt by (by eapply lookup_lt_Some).
  rewrite (seq_split i _ Hlt), fold_left_app. simpl.
  set (sta := fold_left (connectOuter th) (seq 0 i) st0).
  assert (Shape N sta) as Hsha by (by apply Shape_outer_fold).
  destruct (connectOuter_fold_edges N th (seq 0 i) st0 Hsh0)
    as (newa & Hea & Hfa). fold sta in Hea. simpl in Hea.
  destruct (Shape_lookup _ _ _ _ Hsha Hi) as (c & Hc & Heqc).
  pose proof Heqc as Hfc.
  apply frozen_fields in Hfc as (_ & _ & _ & Hdt & _).
  assert (connectOuter th sta i
          = fold_left (connectInner th i) (seq 0 (length (nodes sta))) sta)
    as Hout.
  { unfold connectOuter. by rewrite Hc, Hdt, Hty. }
  rewrite Hout.
  destruct (connectInner_fold_link N th i j p t sta Hsha Hnd Hi Hj Hl)
    as ((stroke & Heb) & (ci & Hci & Hval & Hpta) & (cj & Hcj & Hanch)).
  set (stb := fold_left (connectInner th i) (seq 0 (length (nodes sta))) sta)
    in *.
  assert (Shape N stb) as Hshb by (by apply Shape_inner_fold).
  set (rest := seq (S i) (length N - S i)).
  destruct (connectOuter_fold_edges N th rest stb Hshb)
    as (newc & Hec & Hfc).
  set (stc := fold_left (connectOuter th) rest stb) in *.
  assert (Shape N stc) as Hshc by (by apply Shape_outer_fold).
  destruct (connectOuter_fold_cell th rest stb i ci Hci)
    as (p' & Hp' & _ & Hkeep).
  destruct (connectOuter_fold_cell th rest stb j cj Hcj)
    as (t' & Ht' & Hkeepa & _).
  destruct (Shape_lookup _ _ _ _ Hshc Hi) as (p2 & Hp2 & Heqp).
  destruct (Shape_lookup _ _ _ _ Hshc Hj) as (t2 & Ht2 & Heqt).
  fold stc in Hp', Ht'.
  assert (p2 = p') as -> by congruence.
  assert (t2 = t') as -> by congruence.
  apply frozen_fields in Heqp as (Hidp & _).
  apply frozen_fields in Heqt as (Hidt & _ & Hadrt & _).
  split; [|split].
  - exists stroke. rewrite Hec, Heb, Hea, !list.filter_app.
    rewrite (filter_none _ newa), (filter_none _ newc).
    + by rewrite filter_cons_True, filter_nil by done.
    + intros e He [Hsrc _].
      apply (proj1 (list.Forall_forall _ _) Hfc) in He
        as (i' & ni' & Hin%elem_of_seq & Hni' & Hsrc').
      assert (i' = i); [|lia].
      apply (NoDup_ids_lookup N i i' p ni' Hnd Hi Hni'). congruence.
    + intros e He [Hsrc _].
      apply (proj1 (list.Forall_forall _ _) Hfa) in He
        as (i' & ni' & Hin%elem_of_seq & Hni' & Hsrc').
      assert (i' = i); [|lia].
      apply (NoDup_ids_lookup N i i' p ni' Hnd Hi Hni'). congruence.
  - exists p'. split; [done|]. split; [done|].
    destruct Hkeep as [Hv Hp].
    { intros Hin%elem_of_seq. lia. }
    split; congruence.
  - exists t'. split; [done|]. split; [done|]. split; [done|].
    by apply Hkeepa.
Qed.

(** ** Memory usage *)

Lemma digit_not_f c : isDigit c = true → negb (Ascii.eqb c "f") = true.
Proof.
  intros H. destruct (Ascii.eqb_spec c "f") as [->|]; [|done].
  by vm_compute in H.
Qed.

Lemma heapNodeId_includes_free k block :
  Js.includes (heapNodeId k block) "free"
  = (negb (isUnallocated block) && isFreeBlock block)%bool.
Proof.
  unfold heapNodeId, generateNodeId, isFreeBlock.
  destruct (isUnallocated block); simpl.
  - apply includes_absent_head. rewrite ?append_cons, ?append_nil. simpl.
    eapply allChars_impl; [apply digit_not_f|apply natToString_digits].
  - destruct (String.eqb _ _); [done|].
    apply includes_absent_head.
    eapply allChars_impl; [apply digit_not_f|apply natToString_digits].
Qed.

Lemma calculateMemoryUsage_acc layer : ∀ acc,
  fold_left
    (fun acc node =>
       if (Js.includes (Node.id node) "free"
           || Js.includes (Node.id node) "unallocated")%bool
       then acc else acc + Node.size node) layer acc
  = acc + calculateMemoryUsage layer.
Proof.
  unfold calculateMemoryUsage.
  induction layer as [|n layer IH]; intros acc; simpl; [lia|].
  set (c := (Js.includes (Node.id n) "free"
             || Js.includes (Node.id n) "unallocated")%bool).
  rewrite (IH (if c then acc else acc + Node.size n)),
    (IH (if c then 0 else 0 + Node.size n)).
  destruct c; lia.
Qed.

(** On the heap layer the usage computed from the node ids is the size
    of the blocks that are neither free nor unallocated. *)
Lemma heap_usage th wh hx stackNodes d heap :
  calculateMemoryUsage
    (heapNodesInner (buildHeap th wh hx stackNodes d heap))
  = liveSize heap.
Proof.
  destruct (buildHeap_facts th wh hx stackNodes d heap) as (_ & Hns & _).
  revert Hns. generalize (heapNodesInner (buildHeap th wh hx stackNodes d heap)).
  generalize 0%nat HEAP_BASE.
  induction heap as [|b heap IH]; intros k a layer Hns; simpl in Hns.
  { by apply Forall2_nil_inv_r in Hns as ->. }
  apply Forall2_cons_inv_r in Hns as (hn & rest & (Hid & _ & Hsz) & Hrest & ->).
  simpl in Hid, Hsz.
  unfold calculateMemoryUsage. simpl fold_left.
  rewrite calculateMemoryUsage_acc, (IH _ _ _ Hrest), Hid, Hsz.
  rewrite heapNodeId_includes_free.
  unfold heapNodeId. rewrite generateNodeId_includes. simpl.
  destruct (isUnallocated b), (isFreeBlock b); simpl; lia.
Qed.




(** ** Empty source *)

(** One pass on an invalid result with an empty stack list, while the
    trimmed source is empty: the heap effect returns at its guard and
    the heap layer is left as it was. *)
Lemma pass_keeps_heap inp st r :
  Js.trim (sourceCode inp) = [] →
  hasValidAnalyzeResponse inp = false →
  analyzeResponse inp = Some r →
  Response.stack r = Some [] →
  ∃ st', pass inp st = Committed st'
         ∧ heapNodes st' = heapNodes st
         ∧ heapConnections st' = heapConnections st
         ∧ (stackNodes st' = [] ∨ stackNodes st' = stackNodes st).
Proof.
  intros Hsrc Hv Hr Hs.
  unfold pass, resetEffect, retainEffect, forcesRebuild, stackEffect,
    heapEffect.
  assert (currentAnalyzeResponse inp st = Some r) as ->.
  { unfold currentAnalyzeResponse, shouldShowLastValidVisualization.
    by rewrite Hsrc, Hr. }
  rewrite Hv. simpl. unfold useStackNodes, useHeapNodes. rewrite Hs.
  destruct (stackDepsChanged inp st), (heapDepsChanged inp st),
    (Response.heap r); simpl; eexists; split; try done; simpl; auto.
Qed.

(** C4 (the code at the failing inputs): a recomputation on an invalid
    result that carries an empty stack list, while the source text is
    empty, leaves the heap nodes and the stack-to-heap edges of the
    previous graph in place. *)
Theorem empty_source_keeps_heap inp st r :
  sourceCode inp = [] →
  hasValidAnalyzeResponse inp = false →
  analyzeResponse inp = Some r →
  Response.stack r = Some [] →
  ∃ st', recompute inp st = Committed st'
         ∧ heapNodes st' = heapNodes st
         ∧ heapConnections st' = heapConnections st.
Proof.
  intros Hsrc Hv Hr Hs.
  assert (Js.trim (sourceCode inp) = []) as Htrim by (by rewrite Hsrc).
  destruct (pass_keeps_heap inp st r Htrim Hv Hr Hs)
    as (st1 & H1 & Hn1 & Hc1 & _).
  destruct (pass_keeps_heap inp st1 r Htrim Hv Hr Hs)
    as (st2 & H2 & Hn2 & Hc2 & _).
  exists st2. unfold recompute. rewrite H1.
  split; [done|]. split; congruence.
Qed.

(** ** Layout of the layers *)

Lemma frozen_geometry a b :
  frozen a = frozen b →
  Node.positionY a = Node.positionY b ∧ Node.height a = Node.height b
  ∧ Node.width a = Node.width b ∧ Node.size a = Node.size b.
Proof.
  unfold frozen, Node.setValue, Node.withExtraInfo. simpl.
  intros H. injection H. intros. repeat split; assumption.
Qed.

Lemma Stacked_frozen wh (l l' : list Node.t) :
  frozen <$> l' = frozen <$> l → Stacked wh l → Stacked wh l'.
Proof.
  intros Hfz (Hfirst & Hnext & Hall). unfold Stacked, nodeBottom in *.
  split; [|split].
  - intros n' Hn'.
    destruct (frozen_lookup _ _ _ _ Hfz Hn') as (n & Hn & Hf).
    apply frozen_geometry in Hf as (-> & -> & _). by apply Hfirst.
  - intros i a' b' Ha' Hb'.
    destruct (frozen_lookup _ _ _ _ Hfz Ha') as (a & Ha & Hfa).
    destruct (frozen_lookup _ _ _ _ Hfz Hb') as (b & Hb & Hfb).
    apply frozen_geometry in Hfa as (-> & _).
    apply frozen_geometry in Hfb as (-> & -> & _). by apply (Hnext i).
  - intros n' Hn'. apply list_elem_of_lookup in Hn' as [i Hi].
    destruct (frozen_lookup _ _ _ _ Hfz Hi) as (n & Hn & Hf).
    apply frozen_geometry in Hf as (_ & -> & -> & ->).
    apply Hall. by apply list_elem_of_lookup_2 in Hn.
Qed.

Lemma Stacked_nil wh : Stacked wh [].
Proof.
  split; [|split]; [by intros n Hn|by intros i a b Ha|].
  intros n Hn. by apply elem_of_nil in Hn.
Qed.

(** A node pushed at the position that [calculateNodePosition] gives
    for its size keeps the layer stacked. *)
Lemma Stacked_snoc wh layer n :
  Stacked wh layer →
  Node.positionY n
  = calculateNodePosition (list.last layer) (Node.size n) wh HEIGHT_OFFSET →
  Node.height n = getHeightFromSize (Node.size n) →
  Node.width n = NODE_WIDTH →
  Stacked wh (layer ++ [n]).
Proof.
  intros (Hfirst & Hnext & Hall) Hy Hh Hw.
  unfold Stacked, nodeBottom, calculateNodePosition, getHeightFromSize in *.
  rewrite last_lookup in Hy.
  split; [|split].
  - intros m Hm. destruct layer as [|a layer].
    + simpl in Hm, Hy. injection Hm as <-. lia.
    + apply Hfirst. simpl in Hm. by simpl.
  - intros i a b Ha Hb.
    destruct (decide (S i < length layer)%nat) as [Hlt|Hge].
    + rewrite lookup_app_l in Ha by lia. rewrite lookup_app_l in Hb by lia.
      by apply (Hnext i).
    + assert (length (layer ++ [n]) = S (length layer)) as Hlen.
      { rewrite length_app. simpl. lia. }
      pose proof (lookup_lt_Some _ _ _ Hb) as Hb'. rewrite Hlen in Hb'.
      assert (S i = length layer) as Hi by lia.
      rewrite lookup_app_l in Ha by lia.
      rewrite Hi, lookup_app_r, Nat.sub_diag in Hb by lia.
      simpl in Hb. injection Hb as <-.
      rewrite <- Hi in Hy. simpl in Hy. rewrite Ha in Hy. lia.
  - intros m Hm. apply elem_of_app in Hm as [Hm|Hm]; [by apply Hall|].
    apply list_elem_of_singleton in Hm as ->. by split.
Qed.

Lemma stackSymbol_stacked wh x acc addr symbol :
  Stacked wh acc → Stacked wh (stackSymbol wh x (acc, addr) symbol).1.
Proof.
  intros Hacc.
  destruct symbol as [name size value vtype|name size value|]; simpl;
    [by apply Stacked_snoc..|done].
Qed.

Lemma buildStackNodes_stacked wh x stack :
  Stacked wh (buildStackNodes wh x stack).
Proof.
  unfold buildStackNodes.
  cut (∀ acc, Stacked wh acc.1 →
         Stacked wh (fold_left (stackSymbol wh x) stack acc).1).
  { intros H. apply H. apply Stacked_nil. }
  induction stack as [|symbol stack IH]; intros [acc addr] Hacc; [done|].
  change (fold_left (stackSymbol wh x) (symbol :: stack) (acc, addr))
    with (fold_left (stackSymbol wh x) stack
            (stackSymbol wh x (acc, addr) symbol)).
  apply IH. by apply stackSymbol_stacked.
Qed.

(** X1: the stack layer is laid out without gaps or overlaps. In the
    nodes set by the effect of [useStackNodes], the first node rests on
    the base line [windowHeight - HEIGHT_OFFSET], every later node
    rests on the upper edge of the node before it, and every node is
    [NODE_WIDTH] wide and [BASE_NODE_HEIGHT] high per unit of size; the
    pointer loop moves no node. *)
Theorem stack_layout resp wh sx th d b :
  useStackNodes resp wh sx th d = Ran b → Stacked wh (nodes b).
Proof.
  unfold useStackNodes. intros H.
  destruct resp as [r|]; [|done].
  destruct (Response.stack r) as [stack|]; [|done].
  injection H as <-.
  eapply Stacked_frozen; [apply connectPointers_frozen|].
  apply buildStackNodes_stacked.
Qed.

(** *** The heap node of a block *)

Lemma connectStackNode_heapNode th block hid st j s :
  cStack st !! j = Some s →
  cHeapNode (connectStackNode th block hid st j)
  = if named block (Node.id s)
    then Node.setTargetPosition Left (cHeapNode st) else cHeapNode st.
Proof.
  intros Hj. unfold connectStackNode. rewrite Hj.
  fold (isCurrentPointer block (Node.id s)).
  fold (isDanglingPointer block (Node.id s)).
  fold (named block (Node.id s)).
  by destruct (named block (Node.id s)).
Qed.

Lemma connect_fold_heapNode th block hid start n :
  (n ≤ length (cStack start))%nat →
  cHeapNode (fold_left (connectStackNode th block hid) (seq 0 n) start)
  = if existsb (named block) (Node.id <$> take n (cStack start))
    then Node.setTargetPosition Left (cHeapNode start)
    else cHeapNode start.
Proof.
  intros Hn. induction n as [|n IH]; [done|].
  rewrite seq_S, fold_left_app. simpl.
  destruct (connect_fold th block hid start n) as (Hstack & _); [lia|].
  set (c := fold_left (connectStackNode th block hid) (seq 0 n) start) in *.
  destruct (lookup_lt_is_Some_2 (cStack start) n) as [s Hs]; [lia|].
  assert (∃ s', cStack c !! n = Some s' ∧ Node.id s' = Node.id s)
    as (s' & Hcs & Hid).
  { exists s. split; [|done]. rewrite Hstack, lookup_app_r.
    - rewrite length_fmap, length_take, Nat.min_l, Nat.sub_diag by lia.
      rewrite lookup_drop. by rewrite Nat.add_0_r.
    - rewrite length_fmap, length_take. lia. }
  rewrite (connectStackNode_heapNode th block hid c n s' Hcs), Hid.
  rewrite IH by lia.
  rewrite (take_S_r _ _ _ Hs), fmap_app, existsb_app. simpl.
  destruct (existsb (named block) (Node.id <$> take n (cStack start)));
    by destruct (named block (Node.id s)).
Qed.

Lemma visit_length block a stack : length (visit block a stack) = length stack.
Proof.
  unfold visit. destruct (isUnallocated block); [done|].
  by rewrite length_fmap.
Qed.

(** The node pushed for a block: where it is placed, whether it has a
    handle for incoming edges, and the colours drawn during the visit. *)
Lemma heapBlock_node th wh hx st block :
  let st' := heapBlock th wh hx st block in
  (∃ hn, heapNodesInner st' = heapNodesInner st ++ [hn]
     ∧ Node.positionY hn
       = calculateNodePosition (list.last (heapNodesInner st))
           (Block.size block) wh HEIGHT_OFFSET
     ∧ Node.height hn = getHeightFromSize (Block.size block)
     ∧ Node.width hn = NODE_WIDTH
     ∧ Node.size hn = Block.size block
     ∧ Node.targetPosition hn
       = if (negb (isUnallocated block)
             && existsb (named block) (Node.id <$> hStack st))%bool
         then Some Left else None)
  ∧ hDraws st'
    = (if isUnallocated block then hDraws st
       else hDraws st + length (hStack st))%nat.
Proof.
  unfold heapBlock, isUnallocated.
  set (hid := generateNodeId _ _ _).
  set (heapNode := Node.Build_t _ _ _ _ _ _ _ _ _ _).
  set (start := Build_Connect _ _ _ _).
  pose proof (generateNodeId_includes (index st)
                (String.eqb (Block.block_state block) "Unallocated")
                (String.eqb (Block.block_state block) "Free")) as Hinc.
  fold hid in Hinc. rewrite Hinc. clear Hinc.
  destruct (String.eqb (Block.block_state block) "Unallocated"); simpl.
  { split; [|done]. exists heapNode. by repeat split. }
  destruct (connect_fold th block hid start (length (hStack st)))
    as (_ & _ & Hdraws & _); [done|].
  pose proof (connect_fold_heapNode th block hid start (length (hStack st)))
    as Hnode.
  simpl in Hdraws, Hnode. rewrite take_ge in Hnode by done.
  split; [|exact Hdraws].
  eexists. split; [done|]. rewrite Hnode by done.
  by destruct (existsb (named block) (Node.id <$> hStack st)).
Qed.

Lemma heap_loop_stacked th wh hx heap : ∀ st,
  Stacked wh (heapNodesInner st) →
  Stacked wh (heapNodesInner (fold_left (heapBlock th wh hx) heap st)).
Proof.
  induction heap as [|block heap IH]; intros st Hst; [done|].
  change (fold_left (heapBlock th wh hx) (block :: heap) st)
    with (fold_left (heapBlock th wh hx) heap (heapBlock th wh hx st block)).
  apply IH.
  destruct (heapBlock_node th wh hx st block)
    as ((hn & -> & Hy & Hh & Hw & Hsz & _) & _).
  apply Stacked_snoc; [done| | |done]; by rewrite Hsz.
Qed.

(** X2: the heap layer is laid out like the stack layer. In the nodes
    built by [useHeapNodes], the first node rests on the base line
    [windowHeight - HEIGHT_OFFSET], every later node rests on the upper
    edge of the node before it, whatever the states of the blocks, and
    every node is [NODE_WIDTH] wide and [BASE_NODE_HEIGHT] high per
    unit of size. *)
Theorem heap_layout resp stackNodes wh hx th d h :
  useHeapNodes resp stackNodes wh hx th d = Ran h →
  Stacked wh (heapNodesInner h).
Proof.
  unfold useHeapNodes. intros H.
  destruct resp as [r|]; [|done].
  destruct (Response.heap r) as [heap|]; [|done].
  destruct (Response.stack r) as [stack|]; [|done].
  destruct (length stack =? 0)%nat; [done|].
  injection H as <-. apply heap_loop_stacked, Stacked_nil.
Qed.

(** ** Names and edges of the stack layer *)

Lemma frozen_ids (l' l : list Node.t) :
  frozen <$> l' = frozen <$> l → Node.id <$> l' = Node.id <$> l.
Proof.
  intros H.
  change (Node.id <$> l') with ((Node.id ∘ frozen) <$> l').
  change (Node.id <$> l) with ((Node.id ∘ frozen) <$> l).
  by rewrite !list_fmap_compose, H.
Qed.

Lemma stackSymbol_ids wh x acc addr symbol :
  Node.id <$> (stackSymbol wh x (acc, addr) symbol).1
  = (Node.id <$> acc) ++ option_list (symbolName symbol).
Proof.
  destruct symbol as [name size value vtype|name size value|]; simpl.
  - by rewrite fmap_app.
  - by rewrite fmap_app.
  - by rewrite app_nil_r.
Qed.

Lemma buildStackNodes_ids wh x stack :
  Node.id <$> buildStackNodes wh x stack = omap symbolName stack.
Proof.
  unfold buildStackNodes.
  cut (∀ acc, Node.id <$> (fold_left (stackSymbol wh x) stack acc).1
              = (Node.id <$> acc.1) ++ omap symbolName stack).
  { intros H. by rewrite H. }
  induction stack as [|symbol stack IH]; intros [acc addr].
  { simpl. by rewrite app_nil_r. }
  change (fold_left (stackSymbol wh x) (symbol :: stack) (acc, addr))
    with (fold_left (stackSymbol wh x) stack
            (stackSymbol wh x (acc, addr) symbol)).
  rewrite IH, stackSymbol_ids, <- app_assoc. f_equal.
  simpl. by destruct (symbolName symbol).
Qed.

(** X3: the stack layer has one node per variable or pointer entry of
    the analysed stack, in the order of the entries, with the name of
    the entry as its id; an entry that is neither a variable nor a
    pointer is skipped without an error. *)
Theorem stack_node_names r stack wh sx th d :
  Response.stack r = Some stack →
  ∃ b, useStackNodes (Some r) wh sx th d = Ran b
       ∧ Node.id <$> nodes b = omap symbolName stack.
Proof.
  intros Hs. unfold useStackNodes. rewrite Hs. eexists. split; [done|].
  rewrite (frozen_ids _ _ (connectPointers_frozen th _ d)).
  apply buildStackNodes_ids.
Qed.

Lemma strictEq_spec s o : strictEq s o = true ↔ o = Some s.
Proof.
  unfold strictEq. destruct o as [s'|]; [|done].
  rewrite String.eqb_eq. split; [by intros ->|congruence].
Qed.

Lemma connectInner_wired N th i st j ni :
  Shape N st → N !! i = Some ni →
  Node.dtype (Node.data ni) = "Pointer" →
  ∃ new, connections (connectInner th i st j) = connections st ++ new
         ∧ Forall (PointerEdge N) new.
Proof.
  intros Hsh Hi Hty.
  destruct (Shape_lookup _ _ _ _ Hsh Hi) as (c & Hc & Heq).
  apply frozen_fields in Heq as (Hid & _ & _ & _ & Hlab & _).
  unfold connectInner. rewrite Hc.
  destruct (nodes st !! j) as [inner|] eqn:Hinner;
    [|exists []; by rewrite app_nil_r].
  destruct (strictEq _ _) eqn:Heq; [|exists []; by rewrite app_nil_r].
  apply strictEq_spec in Heq.
  destruct (frozen_lookup _ _ _ _ Hsh Hinner) as (nj & Hnj & Hfj).
  apply frozen_fields in Hfj as (Hidj & _).
  simpl. eexists. split; [done|]. apply Forall_singleton.
  exists i, j, ni, nj. split; [done|]. split; [done|]. split; [done|].
  split.
  - unfold nodeLabel. by rewrite <- Hlab, Heq, Hidj.
  - eexists. by rewrite Hid, Hidj.
Qed.

Lemma connectInner_fold_wired N th i ni js : ∀ st,
  Shape N st → N !! i = Some ni →
  Node.dtype (Node.data ni) = "Pointer" →
  ∃ new, connections (fold_left (connectInner th i) js st)
         = connections st ++ new
         ∧ Forall (PointerEdge N) new.
Proof.
  induction js as [|j js IH]; intros st Hsh Hi Hty; simpl.
  { exists []. by rewrite app_nil_r. }
  destruct (connectInner_wired N th i st j ni Hsh Hi Hty) as (n1 & H1 & Hf1).
  destruct (IH (connectInner th i st j)) as (n2 & H2 & Hf2);
    [by apply Shape_inner|done|done|].
  exists (n1 ++ n2). rewrite H2, H1, <- app_assoc. split; [done|].
  by apply Forall_app.
Qed.

Lemma connectOuter_fold_wired N th ks : ∀ st,
  Shape N st →
  ∃ new, connections (fold_left (connectOuter th) ks st)
         = connections st ++ new
         ∧ Forall (PointerEdge N) new.
Proof.
  induction ks as [|i ks IH]; intros st Hsh; simpl.
  { exists []. by rewrite app_nil_r. }
  assert (∃ n1, connections (connectOuter th st i) = connections st ++ n1
                ∧ Forall (PointerEdge N) n1) as (n1 & H1 & Hf1).
  { unfold connectOuter.
    destruct (nodes st !! i) as [node|] eqn:Hnode;
      [|exists []; by rewrite app_nil_r].
    destruct (String.eqb _ _) eqn:Hty; [|exists []; by rewrite app_nil_r].
    apply String.eqb_eq in Hty.
    destruct (frozen_lookup _ _ _ _ Hsh Hnode) as (ni & Hni & Hf).
    apply frozen_fields in Hf as (_ & _ & _ & Hdt & _).
    apply (connectInner_fold_wired N th i ni); [done|done|congruence]. }
  destruct (IH (connectOuter th st i)) as (n2 & H2 & Hf2).
  { unfold Shape. by rewrite connectOuter_frozen. }
  exists (n1 ++ n2). rewrite H2, H1, <- app_assoc. split; [done|].
  by apply Forall_app.
Qed.

(** X4: the edges of the stack layer are well formed. Every edge queued
    by the pointer loop leaves a node of type [Pointer] of the layer and
    reaches the node of the layer whose id is the pointer's target name;
    its id is [e<source>-<target>] and its type is [step]. No edge
    leaves a variable, and no edge names a node that is not drawn. *)
Theorem stack_edges_well_formed th N d e :
  e ∈ connections (connectPointers th N d) →
  ∃ i j p t,
    N !! i = Some p ∧ N !! j = Some t
    ∧ Node.dtype (Node.data p) = "Pointer"
    ∧ Node.pointingToLabel (Node.extraInfo (Node.data p)) = Some (Node.id t)
    ∧ Edge.source e = Node.id p ∧ Edge.target e = Node.id t
    ∧ Edge.id e = "e" +:+ Node.id p +:+ "-" +:+ Node.id t
    ∧ Edge.type e = "step".
Proof.
  intros He. unfold connectPointers in He.
  destruct (connectOuter_fold_wired N th (seq 0 (length N))
              {| nodes := N; connections := []; draws := d |})
    as (new & Hnew & Hall); [done|].
  rewrite Hnew in He. simpl in He.
  rewrite list.Forall_forall in Hall.
  destruct (Hall e He) as (i & j & p & t & Hi & Hj & Hty & Hlab & stroke & ->).
  exists i, j, p, t. by repeat split.
Qed.

Lemma connectInner_draws th i st j :
  (draws (connectInner th i st j) + length (connections st)
   = draws st + length (connections (connectInner th i st j)))%nat.
Proof.
  unfold connectInner.
  destruct (nodes st !! i) as [node|]; [|done].
  destruct (nodes st !! j) as [inner|]; [|done].
  destruct (strictEq _ _); [|done]. simpl.
  rewrite length_app. simpl. lia.
Qed.

Lemma connectInner_fold_draws th i js : ∀ st,
  (draws (fold_left (connectInner th i) js st) + length (connections st)
   = draws st
     + length (connections (fold_left (connectInner th i) js st)))%nat.
Proof.
  induction js as [|j js IH]; intros st; simpl; [done|].
  pose proof (IH (connectInner th i st j)) as H.
  pose proof (connectInner_draws th i st j) as H'. lia.
Qed.

Lemma connectOuter_fold_draws th ks : ∀ st,
  (draws (fold_left (connectOuter th) ks st) + length (connections st)
   = draws st
     + length (connections (fold_left (connectOuter th) ks st)))%nat.
Proof.
  induction ks as [|i ks IH]; intros st; simpl; [done|].
  pose proof (IH (connectOuter th st i)) as H.
  assert (draws (connectOuter th st i) + length (connections st)
          = draws st + length (connections (connectOuter th st i)))%nat
    as H'.
  { unfold connectOuter.
    destruct (nodes st !! i) as [node|]; [|done].
    destruct (String.eqb _ _); [|done].
    apply connectInner_fold_draws. }
  lia.
Qed.

(** X22: the stack builder draws one colour per edge. The number of
    colours drawn by the pointer loop is the number of edges it queues,
    so a stack without a resolved pointer draws none. *)
Theorem stack_draws th N d :
  draws (connectPointers th N d)
  = (d + length (connections (connectPointers th N d)))%nat.
Proof.
  unfold connectPointers.
  pose proof (connectOuter_fold_draws th (seq 0 (length N))
                {| nodes := N; connections := []; draws := d |}) as H.
  simpl in H. lia.
Qed.

(** *** Nodes with nothing to resolve *)

Lemma connectInner_unresolved N th i st j ni :
  Shape N st → N !! i = Some ni →
  (∀ t, t ∈ N → nodeLabel ni ≠ Some (Node.id t)) →
  connectInner th i st j = st.
Proof.
  intros Hsh Hi Hun.
  destruct (Shape_lookup _ _ _ _ Hsh Hi) as (c & Hc & Heq).
  apply frozen_fields in Heq as (_ & _ & _ & _ & Hlab & _).
  unfold connectInner. rewrite Hc.
  destruct (nodes st !! j) as [inner|] eqn:Hj; [|done].
  destruct (strictEq _ _) eqn:Hs; [|done].
  apply strictEq_spec in Hs.
  destruct (frozen_lookup _ _ _ _ Hsh Hj) as (nj & Hnj & Hfj).
  apply frozen_fields in Hfj as (Hidj & _).
  exfalso. apply (Hun nj); [by apply list_elem_of_lookup_2 in Hnj|].
  unfold nodeLabel. by rewrite <- Hlab, Hs, Hidj.
Qed.

Lemma connectOuter_unresolved N th st i ni :
  Shape N st → N !! i = Some ni → Unresolved N ni →
  connectOuter th st i = st.
Proof.
  intros Hsh Hi Hun.
  destruct (Shape_lookup _ _ _ _ Hsh Hi) as (c & Hc & Heq).
  apply frozen_fields in Heq as (_ & _ & _ & Hdt & _).
  unfold connectOuter. rewrite Hc.
  destruct (String.eqb _ _) eqn:Hty; [|done].
  apply String.eqb_eq in Hty.
  destruct Hun as [Hun|Hun]; [congruence|].
  generalize (seq 0 (length (nodes st))). intros js.
  induction js as [|j js IH]; [done|]. simpl.
  by rewrite (connectInner_unresolved N th i st j ni).
Qed.

Lemma connectOuter_fold_unresolved N th m n ks : ∀ st c,
  Shape N st → N !! m = Some n → Unresolved N n →
  nodes st !! m = Some c →
  ∃ c', nodes (fold_left (connectOuter th) ks st) !! m = Some c'
        ∧ Node.value (Node.data c') = Node.value (Node.data c)
        ∧ nodePointingToAddress c' = nodePointingToAddress c.
Proof.
  induction ks as [|i ks IH]; intros st c Hsh Hm Hun Hc; simpl;
    [by eauto|].
  destruct (decide (i = m)) as [->|Hne].
  { rewrite (connectOuter_unresolved N th st m n) by done. by apply IH. }
  destruct (connectOuter_cell th st i m c Hc) as (c1 & Hc1 & _ & Hv1).
  destruct (Hv1 ltac:(done)) as (Hval & Hpta).
  destruct (IH (connectOuter th st i) c1) as (c' & Hc' & Hval' & Hpta');
    [|done|done|done|].
  { unfold Shape. by rewrite connectOuter_frozen. }
  exists c'. split; [done|]. split; congruence.
Qed.

(** X5: the pointer loop leaves alone what it cannot resolve. A node
    that is not of type [Pointer], and a pointer whose target name is
    absent or is the id of no node of the layer, ends the loop with the
    id, the value and the target address it was built with; so a
    variable keeps its displayed value and an unresolved pointer keeps
    an empty value and no target address. *)
Theorem unresolved_node_keeps_value th N d i n :
  N !! i = Some n → Unresolved N n →
  ∃ n', nodes (connectPointers th N d) !! i = Some n'
        ∧ Node.id n' = Node.id n
        ∧ Node.value (Node.data n') = Node.value (Node.data n)
        ∧ Node.pointingToAddress (Node.extraInfo (Node.data n'))
          = Node.pointingToAddress (Node.extraInfo (Node.data n)).
Proof.
  intros Hi Hun. unfold connectPointers.
  destruct (connectOuter_fold_unresolved N th i n (seq 0 (length N))
              {| nodes := N; connections := []; draws := d |} n)
    as (n' & Hn' & Hval & Hpta); [done..|].
  exists n'. split; [done|]. split; [|done].
  pose proof (connectOuter_fold_frozen th (seq 0 (length N))
                {| nodes := N; connections := []; draws := d |}) as Hfz.
  destruct (frozen_lookup _ _ _ _ Hfz Hn') as (n0 & Hn0 & Hf).
  simpl in Hn0. assert (n0 = n) as -> by congruence.
  by apply frozen_fields in Hf as (? & _).
Qed.

(** ** Ids, edges and handles of the heap layer *)

Lemma placed_length heap : ∀ k a, length (placed k a heap) = length heap.
Proof.
  induction heap as [|b heap IH]; intros k a; simpl; [done|].
  by rewrite IH.
Qed.

Lemma heap_node_block th wh hx stackNodes d heap k hn :
  heapNodesInner (buildHeap th wh hx stackNodes d heap) !! k = Some hn →
  ∃ block, heap !! k = Some block ∧ Node.id hn = heapNodeId k block.
Proof.
  intros Hk.
  destruct (buildHeap_facts th wh hx stackNodes d heap) as (_ & Hnodes & _).
  pose proof Hnodes as Hlen. apply Forall2_length in Hlen.
  rewrite placed_length in Hlen.
  destruct (lookup_lt_is_Some_2 heap k) as [block Hb].
  { rewrite <- Hlen. by eapply lookup_lt_Some. }
  exists block. split; [done|].
  destruct (heap_node_at th wh hx stackNodes d heap k block Hb)
    as (hn' & Hhn' & Hid & _).
  congruence.
Qed.

(** X6: the heap layer has one node per block, and the ids of its nodes
    are pairwise distinct, whatever the states of the blocks. *)
Theorem heap_ids_distinct th wh hx stackNodes d heap :
  let h := buildHeap th wh hx stackNodes d heap in
  length (heapNodesInner h) = length heap
  ∧ NoDup (Node.id <$> heapNodesInner h).
Proof.
  intros h. split.
  - destruct (buildHeap_facts th wh hx stackNodes d heap) as (_ & Hnodes & _).
    apply Forall2_length in Hnodes. by rewrite placed_length in Hnodes.
  - apply NoDup_alt. intros i j x Hi Hj.
    rewrite list_lookup_fmap in Hi, Hj.
    destruct (heapNodesInner h !! i) as [ni|] eqn:Hni; [|done].
    destruct (heapNodesInner h !! j) as [nj|] eqn:Hnj; [|done].
    simpl in Hi, Hj.
    destruct (heap_node_block _ _ _ _ _ _ _ _ Hni) as (bi & _ & Hidi).
    destruct (heap_node_block _ _ _ _ _ _ _ _ Hnj) as (bj & _ & Hidj).
    apply (generateNodeId_inj i (isUnallocated bi)
             (String.eqb (Block.block_state bi) "Free")
             j (isUnallocated bj)
             (String.eqb (Block.block_state bj) "Free")).
    unfold heapNodeId in Hidi, Hidj. congruence.
Qed.

(** X7: the edges of the heap layer are well formed. Every edge queued
    by the heap builder leaves a stack node and reaches the heap node of
    a block that is not [Unallocated] and that names the stack node as
    its current pointer or among its dangling pointers; its id is
    [e<source>-<target>] and its type is [straight]. No edge reaches an
    unallocated block, and none names a node that is not drawn. *)
Theorem heap_edges_well_formed th wh hx stackNodes d heap e :
  let h := buildHeap th wh hx stackNodes d heap in
  e ∈ connectionsInner h →
  ∃ k block hn s,
    heap !! k = Some block
    ∧ Block.block_state block ≠ "Unallocated"
    ∧ heapNodesInner h !! k = Some hn
    ∧ s ∈ stackNodes
    ∧ (Block.current_pointer_identifier block = Some (Node.id s)
       ∨ ∃ ids, Block.dangling_pointer_identifiers block = Some ids
                ∧ Node.id s ∈ ids)
    ∧ Edge.source e = Node.id s ∧ Edge.target e = Node.id hn
    ∧ Edge.id e = "e" +:+ Node.id s +:+ "-" +:+ Node.id hn
    ∧ Edge.type e = "straight".
Proof.
  intros h He.
  destruct (edge_origin th wh hx stackNodes d heap e He)
    as (k & block & Hk & Hun & Hnamed & Hsrc & Hat).
  destruct (heap_node_at th wh hx stackNodes d heap k block Hk)
    as (hn & Hhn & Hid & _).
  apply list_elem_of_fmap in Hsrc as (s & Hs & Hin).
  apply EdgeAt_fields in Hat as (_ & Htgt & Heid & Hty & _).
  simpl in Htgt, Heid.
  exists k, block, hn, s.
  split; [done|]. split.
  { unfold isUnallocated in Hun. by apply String.eqb_neq in Hun. }
  split; [done|]. split; [done|]. split.
  { unfold named in Hnamed. apply orb_true_iff in Hnamed as [Hc|Hd].
    - left. apply isCurrentPointer_spec in Hc. by rewrite <- Hs.
    - right. apply isDanglingPointer_spec in Hd. by rewrite <- Hs. }
  split; [done|]. rewrite Hid. split; [done|]. split; [|done].
  by rewrite <- Hs.
Qed.

(** *** What the heap builder writes on the stack nodes *)

Lemma relinked_refl a : relinked a a.
Proof.
  exists (Node.pointingToAddress (Node.extraInfo (Node.data a))),
         (Node.metadata (Node.extraInfo (Node.data a))).
  by destruct a as [? ? ? ? ? ? [? ? ? ? ? []] ? ? ?].
Qed.

Lemma relinked_trans a b c : relinked a b → relinked b c → relinked a c.
Proof. intros (p1 & m1 & ->) (p2 & m2 & ->). by exists p2, m2. Qed.

Lemma touch_relinked block a s : relinked s (touch block a s).
Proof.
  unfold touch. destruct (named block (Node.id s)); [|apply relinked_refl].
  destruct (isDanglingPointer block (Node.id s)).
  - by exists (Some a), (Some "Dangling Pointer").
  - by exists (Some a), (Node.metadata (Node.extraInfo (Node.data s))).
Qed.

Lemma Forall2_diag {A} (R : A → A → Prop) (l : list A) :
  (∀ x, R x x) → Forall2 R l l.
Proof. intros HR. induction l; by constructor. Qed.

Lemma Forall2_chain {A} (R : A → A → Prop) (l1 l2 l3 : list A) :
  (∀ x y z, R x y → R y z → R x z) →
  Forall2 R l1 l2 → Forall2 R l2 l3 → Forall2 R l1 l3.
Proof.
  intros HR H12. revert l3.
  induction H12 as [|x y l1 l2 Hxy _ IH]; intros l3 H23;
    inversion H23; subst; constructor; eauto.
Qed.

Lemma visit_relinked block a stack :
  Forall2 relinked stack (visit block a stack).
Proof.
  unfold visit. destruct (isUnallocated block).
  - apply Forall2_diag, relinked_refl.
  - apply Forall2_fmap_r.
    induction stack; constructor; [apply touch_relinked|done].
Qed.

Lemma visits_relinked heap : ∀ a stack,
  Forall2 relinked stack (visits a heap stack).
Proof.
  induction heap as [|b heap IH]; intros a stack; simpl.
  - apply Forall2_diag, relinked_refl.
  - eapply Forall2_chain; [apply relinked_trans|apply visit_relinked|].
    apply IH.
Qed.

(** X8: the heap builder writes two fields of the stack nodes and
    nothing else. After the visits of the blocks the stack nodes are the
    same in number and order, and each is the node it was up to
    [pointingToAddress] and [metadata]: no id, position, size, address,
    label, value or anchor of a stack node is changed. *)
Theorem heap_pass_relinks_only th wh hx stackNodes d heap :
  Forall2 relinked stackNodes
    (hStack (buildHeap th wh hx stackNodes d heap)).
Proof.
  destruct (buildHeap_facts th wh hx stackNodes d heap) as (-> & _).
  apply visits_relinked.
Qed.

(** X9: a stack node that no scanned block names is left exactly as it
    was. If no block other than the [Unallocated] ones has the node's
    id as its current pointer or among its dangling pointers, the node
    is unchanged after the heap builder has run; in particular an
    unallocated block never writes a stack node that it names. *)
Theorem unnamed_stack_node_untouched th wh hx stackNodes d heap j s :
  stackNodes !! j = Some s →
  (∀ b, b ∈ heap → Block.block_state b ≠ "Unallocated" →
        Block.current_pointer_identifier b ≠ Some (Node.id s)
        ∧ ∀ ids, Block.dangling_pointer_identifiers b = Some ids →
                 Node.id s ∉ ids) →
  hStack (buildHeap th wh hx stackNodes d heap) !! j = Some s.
Proof.
  intros Hj Hfree.
  destruct (buildHeap_facts th wh hx stackNodes d heap) as (-> & _).
  destruct (visits_lookup heap HEAP_BASE stackNodes j s Hj)
    as (s' & Hs' & _ & _ & Hsame).
  rewrite Hs'. f_equal. apply Hsame.
  intros b Hb Hun.
  destruct (Hfree b Hb) as (Hc & Hd).
  { unfold isUnallocated in Hun. by apply String.eqb_neq in Hun. }
  by apply named_false.
Qed.

(** *** Colours drawn and handles set by the heap builder *)

Lemma heap_loop_draws th wh hx heap : ∀ st,
  hDraws (fold_left (heapBlock th wh hx) heap st)
  = (hDraws st + length (scanned heap) * length (hStack st))%nat.
Proof.
  induction heap as [|block heap IH]; intros st; [simpl; lia|].
  change (fold_left (heapBlock th wh hx) (block :: heap) st)
    with (fold_left (heapBlock th wh hx) heap (heapBlock th wh hx st block)).
  rewrite IH.
  destruct (heapBlock_node th wh hx st block) as (_ & ->).
  destruct (heapBlock_step th wh hx st block) as (_ & _ & -> & _).
  rewrite visit_length. unfold scanned. rewrite filter_cons.
  destruct (isUnallocated block); case_decide; try done; simpl; lia.
Qed.

(** X10: the heap builder draws one colour for every pair of a block
    that is not [Unallocated] and a stack node, whether or not the pair
    gets an edge: the number of colours drawn grows by the number of
    such blocks times the number of stack nodes. *)
Theorem heap_draws th wh hx stackNodes d heap :
  hDraws (buildHeap th wh hx stackNodes d heap)
  = (d + length (scanned heap) * length stackNodes)%nat.
Proof. unfold buildHeap. by rewrite heap_loop_draws. Qed.

Lemma heap_loop_handles th wh hx heap : ∀ st,
  ∃ new,
    heapNodesInner (fold_left (heapBlock th wh hx) heap st)
    = heapNodesInner st ++ new
    ∧ Forall2
        (fun hn block =>
           Node.targetPosition hn
           = if (negb (isUnallocated block)
                 && existsb (named block) (Node.id <$> hStack st))%bool
             then Some Left else None)
        new heap.
Proof.
  induction heap as [|block heap IH]; intros st.
  { exists []. by rewrite app_nil_r. }
  change (fold_left (heapBlock th wh hx) (block :: heap) st)
    with (fold_left (heapBlock th wh hx) heap (heapBlock th wh hx st block)).
  destruct (IH (heapBlock th wh hx st block)) as (new & Hnew & Hall).
  destruct (heapBlock_node th wh hx st block)
    as ((hn & Hhn & _ & _ & _ & _ & Htp) & _).
  destruct (heapBlock_step th wh hx st block) as (_ & _ & Hs & _).
  rewrite Hs, visit_ids in Hall.
  exists (hn :: new). rewrite Hnew, Hhn, <- app_assoc. split; [done|].
  by constructor.
Qed.

Lemma existsb_named block (ids : list string) :
  existsb (named block) ids = true ↔ ∃ sid, sid ∈ ids ∧ named block sid = true.
Proof.
  rewrite existsb_exists. split; intros (sid & Hin & Hn); exists sid.
  - by rewrite list_elem_of_In.
  - by rewrite <- list_elem_of_In.
Qed.

(** X11: a heap node has a handle for incoming edges exactly when an
    edge reaches it. The node of a block has its target handle on the
    left when some edge of the heap layer has it as target, and has no
    target handle when no edge does. *)
Theorem heap_handle_iff_edge th wh hx stackNodes d heap k hn :
  let h := buildHeap th wh hx stackNodes d heap in
  heapNodesInner h !! k = Some hn →
  (Node.targetPosition hn = Some Left
   ∧ ∃ e, e ∈ connectionsInner h ∧ Edge.target e = Node.id hn)
  ∨ (Node.targetPosition hn = None
     ∧ ∀ e, e ∈ connectionsInner h → Edge.target e ≠ Node.id hn).
Proof.
  intros h Hk.
  destruct (heap_node_block th wh hx stackNodes d heap k hn Hk)
    as (block & Hb & Hid).
  destruct (heap_loop_handles th wh hx heap
              {| hStack := stackNodes; heapNodesInner := [];
                 connectionsInner := []; index := 0; address := HEAP_BASE;
                 hDraws := d |}) as (new & Hnew & Hall).
  simpl in Hnew, Hall. fold (buildHeap th wh hx stackNodes d heap) in Hnew.
  fold h in Hnew. rewrite Hnew in Hk.
  destruct (Forall2_lookup_l _ _ _ _ _ Hall Hk) as (block' & Hb' & Htp).
  assert (block' = block) as -> by congruence. clear Hb'.
  destruct (buildHeap_facts th wh hx stackNodes d heap) as (_ & _ & Hedges).
  fold h in Hedges.
  destruct (negb (isUnallocated block)
            && existsb (named block) (Node.id <$> stackNodes))%bool eqn:Hc.
  - left. split; [done|].
    apply andb_true_iff in Hc as (Hun & Hex).
    apply negb_true_iff in Hun.
    apply existsb_named in Hex as (sid & Hin & Hnamed).
    assert ((block, heapNodeId k block, sid)
            ∈ expected (Node.id <$> stackNodes) 0 heap) as Hslot.
    { apply expected_elem. by exists k, block, sid. }
    apply list_elem_of_lookup in Hslot as (n & Hn).
    destruct (Forall2_lookup_r _ _ _ _ _ Hedges Hn) as (e & He & Hat).
    exists e. split; [by apply list_elem_of_lookup_2 in He|].
    apply EdgeAt_fields in Hat as (_ & Htgt & _). by rewrite Hid.
  - right. split; [done|]. intros e He Htgt.
    destruct (edge_origin th wh hx stackNodes d heap e He)
      as (k' & block' & Hk' & Hun & Hnamed & Hsrc & Hat).
    apply EdgeAt_fields in Hat as (_ & Htgt' & _). simpl in Htgt'.
    assert (k' = k) as ->.
    { apply (generateNodeId_inj k' (isUnallocated block')
               (String.eqb (Block.block_state block') "Free")
               k (isUnallocated block)
               (String.eqb (Block.block_state block) "Free")).
      unfold heapNodeId in Htgt', Hid. congruence. }
    assert (block' = block) as -> by congruence.
    rewrite Hun in Hc. simpl in Hc.
    assert (existsb (named block) (Node.id <$> stackNodes) = true) as Hex.
    { apply existsb_named. by exists (Edge.source e). }
    congruence.
Qed.

(** ** Memory usage, addresses and ids *)

(** X12: on the heap layer the memory usage is the live size. For the
    nodes set by the effect of [useHeapNodes], [calculateMemoryUsage]
    returns the sum of the sizes of the blocks that are neither [Free]
    nor [Unallocated]: on ids made by [generateNodeId] the test on the
    id text decides the state of the block. *)
Theorem heap_usage_is_live_size r stack heap stackNodes wh hx th d h :
  Response.stack r = Some stack →
  Response.heap r = Some heap →
  useHeapNodes (Some r) stackNodes wh hx th d = Ran h →
  calculateMemoryUsage (heapNodesInner h) = liveSize heap.
Proof.
  intros Hs Hh. unfold useHeapNodes. rewrite Hh, Hs.
  destruct (length stack =? 0)%nat; [done|].
  intros H. injection H as <-. apply heap_usage.
Qed.

(** X13: the memory usage of a layer is never negative and never more
    than the sum of the sizes of its nodes, provided no node has a
    negative size. *)
Theorem usage_bounds layer :
  Forall (fun n => 0 ≤ Node.size n) layer →
  0 ≤ calculateMemoryUsage layer ≤ sizeSum layer.
Proof.
  induction 1 as [|n layer Hn _ IH]; [done|].
  unfold calculateMemoryUsage. simpl fold_left.
  rewrite calculateMemoryUsage_acc. simpl.
  destruct (Js.includes (Node.id n) "free"
            || Js.includes (Node.id n) "unallocated")%bool; lia.
Qed.

(** X14: distinct addresses are rendered as distinct texts:
    [formatAddress] is injective on the non-negative integers. *)
Theorem formatAddress_inj a b :
  0 ≤ a → 0 ≤ b → formatAddress a = formatAddress b → a = b.
Proof.
  intros Ha Hb H.
  pose proof (addressValue_formatAddress a Ha) as Hva.
  pose proof (addressValue_formatAddress b Hb) as Hvb.
  rewrite H in Hva. congruence.
Qed.

Lemma generateNodeId_includes_free k u f :
  Js.includes (generateNodeId k u f) "free" = (negb u && f)%bool.
Proof.
  unfold generateNodeId. destruct u; simpl.
  - apply includes_absent_head. rewrite ?append_cons, ?append_nil. simpl.
    eapply allChars_impl; [apply digit_not_f|apply natToString_digits].
  - destruct f; [done|].
    apply includes_absent_head.
    eapply allChars_impl; [apply digit_not_f|apply natToString_digits].
Qed.

(** X15: the id made by [generateNodeId] can be decoded. It contains
    [unallocated] exactly when the block is unallocated and [free]
    exactly when the block is free and not unallocated, which are the
    two tests of [calculateMemoryUsage] and of the heap builder; and two
    equal ids come from the same index, the same unallocated flag and,
    unless unallocated, the same free flag. *)
Theorem node_id_decodes k u f k' u' f' :
  Js.includes (generateNodeId k u f) "unallocated" = u
  ∧ Js.includes (generateNodeId k u f) "free" = (negb u && f)%bool
  ∧ (generateNodeId k u f = generateNodeId k' u' f' →
     k = k' ∧ u = u' ∧ (u = false → f = f')).
Proof.
  split; [apply generateNodeId_includes|].
  split; [apply generateNodeId_includes_free|].
  intros H. split; [by apply generateNodeId_inj in H|].
  pose proof (generateNodeId_includes k u f) as Hu.
  pose proof (generateNodeId_includes k' u' f') as Hu'.
  pose proof (generateNodeId_includes_free k u f) as Hf.
  pose proof (generateNodeId_includes_free k' u' f') as Hf'.
  rewrite H in Hu, Hf.
  assert (u = u') as <- by congruence. split; [done|].
  intros ->. simpl in Hf, Hf'. congruence.
Qed.

(** ** Labels of the layers *)

Lemma topNode_fold layer : ∀ first,
  let top :=
    fold_left
      (fun topNode node =>
         if Node.positionY node <? Node.positionY topNode
         then node else topNode)
      layer first in
  (top = first ∨ top ∈ layer)
  ∧ Node.positionY top ≤ Node.positionY first
  ∧ ∀ n, n ∈ layer → Node.positionY top ≤ Node.positionY n.
Proof.
  induction layer as [|x layer IH]; intros first; simpl.
  { split; [by left|]. split; [lia|]. intros n Hn.
    by apply elem_of_nil in Hn. }
  destruct (IH (if Node.positionY x <? Node.positionY first
                then x else first)) as (Hin & Hle & Hall).
  destruct (Z.ltb_spec (Node.positionY x) (Node.positionY first)) as [Hlt|Hge].
  - split; [right; destruct Hin as [->|Hin]; [by left|by right]|].
    split; [lia|]. intros n [->|Hn]%elem_of_cons; [done|by apply Hall].
  - split; [destruct Hin as [->|Hin]; [by left|right; by right]|].
    split; [done|]. intros n [->|Hn]%elem_of_cons; [lia|by apply Hall].
Qed.

Lemma topNode_spec layer :
  match topNode layer with
  | None => layer = []
  | Some top =>
      top ∈ layer ∧ ∀ n, n ∈ layer → Node.positionY top ≤ Node.positionY n
  end.
Proof.
  unfold topNode. destruct layer as [|first rest]; [done|].
  destruct (topNode_fold (first :: rest) first) as (Hin & _ & Hall).
  split; [|done]. destruct Hin as [->|Hin]; [by left|done].
Qed.

Lemma layerLabel_spec id text x layer l :
  LabelNode l ∈ layerLabel id text x layer →
  lid l = id ∧ ltext l = text
  ∧ (∃ n, n ∈ layer ∧ ly l = Node.positionY n - 50)
  ∧ ∀ n, n ∈ layer → ly l + 50 ≤ Node.positionY n.
Proof.
  unfold layerLabel. pose proof (topNode_spec layer) as H.
  destruct (topNode layer) as [top|]; [|by intros ?%elem_of_nil].
  destruct H as (Hin & Hall).
  intros Hl%list_elem_of_singleton. injection Hl as ->. simpl.
  split; [done|]. split; [done|]. split; [by exists top|].
  intros n Hn. specialize (Hall n Hn). lia.
Qed.

Lemma layerLabel_some id text x layer :
  layer ≠ [] → ∃ l, LabelNode l ∈ layerLabel id text x layer ∧ lid l = id.
Proof.
  intros Hne. unfold layerLabel. pose proof (topNode_spec layer) as H.
  destruct (topNode layer) as [top|]; [|done].
  eexists. split; [by apply list_elem_of_singleton|done].
Qed.

Lemma label_not_block l (layer : list Node.t) :
  LabelNode l ∉ MemoryBlock <$> layer.
Proof. by intros (n & Hn & _)%list_elem_of_fmap. Qed.

(** X16: the labels of the emitted graph sit above their layers. Every
    label node of the graph is the [Stack] label or the [Heap] label;
    it lies 50 above a node of its layer and at least 50 above every
    node of that layer; and each layer that has a node has its label,
    so a layer without nodes is the only one without a label. *)
Theorem labels_above_layers inp st :
  (∀ l, LabelNode l ∈ graphNodes (emittedGraph inp st) →
     (lid l = "stack-label" ∧ ltext l = "Stack"
      ∧ (∃ n, n ∈ stackNodes st ∧ ly l = Node.positionY n - 50)
      ∧ ∀ n, n ∈ stackNodes st → ly l + 50 ≤ Node.positionY n)
     ∨ (lid l = "heap-label" ∧ ltext l = "Heap"
        ∧ (∃ n, n ∈ heapNodes st ∧ ly l = Node.positionY n - 50)
        ∧ ∀ n, n ∈ heapNodes st → ly l + 50 ≤ Node.positionY n))
  ∧ (stackNodes st ≠ [] →
     ∃ l, LabelNode l ∈ graphNodes (emittedGraph inp st)
          ∧ lid l = "stack-label")
  ∧ (heapNodes st ≠ [] →
     ∃ l, LabelNode l ∈ graphNodes (emittedGraph inp st)
          ∧ lid l = "heap-label").
Proof.
  unfold emittedGraph, labelNodes. simpl. split; [|split].
  - intros l Hl. rewrite !elem_of_app in Hl.
    destruct Hl as [Hl|[Hl|[Hl|Hl]]].
    + by apply label_not_block in Hl.
    + by apply label_not_block in Hl.
    + left. by apply layerLabel_spec in Hl.
    + right. by apply layerLabel_spec in Hl.
  - intros Hne.
    destruct (layerLabel_some "stack-label" "Stack" (stackXCoordinate inp)
                (stackNodes st) Hne) as (l & Hl & Hid).
    exists l. split; [|done]. rewrite !elem_of_app. by right; right; left.
  - intros Hne.
    destruct (layerLabel_some "heap-label" "Heap" (heapXCoordinate inp)
                (heapNodes st) Hne) as (l & Hl & Hid).
    exists l. split; [|done]. rewrite !elem_of_app. by right; right; right.
Qed.

(** ** The render loop on any input *)

(** X17: the render loop comes to rest. Whatever the input and the
    state, once a recomputation (a pass and the pass that React runs
    after it) has committed, a further pass or recomputation on the same
    input commits the same state: no effect keeps setting state, so the
    component cannot re-render forever. *)
Theorem render_loop_settles inp st st' :
  recompute inp st = Committed st' →
  pass inp st' = Committed st' ∧ recompute inp st' = Committed st'.
Proof.
  intros H. apply recompute_settled in H.
  split; [by apply pass_idle|by apply recompute_idle].
Qed.

Lemma pass_with_stack inp st :
  (∀ r, analyzeResponse inp = Some r → is_Some (Response.stack r)) →
  (∀ r, lastValidAnalyzeResponse st = Some r → is_Some (Response.stack r)) →
  ∃ st', pass inp st = Committed st'
         ∧ ∀ r, lastValidAnalyzeResponse st' = Some r →
                is_Some (Response.stack r).
Proof.
  intros Hin Hlast.
  destruct (pass inp st) as [st'|] eqn:Hpass.
  - exists st'. split; [done|].
    apply pass_facts in Hpass as (-> & _).
    by destruct (hasValidAnalyzeResponse inp).
  - apply pass_crashes_only_without_stack in Hpass
      as (r & heap & Hcur & _ & Hnone).
    unfold currentAnalyzeResponse in Hcur.
    destruct (shouldShowLastValidVisualization inp st).
    + destruct (Hlast r Hcur) as [x Hx]. congruence.
    + destruct (Hin r Hcur) as [x Hx]. congruence.
Qed.

(** X18: on results of the data model, a recomputation throws only
    on a result without a [stack] field. The results meant are those
    that [Response.t] holds: every stack entry is an object with a
    [Variable] record, a [Pointer] record or neither, and every block
    carries its size, its state and its identifier lists. On entries
    outside this model (a [null] entry, a [null] record, a block without
    size, identifiers that are no array) the hooks throw as well, and
    nothing is said about them. If the result received and the result
    retained are of the model and both carry a [stack] field (possibly
    an empty list), the recomputation commits, and the result it
    retains carries one as well. *)
Theorem recompute_commits_with_stack inp st :
  (∀ r, analyzeResponse inp = Some r → is_Some (Response.stack r)) →
  (∀ r, lastValidAnalyzeResponse st = Some r → is_Some (Response.stack r)) →
  ∃ st', recompute inp st = Committed st'
         ∧ ∀ r, lastValidAnalyzeResponse st' = Some r →
                is_Some (Response.stack r).
Proof.
  intros Hin Hlast. unfold recompute.
  destruct (pass_with_stack inp st Hin Hlast) as (st1 & -> & Hlast1).
  apply (pass_with_stack inp st1 Hin Hlast1).
Qed.

(** X19: only a valid result replaces the retained one. After a
    recomputation the retained result is the result received when that
    one is valid (no error, and a stack or heap entry), and is the
    result retained before otherwise: an erroring or empty result never
    displaces it, and rebuilding the layers never clears it. *)
Theorem retained_result inp st st' :
  recompute inp st = Committed st' →
  lastValidAnalyzeResponse st'
  = if hasValidAnalyzeResponse inp then analyzeResponse inp
    else lastValidAnalyzeResponse st.
Proof.
  unfold recompute. intros H.
  destruct (pass inp st) as [st1|] eqn:H1; [|done].
  apply pass_facts in H1 as (H1 & _). apply pass_facts in H as (-> & _).
  rewrite H1. by destruct (hasValidAnalyzeResponse inp).
Qed.

(** ** The first render of a result *)

Lemma hasValid_of_stack inp r stack :
  analyzeResponse inp = Some r → analyzeError inp = false →
  Response.stack r = Some stack → stack ≠ [] →
  hasValidAnalyzeResponse inp = true.
Proof.
  intros Hr He Hs Hne. unfold hasValidAnalyzeResponse.
  rewrite Hr, He, Hs. simpl. by destruct stack.
Qed.

(** X20: at mount, the visualizer composes the two builders. For a
    result without error that has at least one stack entry and a [heap]
    field, the recomputation commits; its stack nodes and edges are
    those of the stack builder, passed through the heap builder; its
    heap nodes and edges are those of the heap builder run on the nodes
    of the stack builder; and the result is retained. *)
Theorem first_render_composes inp r stack heap :
  analyzeResponse inp = Some r → analyzeError inp = false →
  Response.stack r = Some stack → stack ≠ [] →
  Response.heap r = Some heap →
  let b := connectPointers (theme inp)
             (buildStackNodes (windowHeight inp) (stackXCoordinate inp) stack)
             0 in
  let h := buildHeap (theme inp) (windowHeight inp) (heapXCoordinate inp)
             (nodes b) (draws b) heap in
  ∃ st', recompute inp mount = Committed st'
         ∧ stackNodes st' = hStack h
         ∧ stackConnections st' = connections b
         ∧ heapNodes st' = heapNodesInner h
         ∧ heapConnections st' = connectionsInner h
         ∧ lastValidAnalyzeResponse st' = Some r.
Proof.
  intros Hr He Hs Hne Hh b h.
  pose proof (hasValid_of_stack inp r stack Hr He Hs Hne) as Hv.
  assert (∀ st, hasValidAnalyzeResponse inp = true →
                currentAnalyzeResponse inp st = Some r) as Hcur.
  { intros st Hv'. unfold currentAnalyzeResponse,
      shouldShowLastValidVisualization. rewrite Hv', Hr.
    by rewrite andb_false_r. }
  assert ((length stack =? 0)%nat = false) as Hlen.
  { destruct stack; [done|]. done. }
  set (h0 := buildHeap (theme inp) (windowHeight inp) (heapXCoordinate inp)
               [] (draws b) heap).
  assert (hDraws h0 = draws b) as Hd0.
  { unfold h0, buildHeap. rewrite heap_loop_draws. simpl. lia. }
  assert (pass inp mount
          = Committed
              {| stackNodes := nodes b; stackNodesRef := 2;
                 heapNodes := heapNodesInner h0;
                 stackConnections := connections b;
                 heapConnections := connectionsInner h0;
                 lastValidAnalyzeResponse := Some r;
                 stackDeps := Some (stackDepsOf inp mount);
                 heapDeps := Some (heapDepsOf inp mount);
                 nextRef := 3; drawn := hDraws h0 |}) as H1.
  { unfold pass, resetEffect, retainEffect, forcesRebuild, stackEffect,
      heapEffect, stackDepsChanged, heapDepsChanged.
    rewrite Hv, (Hcur mount Hv), Hr. simpl.
    unfold useStackNodes, useHeapNodes. rewrite Hs, Hh, Hlen. simpl.
    done. }
  unfold recompute. rewrite H1.
  set (st1 := Build_State _ _ _ _ _ _ _ _ _ _).
  assert (stackDepsChanged inp st1 = false) as Hsc.
  { unfold stackDepsChanged, st1. simpl. apply negb_false_iff.
    unfold stackDepsOf. rewrite !Hcur by done. apply sameStackDeps_refl. }
  assert (heapDepsChanged inp st1 = true) as Hhc.
  { unfold heapDepsChanged, st1. simpl. apply negb_true_iff.
    unfold sameHeapDeps. simpl.
    by destruct (bool_decide _). }
  assert (forcesRebuild inp st1 = false) as Hfr.
  { unfold forcesRebuild. rewrite Hv, Hr. simpl.
    by rewrite Nat.eqb_refl. }
  unfold pass, resetEffect, retainEffect, stackEffect, heapEffect.
  rewrite Hfr, Hsc, Hhc, Hv, (Hcur st1 Hv). simpl.
  unfold useHeapNodes. rewrite Hh, Hs, Hlen, Hd0.
  eexists. split; [done|]. simpl. by rewrite Hr.
Qed.

Lemma pass_heap_only inp st r heap :
  analyzeResponse inp = Some r → analyzeError inp = false →
  Response.stack r = Some [] →
  Response.heap r = Some heap → heap ≠ [] →
  stackNodes st = [] → stackConnections st = [] →
  heapNodes st = [] → heapConnections st = [] →
  ∃ st', pass inp st = Committed st'
         ∧ stackNodes st' = [] ∧ stackConnections st' = []
         ∧ heapNodes st' = [] ∧ heapConnections st' = []
         ∧ lastValidAnalyzeResponse st' = Some r.
Proof.
  intros Hr He Hs Hh Hne Hsn Hsc Hhn Hhc.
  assert (hasValidAnalyzeResponse inp = true) as Hv.
  { unfold hasValidAnalyzeResponse. rewrite Hr, He, Hs, Hh. simpl.
    by destruct heap. }
  assert (currentAnalyzeResponse inp st = Some r) as Hcur.
  { unfold currentAnalyzeResponse, shouldShowLastValidVisualization.
    rewrite Hv, Hr. by rewrite andb_false_r. }
  unfold pass, resetEffect, retainEffect, stackEffect, heapEffect.
  rewrite Hv, Hcur. unfold useStackNodes, useHeapNodes.
  rewrite Hs, Hh. simpl.
  destruct (forcesRebuild inp st), (stackDepsChanged inp st),
    (heapDepsChanged inp st); simpl;
    eexists; (split; [done|]); simpl; by rewrite ?Hr.
Qed.

(** X21: a result that has heap blocks but no stack entry is valid and
    is retained, yet nothing of it is drawn. The heap builder returns at
    its guard on an empty stack list, so from a state that shows no node
    and no edge (the state at mount, for one) the recomputation leaves
    the emitted graph without any node, label or edge, however many
    blocks the result carries, and once the analysis is over the overlay
    that asks for code is shown over it. *)
Theorem heap_only_result_draws_nothing inp st r heap :
  analyzeResponse inp = Some r → analyzeError inp = false →
  Response.stack r = Some [] →
  Response.heap r = Some heap → heap ≠ [] →
  stackNodes st = [] → stackConnections st = [] →
  heapNodes st = [] → heapConnections st = [] →
  ∃ st', recompute inp st = Committed st'
         ∧ hasValidAnalyzeResponse inp = true
         ∧ lastValidAnalyzeResponse st' = Some r
         ∧ graphNodes (emittedGraph inp st') = []
         ∧ graphEdges (emittedGraph inp st') = []
         ∧ shouldShowOverlay inp st' false = true.
Proof.
  intros Hr He Hs Hh Hne Hsn Hsc Hhn Hhc.
  destruct (pass_heap_only inp st r heap Hr He Hs Hh Hne Hsn Hsc Hhn Hhc)
    as (st1 & H1 & Hsn1 & Hsc1 & Hhn1 & Hhc1 & _).
  destruct (pass_heap_only inp st1 r heap Hr He Hs Hh Hne Hsn1 Hsc1 Hhn1 Hhc1)
    as (st2 & H2 & Hsn2 & Hsc2 & Hhn2 & Hhc2 & Hl2).
  exists st2. unfold recompute. rewrite H1. split; [done|].
  assert (hasValidAnalyzeResponse inp = true) as Hv.
  { unfold hasValidAnalyzeResponse. rewrite Hr, He, Hs, Hh. simpl.
    by destruct heap. }
  split; [done|].
  split; [done|].
  unfold emittedGraph, labelNodes, shouldShowOverlay, hasNoMemoryData,
    shouldShowLastValidVisualization. simpl.
  rewrite Hsn2, Hsc2, Hhn2, Hhc2, Hv. simpl.
  split; [done|]. split; [done|].
  by rewrite andb_false_r, orb_true_r.
Qed.

(** ** Colours of the heap edges *)

Lemma preserveStroke_none edges source target : ∀ stroke,
  Forall (fun e => ¬ (Edge.source e = source ∧ Edge.target e = target))
    edges →
  preserveStroke edges source target stroke = stroke.
Proof.
  unfold preserveStroke.
  induction edges as [|e edges IH]; intros stroke Hall; [done|].
  inversion_clear Hall as [|? ? He Hall']. simpl.
  destruct (String.eqb_spec (Edge.source e) source) as [Hs|Hs];
    destruct (String.eqb_spec (Edge.target e) target) as [Ht|Ht];
    simpl; try by apply IH.
  by destruct He.
Qed.

Lemma connectStackNode_colour th block hid st j s :
  cStack st !! j = Some s → named block (Node.id s) = true →
  Forall (fun e => ¬ (Edge.source e = Node.id s ∧ Edge.target e = hid))
    (cEdges st) →
  cEdges (connectStackNode th block hid st j)
  = cEdges st ++
    [createEdge ("e" +:+ Node.id s +:+ "-" +:+ hid) "straight"
       (Node.id s) hid
       (if isDanglingPointer block (Node.id s) then "red"
        else generateRandomColor th (cDraws st))].
Proof.
  intros Hj Hnamed Hnone. unfold connectStackNode. rewrite Hj.
  fold (isCurrentPointer block (Node.id s)).
  fold (isDanglingPointer block (Node.id s)).
  fold (named block (Node.id s)). rewrite Hnamed. simpl.
  rewrite (preserveStroke_none _ _ _ _ Hnone).
  by destruct (isCurrentPointer block (Node.id s)),
    (isDanglingPointer block (Node.id s)).
Qed.

Lemma connect_fold_colour th block hid start n :
  (n ≤ length (cStack start))%nat →
  NoDup (Node.id <$> cStack start) →
  Forall (fun e => Edge.target e ≠ hid) (cEdges start) →
  let c := fold_left (connectStackNode th block hid) (seq 0 n) start in
  ∃ new,
    cEdges c = cEdges start ++ new
    ∧ Forall
        (fun e =>
           Edge.target e = hid
           ∧ ∃ j s, (j < n)%nat ∧ cStack start !! j = Some s
                    ∧ Edge.source e = Node.id s
                    ∧ Edge.stroke (Edge.style e)
                      = if isDanglingPointer block (Node.id s) then "red"
                        else generateRandomColor th (cDraws start + j))
        new.
Proof.
  intros Hn Hnd Hold. induction n as [|n IH].
  { exists []. by rewrite app_nil_r. }
  rewrite seq_S, fold_left_app. simpl.
  destruct IH as (new & Hedges & Hnew); [lia|].
  destruct (connect_fold th block hid start n)
    as (Hstack & _ & Hdraws & _); [lia|].
  set (c := fold_left (connectStackNode th block hid) (seq 0 n) start) in *.
  destruct (lookup_lt_is_Some_2 (cStack start) n) as [s Hs]; [lia|].
  assert (cStack c !! n = Some s) as Hcs.
  { rewrite Hstack, lookup_app_r.
    - rewrite length_fmap, length_take, Nat.min_l, Nat.sub_diag by lia.
      rewrite lookup_drop. by rewrite Nat.add_0_r.
    - rewrite length_fmap, length_take. lia. }
  destruct (named block (Node.id s)) eqn:Hnamed.
  - rewrite (connectStackNode_colour th block hid c n s Hcs Hnamed).
    + exists (new ++ [createEdge ("e" +:+ Node.id s +:+ "-" +:+ hid)
                        "straight" (Node.id s) hid
                        (if isDanglingPointer block (Node.id s) then "red"
                         else generateRandomColor th (cDraws c))]).
      rewrite Hedges, <- app_assoc. split; [done|].
      apply Forall_app. split.
      * eapply Forall_impl; [|exact Hnew].
        intros e (Ht & j & s' & Hj & Hs' & Hrest).
        split; [done|]. exists j, s'. split; [lia|done].
      * apply Forall_singleton. split; [done|].
        exists n, s. split; [lia|]. split; [done|]. split; [done|].
        simpl. by rewrite Hdraws.
    + rewrite Hedges. apply Forall_app. split.
      * eapply Forall_impl; [|exact Hold]. intros e Ht [_ Ht']. done.
      * eapply Forall_impl; [|exact Hnew].
        intros e (_ & j & s' & Hj & Hs' & Hsrc & _) [Hsrc' _].
        assert (j = n); [|lia].
        apply (NoDup_ids_lookup (cStack start) n j s s' Hnd Hs Hs').
        congruence.
  - destruct (connectStackNode_step th block hid c n s Hcs)
      as (_ & _ & _ & Hno & _).
    destruct (Hno Hnamed) as (-> & _).
    exists new. split; [done|].
    eapply Forall_impl; [|exact Hnew].
    intros e (Ht & j & s' & Hj & Hs' & Hrest).
    split; [done|]. exists j, s'. split; [lia|done].
Qed.

Lemma heapBlock_colour th wh hx st block :
  NoDup (Node.id <$> hStack st) →
  Forall (fun e => Edge.target e ≠ heapNodeId (index st) block)
    (connectionsInner st) →
  ∃ new,
    connectionsInner (heapBlock th wh hx st block)
    = connectionsInner st ++ new
    ∧ Forall
        (fun e =>
           Edge.target e = heapNodeId (index st) block
           ∧ isUnallocated block = false
           ∧ ∃ j sid, (Node.id <$> hStack st) !! j = Some sid
                      ∧ Edge.source e = sid
                      ∧ Edge.stroke (Edge.style e)
                        = if isDanglingPointer block sid then "red"
                          else generateRandomColor th (hDraws st + j))
        new.
Proof.
  intros Hnd Hold.
  unfold heapBlock, heapNodeId, isUnallocated in *.
  set (hid := generateNodeId _ _ _) in *.
  set (heapNode := Node.Build_t _ _ _ _ _ _ _ _ _ _).
  set (start := Build_Connect _ _ _ _).
  pose proof (generateNodeId_includes (index st)
                (String.eqb (Block.block_state block) "Unallocated")
                (String.eqb (Block.block_state block) "Free")) as Hinc.
  fold hid in Hinc. rewrite Hinc. clear Hinc.
  destruct (String.eqb (Block.block_state block) "Unallocated"); simpl.
  { exists []. by rewrite app_nil_r. }
  destruct (connect_fold_colour th block hid start (length (hStack st)))
    as (new & Hedges & Hnew); [done|done|done|].
  exists new. split; [done|].
  eapply Forall_impl; [|exact Hnew].
  intros e (Ht & j & s & _ & Hs & Hsrc & Hstroke).
  split; [done|]. split; [done|]. exists j, (Node.id s).
  split; [|done]. simpl in Hs. by rewrite list_lookup_fmap, Hs.
Qed.

Lemma scanned_cons block heap :
  length (scanned (block :: heap))
  = ((if isUnallocated block then 0 else 1) + length (scanned heap))%nat.
Proof.
  unfold scanned. rewrite filter_cons.
  destruct (isUnallocated block); by case_decide.
Qed.

Lemma heap_loop_colour th wh hx ids heap : ∀ st,
  Node.id <$> hStack st = ids → NoDup ids →
  Forall (fun e => ∃ k b, (k < index st)%nat
                          ∧ Edge.target e = heapNodeId k b)
    (connectionsInner st) →
  ∃ new,
    connectionsInner (fold_left (heapBlock th wh hx) heap st)
    = connectionsInner st ++ new
    ∧ Forall
        (fun e =>
           ∃ i b j sid,
             heap !! i = Some b ∧ ids !! j = Some sid
             ∧ Edge.source e = sid
             ∧ Edge.target e = heapNodeId (index st + i) b
             ∧ Edge.stroke (Edge.style e)
               = if isDanglingPointer b sid then "red"
                 else generateRandomColor th
                        (hDraws st
                         + length (scanned (take i heap)) * length ids
                         + j))
        new.
Proof.
  induction heap as [|block heap IH]; intros st Hids Hnd Hold.
  { exists []. by rewrite app_nil_r. }
  change (fold_left (heapBlock th wh hx) (block :: heap) st)
    with (fold_left (heapBlock th wh hx) heap (heapBlock th wh hx st block)).
  destruct (heapBlock_colour th wh hx st block) as (new1 & H1 & Hnew1).
  { by rewrite Hids. }
  { eapply Forall_impl; [|exact Hold].
    intros e (k & b & Hk & Ht) Heq.
    assert (k = index st); [|lia].
    apply (generateNodeId_inj k (isUnallocated b)
             (String.eqb (Block.block_state b) "Free")
             (index st) (isUnallocated block)
             (String.eqb (Block.block_state block) "Free")).
    unfold heapNodeId in Ht, Heq. congruence. }
  destruct (heapBlock_step th wh hx st block) as (Hi & _ & Hs & _).
  destruct (heapBlock_node th wh hx st block) as (_ & Hd).
  destruct (IH (heapBlock th wh hx st block)) as (new2 & H2 & Hnew2).
  { by rewrite Hs, visit_ids. }
  { done. }
  { rewrite H1, Hi. apply Forall_app. split.
    - eapply Forall_impl; [|exact Hold].
      intros e (k & b & Hk & Ht). exists k, b. split; [lia|done].
    - eapply Forall_impl; [|exact Hnew1].
      intros e (Ht & _). exists (index st), block. split; [lia|done]. }
  exists (new1 ++ new2). rewrite H2, H1, <- app_assoc. split; [done|].
  assert (length (hStack st) = length ids) as Hlen.
  { by rewrite <- Hids, length_fmap. }
  apply Forall_app. split.
  - eapply Forall_impl; [|exact Hnew1].
    intros e (Ht & Hun & j & sid & Hj & Hsrc & Hstroke).
    exists 0%nat, block, j, sid. split; [done|].
    split; [by rewrite <- Hids|]. split; [done|].
    split; [by rewrite Nat.add_0_r|].
    rewrite Hstroke. simpl. by rewrite Nat.add_0_r.
  - eapply Forall_impl; [|exact Hnew2].
    intros e (i & b & j & sid & Hb & Hj & Hsrc & Ht & Hstroke).
    exists (S i), b, j, sid. split; [done|]. split; [done|].
    split; [done|]. split; [by rewrite Ht, Hi, Nat.add_succ_r|].
    rewrite Hstroke, Hd, Hlen.
    change (take (S i) (block :: heap)) with (block :: take i heap).
    rewrite scanned_cons.
    destruct (isDanglingPointer b sid); [done|].
    f_equal. destruct (isUnallocated block); lia.
Qed.

(** X23: the colours of the heap edges, and no colour kept from an
    edge queued before. When the ids of the stack nodes are pairwise
    distinct, every edge of the heap layer is red when its stack node
    dangles from its block, and has otherwise exactly the colour drawn
    for its pair of a block and a stack node: the scan that would keep
    the stroke of an edge already queued for the same source and target
    never finds one. *)
Theorem heap_edge_colours th wh hx stackNodes d heap e :
  NoDup (Node.id <$> stackNodes) →
  e ∈ connectionsInner (buildHeap th wh hx stackNodes d heap) →
  EdgeColour th (Node.id <$> stackNodes) d heap e.
Proof.
  intros Hnd He. unfold buildHeap in He.
  destruct (heap_loop_colour th wh hx (Node.id <$> stackNodes) heap
              {| hStack := stackNodes; heapNodesInner := [];
                 connectionsInner := []; index := 0; address := HEAP_BASE;
                 hDraws := d |}) as (new & Hnew & Hall);
    [done|done|by apply Forall_nil|].
  rewrite Hnew in He. simpl in He.
  rewrite list.Forall_forall in Hall. apply (Hall e He).
Qed.

End Engine.

(** * The engine on the scenarios

    The statements below run the engine with a node height of 20 per
    size unit, a node width of 200, a bottom offset of 100 and the
    sample random source. *)

(** The freeze holds on the scenario of an allocated block followed by a
    failed analysis of a non-blank source. *)
Lemma freeze_on_error_witness :
  ∃ st1,
    hasValidAnalyzeResponse (render scenarioActive false "int* p = new int;")
      = true
    ∧ recompute 20 200 100 sampleColor
        (render scenarioActive false "int* p = new int;") mount
      = Committed st1
    ∧ hasValidAnalyzeResponse (render emptyResponse true "int* p = new")
      = false
    ∧ Js.truthyText
        (Js.trim (sourceCode (render emptyResponse true "int* p = new")))
      = true
    ∧ sameView (render scenarioActive false "int* p = new int;")
        (render emptyResponse true "int* p = new")
    ∧ lastValidAnalyzeResponse st1
      = analyzeResponse (render scenarioActive false "int* p = new int;")
    ∧ recompute 20 200 100 sampleColor
        (render emptyResponse true "int* p = new") st1
      = Committed st1
    ∧ emittedGraph 200 (render emptyResponse true "int* p = new") st1
      = emittedGraph 200 (render scenarioActive false "int* p = new int;")
          st1.
Proof.
  eexists.
  split; [reflexivity|]. split; [vm_compute; reflexivity|].
  split; [reflexivity|]. split; [reflexivity|].
  split; [by repeat split|].
  apply (freeze_on_error 20 200 100 sampleColor
           (render scenarioActive false "int* p = new int;")
           (render emptyResponse true "int* p = new") mount).
  - reflexivity.
  - vm_compute; reflexivity.
  - reflexivity.
  - reflexivity.
  - by repeat split.
Defined.

(** C1 as stated fails on a source text that is not empty but blank: a
    valid result is rendered and retained, then a failed analysis
    arrives while the source text is a single space. The fall-back to
    the retained result is not taken, the stack effect runs on the empty
    response and the stack layer disappears from the graph. *)
Lemma freeze_fails_on_blank_source :
  ∃ st1 st2,
    hasValidAnalyzeResponse (render scenarioActive false "int* p = new int;")
      = true
    ∧ recompute 20 200 100 sampleColor
        (render scenarioActive false "int* p = new int;") mount
      = Committed st1
    ∧ lastValidAnalyzeResponse st1 = Some scenarioActive
    ∧ hasValidAnalyzeResponse (render emptyResponse true " ") = false
    ∧ sourceCode (render emptyResponse true " ") ≠ []
    ∧ recompute 20 200 100 sampleColor (render emptyResponse true " ") st1
      = Committed st2
    ∧ Node.id <$> stackNodes st1 = ["p"]
    ∧ stackNodes st2 = []
    ∧ emittedGraph 200 (render emptyResponse true " ") st2
      ≠ emittedGraph 200 (render scenarioActive false "int* p = new int;")
          st1.
Proof.
  eexists _, _.
  split; [reflexivity|]. split; [vm_compute; reflexivity|].
  split; [reflexivity|]. split; [reflexivity|]. split; [discriminate|].
  split; [vm_compute; reflexivity|].
  split; [reflexivity|]. split; [reflexivity|].
  intros H. apply (f_equal (fun g => length (graphNodes g))) in H.
  vm_compute in H. discriminate H.
Qed.



(** The crash on a result without [stack] field, at mount. *)
Lemma missing_stack_crashes_witness :
  analyzeResponse (render heapOnlyResponse false "int x;")
  = Some heapOnlyResponse
  ∧ Response.stack heapOnlyResponse = None
  ∧ Response.heap heapOnlyResponse = Some []
  ∧ pass 20 200 100 sampleColor (render heapOnlyResponse false "int x;") mount
    = Crashed.
Proof.
  split; [reflexivity|]. split; [reflexivity|]. split; [reflexivity|].
  apply (missing_stack_crashes 20 200 100 sampleColor
           (render heapOnlyResponse false "int x;") heapOnlyResponse []);
    reflexivity.
Defined.

(** The heap layer outlives the emptying of the source: after the
    scenario of an allocated block, the source becomes empty and the
    empty response arrives. *)
Lemma empty_source_keeps_heap_witness :
  ∃ st1 st2,
    recompute 20 200 100 sampleColor
      (render scenarioActive false "int* p = new int;") mount
    = Committed st1
    ∧ sourceCode (render emptyResponse false "") = []
    ∧ hasValidAnalyzeResponse (render emptyResponse false "") = false
    ∧ analyzeResponse (render emptyResponse false "") = Some emptyResponse
    ∧ Response.stack emptyResponse = Some []
    ∧ recompute 20 200 100 sampleColor (render emptyResponse false "") st1
      = Committed st2
    ∧ heapNodes st2 = heapNodes st1
    ∧ heapConnections st2 = heapConnections st1
    ∧ Node.id <$> heapNodes st2 = ["0"]
    ∧ Edge.id <$> heapConnections st2 = ["ep-0"]
    ∧ stackNodes st2 = [].
Proof.
  destruct (recompute 20 200 100 sampleColor
              (render scenarioActive false "int* p = new int;") mount)
    as [st1|] eqn:Hrun; [|vm_compute in Hrun; discriminate Hrun].
  destruct (empty_source_keeps_heap 20 200 100 sampleColor
              (render emptyResponse false "") st1 emptyResponse
              eq_refl eq_refl eq_refl eq_refl)
    as (st2 & Hrun2 & Hn & Hc).
  exists st1, st2.
  split; [reflexivity|]. split; [reflexivity|]. split; [reflexivity|].
  split; [reflexivity|]. split; [reflexivity|]. split; [exact Hrun2|].
  split; [exact Hn|]. split; [exact Hc|].
  vm_compute in Hrun. injection Hrun as <-.
  vm_compute in Hrun2. injection Hrun2 as <-.
  by repeat split.
Defined.

(** Address synthesis on a result with three drawn stack entries, of
    sizes 4, 8 and 1, and three blocks, of sizes 4, 16 and 8 and in
    three states: the addresses step by the sizes in both layers. *)
Lemma address_synthesis_witness :
  let stack := default [] (Response.stack scenarioLayers) in
  let heap := default [] (Response.heap scenarioLayers) in
  let stackNodes := buildStackNodes 20 200 100 800 50 stack in
  Response.stack scenarioLayers = Some stack
  ∧ Response.heap scenarioLayers = Some heap
  ∧ Forall (fun s => 0 ≤ symbolSize s) stack
  ∧ Forall (fun b => 0 ≤ Block.size b) heap
  ∧ STACK_BASE + entrySum (drawnEntries stack) ≤ 2 ^ 53
  ∧ HEAP_BASE + blockSum heap ≤ 2 ^ 53
  ∧ (∃ b, useStackNodes 20 200 100 sampleColor (Some scenarioLayers)
            800 50 "dark" 0 = Ran b
          ∧ nodeEntry <$> nodes b = [("x", 4); ("p", 8); ("c", 1)]
          ∧ nodeAddress <$> nodes b
            = ["0xBFFFFFFF"; "0xC0000003"; "0xC000000B"])
  ∧ (∃ h, useHeapNodes 20 200 100 sampleColor (Some scenarioLayers)
            stackNodes 800 400 "dark" 0 = Ran h
          ∧ Node.size <$> heapNodesInner h = [4; 16; 8]
          ∧ nodeAddress <$> heapNodesInner h
            = ["0x400000"; "0x400004"; "0x400014"])
  ∧ STACK_BASE = 3221225471 ∧ HEAP_BASE = 4194304
  ∧ (∃ b, useStackNodes 20 200 100 sampleColor (Some scenarioLayers)
            800 50 "dark" 0 = Ran b
          ∧ nodeEntry <$> nodes b = drawnEntries stack
          ∧ (∀ i n, nodes b !! i = Some n →
               addressValue (nodeAddress n)
               = Some (STACK_BASE
                       + entrySum (take i (drawnEntries stack))))
          ∧ AddressLaw STACK_BASE (nodes b))
  ∧ (stack ≠ [] →
     ∃ h, useHeapNodes 20 200 100 sampleColor (Some scenarioLayers)
            stackNodes 800 400 "dark" 0 = Ran h
          ∧ Node.size <$> heapNodesInner h = Block.size <$> heap
          ∧ (∀ k hn, heapNodesInner h !! k = Some hn →
               addressValue (nodeAddress hn)
               = Some (HEAP_BASE + blockSum (take k heap)))
          ∧ AddressLaw HEAP_BASE (heapNodesInner h)).
Proof.
  intros stack heap stackNodes.
  split; [reflexivity|]. split; [reflexivity|].
  split; [repeat constructor; simpl; lia|].
  split; [repeat constructor; simpl; lia|].
  split; [vm_compute; discriminate|].
  split; [vm_compute; discriminate|].
  split; [eexists; by repeat split|].
  split; [eexists; by repeat split|].
  apply (address_synthesis 20 200 100 sampleColor "dark" 800 50 400
           scenarioLayers stack heap stackNodes 0%nat 0%nat eq_refl eq_refl).
  - repeat constructor; simpl; lia.
  - repeat constructor; simpl; lia.
  - vm_compute; discriminate.
  - vm_compute; discriminate.
Defined.

(** Dangling colouring on the scenario of a freed block. *)
Lemma dangling_coloring_witness :
  let block :=
    {| Block.size := 4; Block.block_state := "Free";
       Block.metadata := None;
       Block.current_pointer_identifier := None;
       Block.dangling_pointer_identifiers := Some ["p"] |} in
  let stackNodes := buildStackNodes 20 200 100 800 50 [SymPointer "p" 8 None] in
  let h := buildHeap 20 200 100 sampleColor "dark" 800 400 stackNodes 0
             [block] in
  ∃ hn s e,
    [block] !! 0%nat = Some block
    ∧ heapNodesInner h !! 0%nat = Some hn
    ∧ stackNodes !! 0%nat = Some s
    ∧ Block.dangling_pointer_identifiers block = Some ["p"]
    ∧ Node.id s ∈ ["p"]
    ∧ e ∈ connectionsInner h
    ∧ Edge.source e = Node.id s
    ∧ Edge.target e = Node.id hn
    ∧ Edge.id e = "ep-free-0"
    ∧ Edge.stroke (Edge.style e) = "red"
    ∧ Edge.color (Edge.markerEnd e) = "red"
    ∧ ∃ s', hStack h !! 0%nat = Some s' ∧ Node.id s' = Node.id s
            ∧ nodeMetadata s' = Some "Dangling Pointer".
Proof.
  intros block stackNodes h.
  eexists _, _, _.
  split; [reflexivity|]. split; [reflexivity|]. split; [reflexivity|].
  split; [reflexivity|]. split; [by left|].
  split; [vm_compute; by left|].
  split; [reflexivity|]. split; [reflexivity|]. split; [reflexivity|].
  eapply (dangling_coloring 20 200 100 sampleColor "dark" 800 400
            stackNodes 0%nat [block] 0%nat block _ 0%nat _ ["p"]).
  - reflexivity.
  - reflexivity.
  - reflexivity.
  - reflexivity.
  - by left.
  - vm_compute; by left.
  - reflexivity.
  - reflexivity.
Defined.

(** One red edge on the scenario of a pointer that is both current and
    dangling. *)
Lemma current_and_dangling_witness :
  let block :=
    {| Block.size := 4; Block.block_state := "Allocated";
       Block.metadata := None;
       Block.current_pointer_identifier := Some "p";
       Block.dangling_pointer_identifiers := Some ["p"] |} in
  let stackNodes := buildStackNodes 20 200 100 800 50 [SymPointer "p" 8 None] in
  let h := buildHeap 20 200 100 sampleColor "dark" 800 400 stackNodes 0
             [block] in
  ∃ hn s,
    NoDup (Node.id <$> stackNodes)
    ∧ [block] !! 0%nat = Some block
    ∧ Block.block_state block ≠ "Unallocated"
    ∧ heapNodesInner h !! 0%nat = Some hn
    ∧ stackNodes !! 0%nat = Some s
    ∧ Block.current_pointer_identifier block = Some (Node.id s)
    ∧ Block.dangling_pointer_identifiers block = Some ["p"]
    ∧ Node.id s ∈ ["p"]
    ∧ length (connectionsInner h) = 1%nat
    ∧ (∃ e, filter (fun e => Edge.source e = Node.id s
                             ∧ Edge.target e = Node.id hn)
              (connectionsInner h) = [e]
            ∧ Edge.stroke (Edge.style e) = "red"
            ∧ Edge.color (Edge.markerEnd e) = "red")
    ∧ ∃ s', hStack h !! 0%nat = Some s' ∧ Node.id s' = Node.id s
            ∧ nodeMetadata s' = Some "Dangling Pointer".
Proof.
  intros block stackNodes h.
  eexists _, _.
  split; [vm_compute; apply NoDup_singleton|].
  split; [reflexivity|]. split; [discriminate|].
  split; [reflexivity|]. split; [reflexivity|]. split; [reflexivity|].
  split; [reflexivity|]. split; [by left|]. split; [reflexivity|].
  eapply (current_and_dangling 20 200 100 sampleColor "dark" 800 400
            stackNodes 0%nat [block] 0%nat block _ 0%nat _ ["p"]).
  - vm_compute; apply NoDup_singleton.
  - reflexivity.
  - discriminate.
  - reflexivity.
  - reflexivity.
  - reflexivity.
  - reflexivity.
  - by left.
Defined.

(** Active edge on the scenario of an allocated block. *)
Lemma heap_ids_and_active_edges_witness :
  let block :=
    {| Block.size := 4; Block.block_state := "Allocated";
       Block.metadata := None;
       Block.current_pointer_identifier := Some "p";
       Block.dangling_pointer_identifiers := Some [] |} in
  let stackNodes := buildStackNodes 20 200 100 800 50 [SymPointer "p" 8 None] in
  let h := buildHeap 20 200 100 sampleColor "dark" 800 400 stackNodes 0
             [block] in
  ∃ s hn s',
    [block] !! 0%nat = Some block
    ∧ stackNodes !! 0%nat = Some s
    ∧ Block.block_state block ≠ "Unallocated"
    ∧ Block.current_pointer_identifier block = Some (Node.id s)
    ∧ heapNodesInner h !! 0%nat = Some hn
    ∧ Node.id hn = "0"
    ∧ (∃ e, e ∈ connectionsInner h
            ∧ Edge.id e = "e" +:+ Node.id s +:+ "-" +:+ Node.id hn
            ∧ Edge.source e = Node.id s
            ∧ Edge.target e = Node.id hn
            ∧ Edge.type e = "straight")
    ∧ hStack h !! 0%nat = Some s'
    ∧ Node.id s' = Node.id s
    ∧ nodePointingToAddress s' = Some (nodeAddress hn).
Proof.
  intros block stackNodes h.
  destruct (proj1 (heap_ids_and_active_edges 20 200 100 sampleColor
                     "dark" 800 50 400 stackNodes 0%nat [block])
              0%nat block eq_refl)
    as (hn & Hhn & Hid & Hrest).
  destruct (stackNodes !! 0%nat) as [s|] eqn:Hs; [|discriminate Hs].
  assert (Block.current_pointer_identifier block = Some (Node.id s)) as Hcur.
  { vm_compute in Hs. injection Hs as <-. reflexivity. }
  destruct (Hrest 0%nat s Hs ltac:(discriminate) Hcur) as (Hedge & Hpoint).
  destruct Hpoint as (s' & Hs' & Hid' & Hpta).
  { intros k' b Hlt Hk'. destruct k' as [|k']; [lia|discriminate Hk']. }
  exists s, hn, s'.
  split; [reflexivity|]. split; [reflexivity|]. split; [discriminate|].
  split; [exact Hcur|]. split; [exact Hhn|]. split; [exact Hid|].
  split; [exact Hedge|]. split; [exact Hs'|]. split; [exact Hid'|].
  exact Hpta.
Defined.

(** C6 as stated fails when a later block names the same stack node:
    [p] is the current pointer of the first block and a dangling pointer
    of the second; the edge [ep-0] to the first block is queued, but the
    stack node ends the pass pointing to the address of the second
    block. *)
Lemma later_block_overwrites_address :
  ∃ b g s hn,
    useStackNodes 20 200 100 sampleColor (Some scenarioTwoBlocks)
      800 50 "dark" 0 = Ran b
    ∧ useHeapNodes 20 200 100 sampleColor (Some scenarioTwoBlocks) (nodes b)
        800 400 "dark" (draws b) = Ran g
    ∧ hStack g !! 0%nat = Some s
    ∧ heapNodesInner g !! 0%nat = Some hn
    ∧ Node.id s = "p" ∧ Node.id hn = "0"
    ∧ Edge.id <$> connectionsInner g = ["ep-0"; "ep-free-1"]
    ∧ nodeAddress hn = "0x400000"
    ∧ nodePointingToAddress s = Some "0x400004"
    ∧ nodePointingToAddress s ≠ Some (nodeAddress hn).
Proof.
  eexists _, _, _, _.
  split; [reflexivity|]. split; [reflexivity|].
  split; [reflexivity|]. split; [reflexivity|].
  split; [reflexivity|]. split; [reflexivity|].
  split; [reflexivity|]. split; [reflexivity|].
  split; [reflexivity|]. discriminate.
Qed.

(** Pointer resolution on the scenario of a variable and a pointer to
    it. *)
Lemma intra_stack_resolution_witness :
  let stack :=
    [SymVariable "x" 4 (Some "12") "Integer";
     SymPointer "p" 8 (Some (SymVariable "x" 4 (Some "12") "Integer"))] in
  let N := buildStackNodes 20 200 100 800 50 stack in
  let b := connectPointers sampleColor "dark" N 0 in
  ∃ p t,
    NoDup (Node.id <$> N)
    ∧ N !! 1%nat = Some p ∧ N !! 0%nat = Some t
    ∧ Node.dtype (Node.data p) = "Pointer"
    ∧ nodeLabel p = Some (Node.id t)
    ∧ (∃ stroke,
         filter (fun e => Edge.source e = Node.id p
                          ∧ Edge.target e = Node.id t) (connections b)
         = [createEdge ("e" +:+ Node.id p +:+ "-" +:+ Node.id t) "step"
              (Node.id p) (Node.id t) stroke])
    ∧ (∃ p', nodes b !! 1%nat = Some p' ∧ Node.id p' = Node.id p
             ∧ Node.value (Node.data p') = "&" +:+ Node.id t
             ∧ nodePointingToAddress p' = Some (nodeAddress t))
    ∧ (∃ t', nodes b !! 0%nat = Some t' ∧ Node.id t' = Node.id t
             ∧ nodeAddress t' = nodeAddress t
             ∧ Node.sourcePosition t' = Some Right
             ∧ Node.targetPosition t' = Some Right).
Proof.
  intros stack N b.
  eexists _, _.
  assert (NoDup (Node.id <$> N)) as Hnd.
  { vm_compute. apply NoDup_cons_2; [|apply NoDup_singleton].
    intros Hin. apply list_elem_of_singleton in Hin. discriminate Hin. }
  split; [exact Hnd|].
  split; [reflexivity|]. split; [reflexivity|].
  split; [reflexivity|]. split; [reflexivity|].
  apply (proj1 (intra_stack_resolution 20 200 100 sampleColor
                  "dark" 800 50 400 0%nat) stack 1%nat 0%nat _ _ Hnd);
    reflexivity.
Defined.

(** The stack layer of the scenario of a variable and a pointer to it
    is stacked from the base line. *)
Lemma stack_layout_witness :
  ∃ b,
    useStackNodes 20 200 100 sampleColor (Some scenarioIntraStack)
      800 50 "dark" 0 = Ran b
    ∧ Stacked 20 200 100 800 (nodes b).
Proof.
  eexists. split; [reflexivity|].
  apply (stack_layout 20 200 100 sampleColor (Some scenarioIntraStack)
           800 50 "dark" 0%nat).
  reflexivity.
Defined.

(** The heap layer of the scenario of two blocks is stacked from the
    base line. *)
Lemma heap_layout_witness :
  ∃ h,
    useHeapNodes 20 200 100 sampleColor (Some scenarioTwoBlocks) []
      800 400 "dark" 0 = Ran h
    ∧ Stacked 20 200 100 800 (heapNodesInner h).
Proof.
  eexists. split; [reflexivity|].
  apply (heap_layout 20 200 100 sampleColor (Some scenarioTwoBlocks) []
           800 400 "dark" 0%nat).
  reflexivity.
Defined.

(** The entry that is neither a variable nor a pointer gets no node. *)
Lemma stack_node_names_witness :
  Response.stack scenarioUnresolved = Some stackUnresolved
  ∧ omap symbolName stackUnresolved = ["x"; "q"]
  ∧ ∃ b,
      useStackNodes 20 200 100 sampleColor (Some scenarioUnresolved)
        800 50 "dark" 0 = Ran b
      ∧ Node.id <$> nodes b = omap symbolName stackUnresolved.
Proof.
  split; [reflexivity|]. split; [reflexivity|].
  apply (stack_node_names 20 200 100 sampleColor scenarioUnresolved
           stackUnresolved 800 50 "dark" 0%nat).
  reflexivity.
Defined.

(** The edge from the pointer to the variable of the scenario. *)
Lemma stack_edges_well_formed_witness :
  let N :=
    buildStackNodes 20 200 100 800 50
      [SymVariable "x" 4 (Some "12") "Integer";
       SymPointer "p" 8 (Some (SymVariable "x" 4 (Some "12") "Integer"))] in
  let e := createEdge "ep-x" "step" "p" "x" (sampleColor "light" 0) in
  e ∈ connections (connectPointers sampleColor "dark" N 0)
  ∧ ∃ i j p t,
      N !! i = Some p ∧ N !! j = Some t
      ∧ Node.dtype (Node.data p) = "Pointer"
      ∧ Node.pointingToLabel (Node.extraInfo (Node.data p))
        = Some (Node.id t)
      ∧ Edge.source e = Node.id p ∧ Edge.target e = Node.id t
      ∧ Edge.id e = "e" +:+ Node.id p +:+ "-" +:+ Node.id t
      ∧ Edge.type e = "step".
Proof.
  intros N e.
  assert (e ∈ connections (connectPointers sampleColor "dark" N 0)) as Hin.
  { apply list_elem_of_singleton. reflexivity. }
  split; [exact Hin|].
  exact (stack_edges_well_formed sampleColor "dark" N 0%nat e Hin).
Defined.

(** The pointer whose target is not on the stack keeps an empty value
    and no target address. *)
Lemma unresolved_node_keeps_value_witness :
  let N := buildStackNodes 20 200 100 800 50 stackUnresolved in
  ∃ n,
    N !! 1%nat = Some n
    ∧ Node.id n = "q" ∧ Node.value (Node.data n) = ""
    ∧ Unresolved N n
    ∧ ∃ n', nodes (connectPointers sampleColor "dark" N 0) !! 1%nat = Some n'
            ∧ Node.id n' = Node.id n
            ∧ Node.value (Node.data n') = Node.value (Node.data n)
            ∧ Node.pointingToAddress (Node.extraInfo (Node.data n'))
              = Node.pointingToAddress (Node.extraInfo (Node.data n)).
Proof.
  intros N. eexists.
  split; [reflexivity|]. split; [reflexivity|]. split; [reflexivity|].
  assert (∀ n, N !! 1%nat = Some n → Unresolved N n) as Hun.
  { intros n Hn. right. intros t Ht.
    vm_compute in Hn. injection Hn as <-.
    apply list_elem_of_lookup in Ht as [k Hk].
    destruct k as [|[|k]]; vm_compute in Hk;
      [injection Hk as <-; discriminate..|discriminate Hk]. }
  split; [by apply Hun|].
  apply (unresolved_node_keeps_value sampleColor "dark" N 0%nat 1%nat);
    [reflexivity|by apply Hun].
Defined.

(** The edge of the scenario of an allocated block reaches the node of
    the block from the pointer that the block names. *)
Lemma heap_edges_well_formed_witness :
  let stackNodes := buildStackNodes 20 200 100 800 50 [SymPointer "p" 8 None] in
  let heap :=
    [{| Block.size := 4; Block.block_state := "Allocated";
        Block.metadata := None;
        Block.current_pointer_identifier := Some "p";
        Block.dangling_pointer_identifiers := Some [] |}] in
  let h := buildHeap 20 200 100 sampleColor "dark" 800 400 stackNodes 0
             heap in
  let e := createEdge "ep-0" "straight" "p" "0" (sampleColor "light" 0) in
  e ∈ connectionsInner h
  ∧ ∃ k block hn s,
      heap !! k = Some block
      ∧ Block.block_state block ≠ "Unallocated"
      ∧ heapNodesInner h !! k = Some hn
      ∧ s ∈ stackNodes
      ∧ (Block.current_pointer_identifier block = Some (Node.id s)
         ∨ ∃ ids, Block.dangling_pointer_identifiers block = Some ids
                  ∧ Node.id s ∈ ids)
      ∧ Edge.source e = Node.id s ∧ Edge.target e = Node.id hn
      ∧ Edge.id e = "e" +:+ Node.id s +:+ "-" +:+ Node.id hn
      ∧ Edge.type e = "straight".
Proof.
  intros stackNodes heap h e.
  assert (e ∈ connectionsInner h) as Hin.
  { apply list_elem_of_singleton. reflexivity. }
  split; [exact Hin|].
  exact (heap_edges_well_formed 20 200 100 sampleColor "dark" 800 400
           stackNodes 0%nat heap e Hin).
Defined.

(** The variable of the scenario is left as it was by the visit of a
    block that names the pointer only. *)
Lemma unnamed_stack_node_untouched_witness :
  let stackNodes :=
    buildStackNodes 20 200 100 800 50
      [SymVariable "x" 4 (Some "12") "Integer"; SymPointer "p" 8 None] in
  let heap :=
    [{| Block.size := 4; Block.block_state := "Allocated";
        Block.metadata := None;
        Block.current_pointer_identifier := Some "p";
        Block.dangling_pointer_identifiers := Some [] |}] in
  ∃ s,
    stackNodes !! 0%nat = Some s
    ∧ Node.id s = "x"
    ∧ hStack (buildHeap 20 200 100 sampleColor "dark" 800 400 stackNodes 0
                heap) !! 0%nat = Some s.
Proof.
  intros stackNodes heap. eexists.
  split; [reflexivity|]. split; [reflexivity|].
  apply (unnamed_stack_node_untouched 20 200 100 sampleColor "dark" 800 400
           stackNodes 0%nat heap 0%nat); [reflexivity|].
  intros b Hb _. apply list_elem_of_singleton in Hb as ->.
  split; [discriminate|].
  intros ids Hids. injection Hids as <-. apply not_elem_of_nil.
Defined.

(** The node of the allocated block of the scenario has its handle on
    the left and is reached by the edge from the pointer. *)
Lemma heap_handle_iff_edge_witness :
  let stackNodes := buildStackNodes 20 200 100 800 50 [SymPointer "p" 8 None] in
  let heap :=
    [{| Block.size := 4; Block.block_state := "Allocated";
        Block.metadata := None;
        Block.current_pointer_identifier := Some "p";
        Block.dangling_pointer_identifiers := Some [] |}] in
  let h := buildHeap 20 200 100 sampleColor "dark" 800 400 stackNodes 0
             heap in
  ∃ hn,
    heapNodesInner h !! 0%nat = Some hn
    ∧ Node.targetPosition hn = Some Left
    ∧ ((Node.targetPosition hn = Some Left
        ∧ ∃ e, e ∈ connectionsInner h ∧ Edge.target e = Node.id hn)
       ∨ (Node.targetPosition hn = None
          ∧ ∀ e, e ∈ connectionsInner h → Edge.target e ≠ Node.id hn)).
Proof.
  intros stackNodes heap h. eexists.
  split; [reflexivity|]. split; [reflexivity|].
  apply (heap_handle_iff_edge 20 200 100 sampleColor "dark" 800 400
           stackNodes 0%nat heap 0%nat).
  reflexivity.
Defined.

(** The usage of the heap layer of the scenario of an allocated and a
    free block is the size of the allocated block. *)
Lemma heap_usage_is_live_size_witness :
  ∃ stack heap h,
    Response.stack scenarioTwoBlocks = Some stack
    ∧ Response.heap scenarioTwoBlocks = Some heap
    ∧ useHeapNodes 20 200 100 sampleColor (Some scenarioTwoBlocks) []
        800 400 "dark" 0 = Ran h
    ∧ liveSize heap = 4
    ∧ calculateMemoryUsage (heapNodesInner h) = liveSize heap.
Proof.
  eexists _, _, _.
  split; [reflexivity|]. split; [reflexivity|]. split; [reflexivity|].
  split; [reflexivity|].
  eapply (heap_usage_is_live_size 20 200 100 sampleColor scenarioTwoBlocks
            _ _ [] 800 400 "dark" 0%nat); reflexivity.
Defined.

(** The bounds hold, strictly, on the stack whose variable has a name
    that contains [free]. *)
Lemma usage_bounds_witness :
  let layer := buildStackNodes 20 200 100 800 50 stackWithFreeName in
  Forall (fun n => 0 ≤ Node.size n) layer
  ∧ 0 ≤ calculateMemoryUsage layer ≤ sizeSum layer.
Proof.
  intros layer.
  assert (Forall (fun n => 0 ≤ Node.size n) layer) as Hall.
  { apply Forall_singleton. vm_compute. discriminate. }
  split; [exact Hall|]. exact (usage_bounds layer Hall).
Defined.



(** The stack base, written in two ways, is rendered as one text. *)
Lemma formatAddress_inj_witness :
  0 ≤ STACK_BASE ∧ 0 ≤ STACK_BASE + 0
  ∧ formatAddress STACK_BASE = formatAddress (STACK_BASE + 0)
  ∧ STACK_BASE = STACK_BASE + 0.
Proof.
  assert (0 ≤ STACK_BASE) as Ha by (vm_compute; discriminate).
  assert (0 ≤ STACK_BASE + 0) as Hb by (vm_compute; discriminate).
  assert (formatAddress STACK_BASE = formatAddress (STACK_BASE + 0)) as He
    by reflexivity.
  split; [exact Ha|]. split; [exact Hb|]. split; [exact He|].
  exact (formatAddress_inj STACK_BASE (STACK_BASE + 0) Ha Hb He).
Defined.

(** The render loop rests after the recomputation of the scenario of an
    allocated block. *)
Lemma render_loop_settles_witness :
  ∃ st',
    recompute 20 200 100 sampleColor
      (render scenarioActive false "int* p = new int;") mount
    = Committed st'
    ∧ pass 20 200 100 sampleColor
        (render scenarioActive false "int* p = new int;") st'
      = Committed st'
    ∧ recompute 20 200 100 sampleColor
        (render scenarioActive false "int* p = new int;") st'
      = Committed st'.
Proof.
  eexists. split; [vm_compute; reflexivity|].
  apply (render_loop_settles 20 200 100 sampleColor
           (render scenarioActive false "int* p = new int;") mount).
  vm_compute; reflexivity.
Defined.

(** The recomputation of the scenario with two blocks commits. *)
Lemma recompute_commits_with_stack_witness :
  (∀ r, analyzeResponse (render scenarioTwoBlocks false "delete p;") = Some r →
        is_Some (Response.stack r))
  ∧ (∀ r, lastValidAnalyzeResponse mount = Some r →
          is_Some (Response.stack r))
  ∧ ∃ st',
      recompute 20 200 100 sampleColor
        (render scenarioTwoBlocks false "delete p;") mount
      = Committed st'
      ∧ ∀ r, lastValidAnalyzeResponse st' = Some r →
             is_Some (Response.stack r).
Proof.
  assert (∀ r, analyzeResponse (render scenarioTwoBlocks false "delete p;")
               = Some r → is_Some (Response.stack r)) as Hin.
  { intros r Hr. injection Hr as <-. by eexists. }
  assert (∀ r, lastValidAnalyzeResponse mount = Some r →
               is_Some (Response.stack r)) as Hlast.
  { intros r Hr. discriminate Hr. }
  split; [exact Hin|]. split; [exact Hlast|].
  exact (recompute_commits_with_stack 20 200 100 sampleColor
           (render scenarioTwoBlocks false "delete p;") mount Hin Hlast).
Defined.

(** An erroring result does not displace the retained scenario. *)
Lemma retained_result_witness :
  ∃ st1 st2,
    recompute 20 200 100 sampleColor
      (render scenarioActive false "int* p = new int;") mount
    = Committed st1
    ∧ lastValidAnalyzeResponse st1 = Some scenarioActive
    ∧ recompute 20 200 100 sampleColor
        (render emptyResponse true "int* p = new") st1
      = Committed st2
    ∧ hasValidAnalyzeResponse (render emptyResponse true "int* p = new")
      = false
    ∧ lastValidAnalyzeResponse st2
      = if hasValidAnalyzeResponse (render emptyResponse true "int* p = new")
        then analyzeResponse (render emptyResponse true "int* p = new")
        else lastValidAnalyzeResponse st1.
Proof.
  eexists _, _.
  split; [vm_compute; reflexivity|]. split; [reflexivity|].
  split; [vm_compute; reflexivity|]. split; [reflexivity|].
  eapply (retained_result 20 200 100 sampleColor
            (render emptyResponse true "int* p = new")).
  vm_compute; reflexivity.
Defined.

(** The first render of the scenario with two blocks. *)
Lemma first_render_composes_witness :
  let inp := render scenarioTwoBlocks false "delete p;" in
  let b := connectPointers sampleColor (theme inp)
             (buildStackNodes 20 200 100 (windowHeight inp)
                (stackXCoordinate inp) [SymPointer "p" 8 None])
             0 in
  ∃ heap,
    analyzeResponse inp = Some scenarioTwoBlocks
    ∧ analyzeError inp = false
    ∧ Response.stack scenarioTwoBlocks = Some [SymPointer "p" 8 None]
    ∧ [SymPointer "p" 8 None] ≠ []
    ∧ Response.heap scenarioTwoBlocks = Some heap
    ∧ ∃ st',
        recompute 20 200 100 sampleColor inp mount = Committed st'
        ∧ stackNodes st'
          = hStack (buildHeap 20 200 100 sampleColor (theme inp)
                      (windowHeight inp) (heapXCoordinate inp)
                      (nodes b) (draws b) heap)
        ∧ stackConnections st' = connections b
        ∧ heapNodes st'
          = heapNodesInner (buildHeap 20 200 100 sampleColor (theme inp)
                              (windowHeight inp) (heapXCoordinate inp)
                              (nodes b) (draws b) heap)
        ∧ heapConnections st'
          = connectionsInner (buildHeap 20 200 100 sampleColor (theme inp)
                                (windowHeight inp) (heapXCoordinate inp)
                                (nodes b) (draws b) heap)
        ∧ lastValidAnalyzeResponse st' = Some scenarioTwoBlocks.
Proof.
  intros inp b. eexists.
  split; [reflexivity|]. split; [reflexivity|]. split; [reflexivity|].
  split; [discriminate|]. split; [reflexivity|].
  eapply (first_render_composes 20 200 100 sampleColor inp scenarioTwoBlocks
            [SymPointer "p" 8 None]);
    [reflexivity|reflexivity|reflexivity|discriminate|reflexivity].
Defined.

(** The result with a leaked block and no stack entry draws nothing at
    mount. *)
Lemma heap_only_result_draws_nothing_witness :
  let inp := render scenarioHeapOnly false "new int;" in
  ∃ heap,
    analyzeResponse inp = Some scenarioHeapOnly
    ∧ analyzeError inp = false
    ∧ Response.stack scenarioHeapOnly = Some []
    ∧ Response.heap scenarioHeapOnly = Some heap ∧ heap ≠ []
    ∧ ∃ st',
        recompute 20 200 100 sampleColor inp mount = Committed st'
        ∧ hasValidAnalyzeResponse inp = true
        ∧ lastValidAnalyzeResponse st' = Some scenarioHeapOnly
        ∧ graphNodes (emittedGraph 200 inp st') = []
        ∧ graphEdges (emittedGraph 200 inp st') = []
        ∧ shouldShowOverlay inp st' false = true.
Proof.
  intros inp. eexists.
  split; [reflexivity|]. split; [reflexivity|]. split; [reflexivity|].
  split; [reflexivity|]. split; [discriminate|].
  eapply (heap_only_result_draws_nothing 20 200 100 sampleColor inp mount
            scenarioHeapOnly);
    [reflexivity|reflexivity|reflexivity|reflexivity|discriminate
    |reflexivity..].
Defined.

(** The edge of the scenario of an allocated block has the colour of
    the first draw. *)
Lemma heap_edge_colours_witness :
  let stackNodes := buildStackNodes 20 200 100 800 50 [SymPointer "p" 8 None] in
  let heap :=
    [{| Block.size := 4; Block.block_state := "Allocated";
        Block.metadata := None;
        Block.current_pointer_identifier := Some "p";
        Block.dangling_pointer_identifiers := Some [] |}] in
  let e := createEdge "ep-0" "straight" "p" "0" (sampleColor "light" 0) in
  NoDup (Node.id <$> stackNodes)
  ∧ e ∈ connectionsInner
          (buildHeap 20 200 100 sampleColor "dark" 800 400 stackNodes 0 heap)
  ∧ EdgeColour sampleColor "dark" (Node.id <$> stackNodes) 0 heap e.
Proof.
  intros stackNodes heap e.
  assert (NoDup (Node.id <$> stackNodes)) as Hnd.
  { vm_compute. apply NoDup_singleton. }
  assert (e ∈ connectionsInner
                (buildHeap 20 200 100 sampleColor "dark" 800 400 stackNodes 0
                   heap)) as Hin.
  { apply list_elem_of_singleton. reflexivity. }
  split; [exact Hnd|]. split; [exact Hin|].
  exact (heap_edge_colours 20 200 100 sampleColor "dark" 800 400 stackNodes
           0%nat heap e Hnd Hin).
Defined.

(** * The cache key of the analysis

    Properties of [lib/source-code-compression.ts]. *)

(** ** Removal of comments *)

Lemma removeCommentsFrom_acc turns : ∀ t result,
  Compression.removeCommentsFrom turns t result
  = result ++ Compression.removeCommentsFrom turns t [].
Proof.
  induction turns as [|turns IH]; intros t result; simpl.
  { by rewrite app_nil_r. }
  destruct t as [|c [|d t'']]; [by rewrite app_nil_r| |].
  - rewrite (IH [] (result ++ [c])), (IH [] [c]).
    by rewrite app_assoc.
  - destruct ((c =? Compression.SLASH) && (d =? Compression.SLASH))%N%bool;
      [apply IH|].
    destruct ((c =? Compression.SLASH) && (d =? Compression.STAR))%N%bool;
      [apply IH|].
    rewrite (IH _ (result ++ [c])), (IH _ [c]).
    by rewrite app_assoc.
Qed.

Lemma skipLine_length t : (length (Compression.skipLine t) ≤ length t)%nat.
Proof.
  induction t as [|c t IH]; simpl; [done|].
  destruct (c =? Compression.NEWLINE)%N; simpl; lia.
Qed.

Lemma skipBlock_length t : (length (Compression.skipBlock t) ≤ length t)%nat.
Proof.
  induction t as [|c t IH]; [done|].
  destruct t as [|d t'']; [done|].
  change (Compression.skipBlock (c :: d :: t''))
    with (if ((c =? Compression.STAR) && (d =? Compression.SLASH))%N%bool
          then t'' else Compression.skipBlock (d :: t'')).
  destruct ((c =? Compression.STAR) && (d =? Compression.SLASH))%N%bool;
    simpl in *; lia.
Qed.

(** Enough turns: the result does not depend on the number of turns
    once it is at least the length of the text. *)
Lemma removeCommentsFrom_turns n : ∀ m t result,
  (length t ≤ n)%nat → (length t ≤ m)%nat →
  Compression.removeCommentsFrom n t result
  = Compression.removeCommentsFrom m t result.
Proof.
  induction n as [|n IH]; intros m t result Hn Hm.
  { destruct t; [|simpl in Hn; lia]. by destruct m. }
  destruct m as [|m].
  { destruct t; [done|simpl in Hm; lia]. }
  simpl. destruct t as [|c [|d t'']]; [done| |].
  - apply IH; simpl in *; lia.
  - destruct ((c =? Compression.SLASH) && (d =? Compression.SLASH))%N%bool
      eqn:Hline.
    { apply andb_true_iff in Hline as (Hc%N.eqb_eq & Hd%N.eqb_eq). subst.
      pose proof (skipLine_length t'') as Hlen.
      apply IH; simpl in *; lia. }
    destruct ((c =? Compression.SLASH) && (d =? Compression.STAR))%N%bool.
    { pose proof (skipBlock_length t'') as Hlen.
      apply IH; simpl in *; lia. }
    apply IH; simpl in *; lia.
Qed.

Lemma removeComments_nil : Compression.removeComments [] = [].
Proof. done. Qed.

Lemma removeComments_one c : Compression.removeComments [c] = [c].
Proof. done. Qed.

Lemma removeComments_line t :
  Compression.removeComments (Compression.SLASH :: Compression.SLASH :: t)
  = Compression.removeComments (Compression.skipLine t).
Proof.
  unfold Compression.removeComments.
  pose proof (skipLine_length t) as Hlen.
  change (length (Compression.SLASH :: Compression.SLASH :: t))
    with (S (S (length t))).
  remember (S (length t)) as n eqn:Hn.
  cbn [Compression.removeCommentsFrom].
  change (Compression.skipLine (Compression.SLASH :: Compression.SLASH :: t))
    with (Compression.skipLine t).
  rewrite N.eqb_refl. cbn [andb].
  apply removeCommentsFrom_turns; lia.
Qed.

Lemma removeComments_block t :
  Compression.removeComments (Compression.SLASH :: Compression.STAR :: t)
  = Compression.removeComments (Compression.skipBlock t).
Proof.
  unfold Compression.removeComments.
  pose proof (skipBlock_length t) as Hlen.
  change (length (Compression.SLASH :: Compression.STAR :: t))
    with (S (S (length t))).
  remember (S (length t)) as n eqn:Hn.
  cbn [Compression.removeCommentsFrom].
  change ((Compression.SLASH =? Compression.SLASH)
          && (Compression.STAR =? Compression.SLASH))%N%bool with false.
  change ((Compression.SLASH =? Compression.SLASH)
          && (Compression.STAR =? Compression.STAR))%N%bool with true.
  cbv iota.
  apply removeCommentsFrom_turns; lia.
Qed.

Lemma removeComments_copy c d t :
  ((c =? Compression.SLASH)
   && ((d =? Compression.SLASH) || (d =? Compression.STAR)))%N%bool = false →
  Compression.removeComments (c :: d :: t)
  = c :: Compression.removeComments (d :: t).
Proof.
  intros H. unfold Compression.removeComments.
  change (length (c :: d :: t)) with (S (length (d :: t))).
  cbn [Compression.removeCommentsFrom].
  destruct (c =? Compression.SLASH)%N, (d =? Compression.SLASH)%N,
    (d =? Compression.STAR)%N; try discriminate H; simpl andb; cbv iota;
    by rewrite removeCommentsFrom_acc.
Qed.

Lemma skipLine_suffix t : ∃ k, t = k ++ Compression.skipLine t.
Proof.
  induction t as [|c t (k & IH)]; [by exists []|]. simpl.
  destruct (c =? Compression.NEWLINE)%N; [by exists []|].
  exists (c :: k). simpl. by rewrite <- IH.
Qed.

Lemma skipBlock_suffix t : ∃ k, t = k ++ Compression.skipBlock t.
Proof.
  induction t as [|c t (k & IH)]; [by exists []|].
  destruct t as [|d t'']; [by exists []|].
  change (Compression.skipBlock (c :: d :: t''))
    with (if ((c =? Compression.STAR) && (d =? Compression.SLASH))%N%bool
          then t'' else Compression.skipBlock (d :: t'')).
  destruct ((c =? Compression.STAR) && (d =? Compression.SLASH))%N%bool.
  - by exists [c; d].
  - exists (c :: k). rewrite <- app_comm_cons. by f_equal.
Qed.

(** X25: [removeComments] only removes. Its result is the source text
    with some characters left out: it holds no character that the
    source does not hold, keeps the order of the characters it keeps,
    and is never longer than the source. *)
Theorem removeComments_sublist sourceCode :
  Compression.removeComments sourceCode `sublist_of` sourceCode
  ∧ (length (Compression.removeComments sourceCode) ≤ length sourceCode)%nat.
Proof.
  assert (Compression.removeComments sourceCode `sublist_of` sourceCode)
    as Hsub; [|split; [done|by apply sublist_length]].
  remember (length sourceCode) as n eqn:Hn. revert sourceCode Hn.
  induction n as [n IH] using lt_wf_ind. intros s Hn.
  destruct s as [|c [|d t]]; [done|done|].
  destruct ((c =? Compression.SLASH)
            && ((d =? Compression.SLASH) || (d =? Compression.STAR)))%N%bool
    eqn:Hopen.
  - apply andb_true_iff in Hopen as (->%N.eqb_eq & Hd).
    apply orb_true_iff in Hd as [->%N.eqb_eq| ->%N.eqb_eq].
    + rewrite removeComments_line.
      destruct (skipLine_suffix t) as (k & Hk).
      pose proof (skipLine_length t) as Hlen.
      rewrite Hk at 2.
      apply (sublist_inserts_l (_ :: _ :: k)).
      apply (IH (length (Compression.skipLine t))); [simpl in Hn; lia|done].
    + rewrite removeComments_block.
      destruct (skipBlock_suffix t) as (k & Hk).
      pose proof (skipBlock_length t) as Hlen.
      rewrite Hk at 2.
      apply (sublist_inserts_l (_ :: _ :: k)).
      apply (IH (length (Compression.skipBlock t))); [simpl in Hn; lia|done].
  - rewrite (removeComments_copy c d t Hopen).
    apply sublist_skip.
    apply (IH (length (d :: t))); [simpl in Hn |- *; lia|done].
Qed.

Lemma plain_cons c d t :
  plain (c :: d :: t)
  = (negb ((c =? Compression.SLASH)
           && ((d =? Compression.SLASH) || (d =? Compression.STAR)))
     && plain (d :: t))%N%bool.
Proof. done. Qed.

Lemma removeComments_prefix before rest :
  plain (before ++ take 1 rest) = true →
  Compression.removeComments (before ++ rest)
  = before ++ Compression.removeComments rest.
Proof.
  induction before as [|c before IH]; intros Hplain; [done|].
  destruct (before ++ rest) as [|d t] eqn:Hrest.
  { apply app_eq_nil in Hrest as (-> & ->).
    change ((c :: []) ++ []) with [c]. by rewrite removeComments_one. }
  assert (∃ t', before ++ take 1 rest = d :: t') as (t' & Ht').
  { destruct before as [|x before]; simpl in Hrest |- *.
    - rewrite Hrest. simpl. by eexists.
    - injection Hrest as -> _. by eexists. }
  change ((c :: before) ++ take 1 rest)
    with (c :: (before ++ take 1 rest)) in Hplain.
  rewrite Ht', plain_cons in Hplain.
  apply andb_true_iff in Hplain as (Hc%negb_true_iff & Hp).
  rewrite <- Ht' in Hp.
  change ((c :: before) ++ rest) with (c :: (before ++ rest)).
  rewrite Hrest, (removeComments_copy c d t Hc), (IH Hp).
  done.
Qed.

(** X26: text in front of the first comment is copied as it is. If no
    [/] of [before], its last character included, is followed by [/] or
    [*] in the source, then the result for the source is [before]
    followed by the result for the rest; so a text that holds no start
    of a comment is returned unchanged. *)
Theorem removeComments_plain_prefix before rest :
  plain (before ++ take 1 rest) = true →
  Compression.removeComments (before ++ rest)
  = before ++ Compression.removeComments rest
  ∧ (rest = [] → Compression.removeComments before = before).
Proof.
  intros Hplain. split; [by apply removeComments_prefix|].
  intros ->. rewrite app_nil_r in Hplain.
  rewrite <- (app_nil_r before) at 1.
  rewrite removeComments_prefix by (by rewrite app_nil_r).
  by rewrite app_nil_r.
Qed.

Lemma skipLine_body body rest :
  Forall (fun c => c ≠ Compression.NEWLINE) body →
  Compression.skipLine (body ++ Compression.NEWLINE :: rest)
  = Compression.NEWLINE :: rest.
Proof.
  induction 1 as [|c body Hc _ IH]; [done|]. simpl.
  by apply N.eqb_neq in Hc as ->.
Qed.

Lemma skipLine_open body :
  Forall (fun c => c ≠ Compression.NEWLINE) body →
  Compression.skipLine body = [].
Proof.
  induction 1 as [|c body Hc _ IH]; [done|]. simpl.
  by apply N.eqb_neq in Hc as ->.
Qed.

Lemma unclosed_cons c d t :
  unclosed (c :: d :: t)
  = (negb ((c =? Compression.STAR) && (d =? Compression.SLASH))
     && unclosed (d :: t))%N%bool.
Proof. done. Qed.

Lemma skipBlock_cons c d t :
  Compression.skipBlock (c :: d :: t)
  = if ((c =? Compression.STAR) && (d =? Compression.SLASH))%N%bool
    then t else Compression.skipBlock (d :: t).
Proof. done. Qed.

Lemma skipBlock_closed body rest :
  unclosed (body ++ [Compression.STAR]) = true →
  Compression.skipBlock
    (body ++ Compression.STAR :: Compression.SLASH :: rest)
  = rest.
Proof.
  induction body as [|c body IH]; intros Hun; [done|].
  destruct body as [|d body].
  - simpl app in *. rewrite unclosed_cons in Hun.
    apply andb_true_iff in Hun as (Hc%negb_true_iff & _).
    rewrite skipBlock_cons.
    change (Compression.STAR =? Compression.SLASH)%N with false in Hc.
    rewrite andb_false_r in Hc.
    change ((c =? Compression.STAR) && (Compression.STAR =? Compression.SLASH))%N%bool
      with ((c =? Compression.STAR) && false)%N%bool.
    rewrite andb_false_r. by apply (IH eq_refl).
  - change ((c :: d :: body) ++ [Compression.STAR])
      with (c :: d :: (body ++ [Compression.STAR])) in Hun.
    rewrite unclosed_cons in Hun.
    apply andb_true_iff in Hun as (Hc%negb_true_iff & Hun).
    change ((c :: d :: body)
            ++ Compression.STAR :: Compression.SLASH :: rest)
      with (c :: d :: (body
                       ++ Compression.STAR :: Compression.SLASH :: rest)).
    rewrite skipBlock_cons, Hc. by apply IH.
Qed.

Lemma skipBlock_open body c :
  unclosed (body ++ [c]) = true →
  Compression.skipBlock (body ++ [c]) = [c].
Proof.
  induction body as [|x body IH]; intros Hun; [done|].
  destruct (body ++ [c]) as [|d t] eqn:Ht.
  { by destruct body. }
  change ((x :: body) ++ [c]) with (x :: (body ++ [c])) in *.
  rewrite Ht in *. rewrite unclosed_cons in Hun.
  apply andb_true_iff in Hun as (Hx%negb_true_iff & Hun).
  rewrite skipBlock_cons, Hx. by apply IH.
Qed.

Lemma unclosed_snoc body x :
  x ≠ Compression.SLASH → unclosed (body ++ [x]) = unclosed body.
Proof.
  intros Hx. induction body as [|c body IH]; [done|].
  destruct body as [|d body].
  - simpl. apply N.eqb_neq in Hx as ->. by rewrite andb_false_r.
  - change ((c :: d :: body) ++ [x]) with (c :: d :: (body ++ [x])).
    rewrite !unclosed_cons. f_equal. apply IH.
Qed.

Lemma removeComments_newline rest :
  Compression.removeComments (Compression.NEWLINE :: rest)
  = Compression.NEWLINE :: Compression.removeComments rest.
Proof.
  destruct rest as [|d rest]; [done|].
  by apply removeComments_copy.
Qed.

(** X27: closed comments are removed. After text that holds no start of
    a comment, a line comment is removed up to its line end, which is
    kept, or up to the end of the text; and a block comment is removed
    with its two delimiters, up to the first [*/] behind the opening
    [/*]. *)
Theorem removeComments_closed before body rest :
  plain (before ++ [Compression.SLASH]) = true →
  (Forall (fun c => c ≠ Compression.NEWLINE) body →
   Compression.removeComments
     (before ++ Compression.SLASH :: Compression.SLASH
             :: body ++ Compression.NEWLINE :: rest)
   = before ++ Compression.NEWLINE :: Compression.removeComments rest
   ∧ Compression.removeComments
       (before ++ Compression.SLASH :: Compression.SLASH :: body)
     = before)
  ∧ (unclosed body = true →
     Compression.removeComments
       (before ++ Compression.SLASH :: Compression.STAR
               :: body ++ Compression.STAR :: Compression.SLASH :: rest)
     = before ++ Compression.removeComments rest).
Proof.
  intros Hplain. split; [intros Hbody; split|intros Hbody].
  - rewrite removeComments_prefix by done.
    by rewrite removeComments_line, skipLine_body, removeComments_newline.
  - rewrite removeComments_prefix by done.
    rewrite removeComments_line, skipLine_open by done.
    by rewrite app_nil_r.
  - rewrite removeComments_prefix by done.
    rewrite removeComments_block, skipBlock_closed; [done|].
    by rewrite unclosed_snoc.
Qed.

(** X28: a block comment that is never closed swallows the rest of the
    text but its last character. After text that holds no start of a
    comment, [/*] followed by text without [*/] leaves the text in
    front and the very last character of the source; the loop that
    looks for [*/] stops one character before the end, and the outer
    loop copies that character. *)
Theorem removeComments_unterminated before body c :
  plain (before ++ [Compression.SLASH]) = true →
  unclosed (body ++ [c]) = true →
  Compression.removeComments
    (before ++ Compression.SLASH :: Compression.STAR :: body ++ [c])
  = before ++ [c].
Proof.
  intros Hplain Hun.
  rewrite removeComments_prefix by done.
  by rewrite removeComments_block, skipBlock_open.
Qed.

(** ** White space *)

Lemma words_ws c s : Js.isWhiteSpace c = true → words (c :: s) = words s.
Proof. intros H. simpl. by rewrite H. Qed.

Lemma words_start s : startsWord s = true → ∃ w r, words s = w :: r.
Proof.
  destruct s as [|c s]; [done|]. simpl. intros ->%negb_true_iff.
  destruct (startsWord s); [|by eauto].
  destruct (words s); simpl; by eauto.
Qed.

Lemma attach_app c (ws rest : list Js.SourceText) :
  ws ≠ [] → attach c (ws ++ rest) = attach c ws ++ rest.
Proof. by destruct ws. Qed.

(** White space between two texts separates their words. *)
Lemma words_sep a w b :
  Js.isWhiteSpace w = true → words (a ++ w :: b) = words a ++ words b.
Proof.
  intros Hw. induction a as [|c a IH]; [by apply words_ws|].
  change ((c :: a) ++ w :: b) with (c :: (a ++ w :: b)).
  cbn [words]. rewrite IH.
  destruct (Js.isWhiteSpace c); [done|].
  assert (startsWord (a ++ w :: b) = startsWord a) as ->.
  { destruct a; simpl; [by rewrite Hw|done]. }
  destruct (startsWord a) eqn:Ha; [|done].
  apply attach_app.
  by destruct (words_start a Ha) as (x & r & ->).
Qed.

Lemma words_snoc a w :
  Js.isWhiteSpace w = true → words (a ++ [w]) = words a.
Proof. intros Hw. by rewrite words_sep, app_nil_r. Qed.

Lemma words_trimStart s : words (Js.trimStart s) = words s.
Proof.
  induction s as [|c s IH]; [done|]. cbn [Js.trimStart].
  destruct (Js.isWhiteSpace c) eqn:Hc; [|done].
  by rewrite IH, words_ws.
Qed.

Lemma words_trimEnd u : words (rev (Js.trimStart (rev u))) = words u.
Proof.
  induction u as [|c u IH] using rev_ind; [done|].
  rewrite rev_app_distr. cbn [rev app Js.trimStart].
  destruct (Js.isWhiteSpace c) eqn:Hc.
  - by rewrite IH, words_snoc.
  - cbn [rev]. by rewrite rev_involutive.
Qed.

Lemma words_trim s : words (Js.trim s) = words s.
Proof. unfold Js.trim. by rewrite words_trimEnd, words_trimStart. Qed.

Lemma split_cons s : ∃ line lines, Compression.split s = line :: lines.
Proof.
  destruct s as [|c s]; simpl; [by eauto|].
  destruct (c =? Compression.NEWLINE)%N; [by eauto|].
  destruct (Compression.split s); by eauto.
Qed.

Lemma split_start s line lines :
  Compression.split s = line :: lines → startsWord line = startsWord s.
Proof.
  destruct s as [|c s]; simpl.
  { by intros [= <- <-]. }
  destruct (N.eqb_spec c Compression.NEWLINE) as [->|_].
  { by intros [= <- <-]. }
  destruct (Compression.split s); by intros [= <- <-].
Qed.

(** The words of a text are the words of its lines. *)
Lemma words_split s : concat (words <$> Compression.split s) = words s.
Proof.
  induction s as [|c s IH]; [done|]. cbn [Compression.split].
  destruct (N.eqb_spec c Compression.NEWLINE) as [->|_].
  { by rewrite words_ws. }
  destruct (split_cons s) as (line & lines & Hs).
  pose proof (split_start s line lines Hs) as Hstart.
  rewrite Hs in IH |- *. rewrite fmap_cons in IH |- *.
  cbn [concat] in IH |- *. cbn [words]. rewrite Hstart, <- IH.
  destruct (Js.isWhiteSpace c); [done|].
  destruct (startsWord s) eqn:Hword; [|done].
  destruct (words_start line Hstart) as (x & r & Hx). by rewrite Hx.
Qed.

Lemma words_join lines :
  words (Compression.join lines) = concat (words <$> lines).
Proof.
  induction lines as [|line lines IH]; [done|].
  destruct lines as [|line' lines].
  { simpl. by rewrite app_nil_r. }
  change (Compression.join (line :: line' :: lines))
    with (line ++ Compression.NEWLINE :: Compression.join (line' :: lines)).
  by rewrite words_sep, IH.
Qed.

Lemma words_nil_of_empty (line : Js.SourceText) :
  ¬ (0 < length line)%nat → words line = [].
Proof. destruct line; [done|simpl; lia]. Qed.

Lemma words_lines (lines : list Js.SourceText) :
  concat (words <$> filter (fun line => (0 < length line)%nat)
                      (Js.trim <$> lines))
  = concat (words <$> lines).
Proof.
  induction lines as [|line lines IH]; [done|].
  rewrite !fmap_cons, filter_cons. cbn [concat].
  rewrite <- IH, <- (words_trim line).
  case_decide as Hlen; [done|].
  by rewrite (words_nil_of_empty _ Hlen).
Qed.

Lemma replaceCrLf_cons c d s :
  Compression.replaceCrLf (c :: d :: s)
  = if ((c =? Compression.RETURN) && (d =? Compression.NEWLINE))%N%bool
    then Compression.NEWLINE :: Compression.replaceCrLf s
    else c :: Compression.replaceCrLf (d :: s).
Proof. done. Qed.

Lemma replaceCrLf_start s :
  startsWord (Compression.replaceCrLf s) = startsWord s.
Proof.
  destruct s as [|c [|d s]]; [done|done|].
  rewrite replaceCrLf_cons.
  destruct ((c =? Compression.RETURN) && (d =? Compression.NEWLINE))%N%bool
    eqn:H; [|done].
  by apply andb_true_iff in H as (->%N.eqb_eq & _).
Qed.

Lemma words_replaceCrLf s : words (Compression.replaceCrLf s) = words s.
Proof.
  remember (length s) as n eqn:Hn. revert s Hn.
  induction n as [n IH] using lt_wf_ind. intros s Hn.
  destruct s as [|c [|d s]]; [done|done|].
  rewrite replaceCrLf_cons.
  destruct ((c =? Compression.RETURN) && (d =? Compression.NEWLINE))%N%bool
    eqn:H.
  - apply andb_true_iff in H as (->%N.eqb_eq & ->%N.eqb_eq).
    rewrite !words_ws by done.
    apply (IH (length s)); [simpl in Hn; lia|done].
  - cbn [words]. rewrite replaceCrLf_start.
    by rewrite (IH (length (d :: s))) by (simpl in Hn |- *; lia || done).
Qed.

Lemma startsWord_app a b : startsWord a = true → startsWord (a ++ b) = true.
Proof. by destruct a. Qed.

Lemma trimStart_word s : startsWord s = true → Js.trimStart s = s.
Proof.
  destruct s as [|c s]; [done|]. simpl. by intros ->%negb_true_iff.
Qed.

(** Every word starts and ends with a character that is not white
    space. *)
Lemma words_good s :
  Forall (fun w => startsWord w = true ∧ startsWord (rev w) = true)
    (words s).
Proof.
  induction s as [|c s IH]; [by constructor|]. cbn [words].
  destruct (Js.isWhiteSpace c) eqn:Hc; [done|].
  destruct (startsWord s) eqn:Hs.
  - destruct (words_start s Hs) as (w & r & Hw). rewrite Hw in IH |- *.
    inversion_clear IH as [|? ? (Hw1 & Hw2) Hr]. simpl.
    constructor; [|done]. split.
    + simpl. by rewrite Hc.
    + simpl. by apply startsWord_app.
  - constructor; [|done]. simpl. by rewrite Hc.
Qed.

Lemma unwords_cons w w' rest :
  unwords (w :: w' :: rest)
  = w ++ Compression.SPACE :: unwords (w' :: rest).
Proof. done. Qed.

Lemma unwords_good (ws : list Js.SourceText) :
  Forall (fun w => startsWord w = true ∧ startsWord (rev w) = true) ws →
  ws ≠ [] →
  startsWord (unwords ws) = true ∧ startsWord (rev (unwords ws)) = true.
Proof.
  induction 1 as [|w ws (Hw1 & Hw2) Hws IH]; intros Hne; [done|].
  destruct ws as [|w' rest]; [done|].
  destruct IH as (_ & IH2); [done|].
  rewrite unwords_cons. split; [by apply startsWord_app|].
  rewrite rev_app_distr. cbn [rev]. rewrite <- !app_assoc.
  by apply startsWord_app.
Qed.

Lemma unwords_attach c w rest :
  unwords (attach c (w :: rest)) = c :: unwords (w :: rest).
Proof. by destruct rest. Qed.

(** The shape of a collapsed text: its words joined by single spaces,
    behind one space when the text starts with white space and was not
    entered in a run, and in front of at most one space. *)
Lemma collapse_shape s :
  (∃ trail,
     (trail = [] ∨ trail = [Compression.SPACE])
     ∧ (words s = [] → trail = [])
     ∧ Compression.collapseFrom false s
       = (if startsWord s then []
          else match s with [] => [] | _ :: _ => [Compression.SPACE] end)
         ++ unwords (words s) ++ trail)
  ∧ (∃ trail,
       (trail = [] ∨ trail = [Compression.SPACE])
       ∧ (words s = [] → trail = [])
       ∧ Compression.collapseFrom true s = unwords (words s) ++ trail).
Proof.
  induction s as [|c s ((t1 & Ht1 & Hn1 & IH1) & (t2 & Ht2 & Hn2 & IH2))].
  { split; exists []; (split; [by left|]); by split. }
  cbn [Compression.collapseFrom words startsWord].
  destruct (Js.isWhiteSpace c) eqn:Hc; cbn [negb].
  { split; exists t2; (split; [done|]); (split; [done|]);
      by rewrite IH2. }
  assert (∃ trail,
            (trail = [] ∨ trail = [Compression.SPACE])
            ∧ c :: Compression.collapseFrom false s
              = unwords (if startsWord s then attach c (words s)
                         else [c] :: words s) ++ trail)
    as (trail & Htrail & Heq).
  { rewrite IH1. destruct (startsWord s) eqn:Hs.
    - destruct (words_start s Hs) as (w & r & Hw).
      exists t1. split; [done|]. by rewrite Hw, unwords_attach.
    - destruct s as [|d s].
      { exists []. split; [by left|]. by rewrite (Hn1 eq_refl). }
      destruct (words (d :: s)) as [|w r] eqn:Hw.
      + exists [Compression.SPACE]. split; [by right|].
        by rewrite (Hn1 eq_refl).
      + exists t1. split; [done|]. rewrite unwords_cons.
        by rewrite <- !app_assoc. }
  split; exists trail; (split; [done|]); (split; [|done]).
  - by destruct (startsWord s), (words s).
  - by destruct (startsWord s), (words s).
Qed.

Lemma normalizeWhitespace_unwords sourceCode :
  Compression.normalizeWhitespace sourceCode = unwords (words sourceCode).
Proof.
  unfold Compression.normalizeWhitespace, Compression.collapse.
  set (joined := Compression.join _).
  assert (words joined = words sourceCode) as Hwords.
  { unfold joined.
    by rewrite words_join, words_lines, words_split, words_replaceCrLf. }
  destruct (collapse_shape joined) as ((trail & Htrail & Hnil & ->) & _).
  rewrite Hwords in *.
  destruct (words sourceCode) as [|w r] eqn:Hw.
  { rewrite (Hnil eq_refl).
    destruct (startsWord joined); [done|]. by destruct joined. }
  pose proof (words_good sourceCode) as Hgood. rewrite Hw in Hgood.
  destruct (unwords_good (w :: r) Hgood) as (Hu1 & Hu2); [done|].
  set (u := unwords (w :: r)) in *.
  unfold Js.trim.
  assert (Js.trimStart
            ((if startsWord joined then []
              else match joined with
                   | [] => []
                   | _ :: _ => [Compression.SPACE]
                   end) ++ u ++ trail) = u ++ trail) as ->.
  { destruct (startsWord joined), joined; cbn [app Js.trimStart];
      apply trimStart_word; by apply startsWord_app. }
  rewrite rev_app_distr.
  destruct Htrail as [->| ->]; cbn [rev app Js.trimStart].
  - by rewrite trimStart_word, rev_involutive.
  - change (Js.isWhiteSpace Compression.SPACE) with true. cbv iota.
    by rewrite trimStart_word, rev_involutive.
Qed.

(** A word holds no white space. *)
Lemma words_pure s :
  Forall (fun w => w ≠ [] ∧ Forall (fun c => Js.isWhiteSpace c = false) w)
    (words s).
Proof.
  induction s as [|c s IH]; [by constructor|]. cbn [words].
  destruct (Js.isWhiteSpace c) eqn:Hc; [done|].
  destruct (startsWord s) eqn:Hs.
  - destruct (words_start s Hs) as (w & r & Hw). rewrite Hw in IH |- *.
    inversion_clear IH as [|? ? (Hw1 & Hw2) Hr]. simpl.
    constructor; [|done]. split; [done|by constructor].
  - constructor; [|done]. split; [done|]. by repeat constructor.
Qed.

Lemma words_word w :
  w ≠ [] → Forall (fun c => Js.isWhiteSpace c = false) w → words w = [w].
Proof.
  intros Hne Hall. induction Hall as [|c w Hc Hall IH]; [done|].
  cbn [words]. rewrite Hc.
  destruct w as [|d w]; [done|].
  rewrite IH by done. simpl.
  inversion_clear Hall as [|? ? Hd _]. by rewrite Hd.
Qed.

Lemma words_unwords (ws : list Js.SourceText) :
  Forall (fun w => w ≠ [] ∧ Forall (fun c => Js.isWhiteSpace c = false) w)
    ws →
  words (unwords ws) = ws.
Proof.
  induction 1 as [|w ws (Hne & Hw) _ IH]; [done|].
  destruct ws as [|w' rest].
  - by apply words_word.
  - rewrite unwords_cons, words_sep by done.
    rewrite (words_word w) by done. simpl. f_equal. exact IH.
Qed.

(** X29: [normalizeWhitespace] returns the words of the text joined by
    single spaces, where a word is a maximal run of characters that are
    not white space. Line ends of either kind, blank lines, and the
    amount and the kind of white space between two words make no
    difference; the result has the same words as the text, and
    normalizing it again changes nothing. *)
Theorem normalizeWhitespace_words sourceCode :
  Compression.normalizeWhitespace sourceCode = unwords (words sourceCode)
  ∧ words (Compression.normalizeWhitespace sourceCode) = words sourceCode
  ∧ Compression.normalizeWhitespace
      (Compression.normalizeWhitespace sourceCode)
    = Compression.normalizeWhitespace sourceCode.
Proof.
  assert (words (Compression.normalizeWhitespace sourceCode)
          = words sourceCode) as Hwords.
  { rewrite normalizeWhitespace_unwords. apply words_unwords, words_pure. }
  split; [apply normalizeWhitespace_unwords|]. split; [done|].
  rewrite (normalizeWhitespace_unwords (Compression.normalizeWhitespace _)).
  by rewrite Hwords, normalizeWhitespace_unwords.
Qed.

(** ** The key *)

Lemma toInt32_shift x k :
  Compression.toInt32 (x + k * 2 ^ 32) = Compression.toInt32 x.
Proof.
  unfold Compression.toInt32.
  replace (x + k * 2 ^ 32 + 2 ^ 31) with (x + 2 ^ 31 + k * 2 ^ 32) by lia.
  by rewrite Z_mod_plus_full.
Qed.

Lemma toInt32_multiple x : ∃ k, Compression.toInt32 x = x + k * 2 ^ 32.
Proof.
  unfold Compression.toInt32. exists (- ((x + 2 ^ 31) / 2 ^ 32)).
  rewrite Z.mod_eq by done. lia.
Qed.

Lemma hashStep_poly p char :
  Compression.hashStep (Compression.toInt32 p) char
  = Compression.toInt32 (31 * p + Z.of_N char).
Proof.
  unfold Compression.hashStep.
  destruct (toInt32_multiple p) as (k1 & ->).
  destruct (toInt32_multiple ((p + k1 * 2 ^ 32) * 32)) as (k2 & ->).
  rewrite <- (toInt32_shift (31 * p + Z.of_N char) (31 * k1 + k2)).
  f_equal. lia.
Qed.

Lemma hash_poly s : ∀ p,
  fold_left Compression.hashStep s (Compression.toInt32 p)
  = Compression.toInt32 (fold_left (fun h c => 31 * h + Z.of_N c) s p).
Proof.
  induction s as [|c s IH]; intros p; [done|]. simpl.
  by rewrite hashStep_poly, IH.
Qed.

(** X30: the key in closed form. The key of a source text depends on
    the text only through the words of the text without its comments:
    it is [source_], the absolute value in radix 36 of the polynomial
    hash with multiplier 31 of these words joined by single spaces,
    reduced to a signed 32-bit integer, [_], and the length of that
    joined text. Two sources with the same words outside comments
    therefore share a key and one cached analysis. *)
Theorem createSourceCodeKey_closed_form sourceCode :
  let compressed :=
    unwords (words (Compression.removeComments sourceCode)) in
  Compression.compressSourceCode sourceCode = compressed
  ∧ Compression.createSourceCodeKey sourceCode
    = "source_"
      +:+ Compression.toString36
            (Z.abs (Compression.toInt32 (poly31 compressed)))
      +:+ "_" +:+ Js.natToString (length compressed).
Proof.
  intros compressed.
  assert (Compression.compressSourceCode sourceCode = compressed) as Hc.
  { unfold Compression.compressSourceCode.
    by rewrite normalizeWhitespace_unwords. }
  split; [done|].
  unfold Compression.createSourceCodeKey. rewrite Hc.
  change 0 with (Compression.toInt32 0) at 1.
  by rewrite hash_poly.
Qed.

(** ** The key on sample texts *)

(** The text in front of a comment is copied, a division included. *)
Lemma removeComments_plain_prefix_witness :
  let before := Js.codeUnits "int x = 6 / 2; " in
  let rest := Js.codeUnits "// half" in
  plain (before ++ take 1 rest) = true
  ∧ Compression.removeComments (before ++ rest)
    = before ++ Compression.removeComments rest
  ∧ (rest = [] → Compression.removeComments before = before).
Proof.
  intros before rest.
  split; [reflexivity|].
  apply (removeComments_plain_prefix before rest). reflexivity.
Defined.

(** A line comment and a block comment behind a declaration. *)
Lemma removeComments_closed_witness :
  let before := Js.codeUnits "int x; " in
  let body := Js.codeUnits " note" in
  let rest := Js.codeUnits "int y;" in
  plain (before ++ [Compression.SLASH]) = true
  ∧ Forall (fun c => c ≠ Compression.NEWLINE) body
  ∧ unclosed body = true
  ∧ Compression.removeComments
      (before ++ Compression.SLASH :: Compression.SLASH
              :: body ++ Compression.NEWLINE :: rest)
    = before ++ Compression.NEWLINE :: Compression.removeComments rest
  ∧ Compression.removeComments
      (before ++ Compression.SLASH :: Compression.SLASH :: body)
    = before
  ∧ Compression.removeComments
      (before ++ Compression.SLASH :: Compression.STAR
              :: body ++ Compression.STAR :: Compression.SLASH :: rest)
    = before ++ Compression.removeComments rest.
Proof.
  intros before body rest.
  assert (Forall (fun c => c ≠ Compression.NEWLINE) body) as Hbody.
  { repeat constructor; discriminate. }
  destruct (removeComments_closed before body rest eq_refl) as (Hline & Hblock).
  destruct (Hline Hbody) as (Hline1 & Hline2).
  split; [reflexivity|]. split; [exact Hbody|]. split; [reflexivity|].
  split; [exact Hline1|]. split; [exact Hline2|]. exact (Hblock eq_refl).
Defined.

(** The last character of the source survives a comment that is never
    closed. *)
Lemma removeComments_unterminated_witness :
  let before := Js.codeUnits "int x; " in
  let body := Js.codeUnits " not" in
  let c := N_of_ascii "e" in
  plain (before ++ [Compression.SLASH]) = true
  ∧ unclosed (body ++ [c]) = true
  ∧ Compression.removeComments
      (before ++ Compression.SLASH :: Compression.STAR :: body ++ [c])
    = before ++ [c].
Proof.
  intros before body c.
  split; [reflexivity|]. split; [reflexivity|].
  exact (removeComments_unterminated before body c eq_refl eq_refl).
Defined.
